(** * Priority-queue scheduler: a shallow embedding of [scheduler.c]

    The queue of [scheduler.c] is a doubly linked chain of heap nodes that
    is kept sorted by [process_evaluation].  The embedding keeps the
    pointer structure: nodes live in a heap (a finite map from addresses
    to nodes), [malloc] may fail, and every function of the source is a
    computation in a small state-and-error monad over that heap. *)

From Stdlib Require Import ZArith Lia List.
From stdpp Require Import base tactics option list numbers gmap.

Local Open Scope Z_scope.

(** ** Machine integers *)

(** [unsigned int] is 32 bits wide, [uint16_t] 16 bits, pointers and
    [size_t] 64 bits (the LP64 data model). *)
Definition UINT_BITS : Z := 32.
Definition UINT_MOD : Z := 2 ^ UINT_BITS.
Definition SIZE_MOD : Z := 2 ^ 64.

(** Arithmetic on [unsigned int] wraps around. *)
Definition wrap_uint (z : Z) : Z := z mod UINT_MOD.

(** Arithmetic on [size_t] wraps around. *)
Definition wrap_size (z : Z) : Z := z mod SIZE_MOD.

(** [const uint16_t CPU_MASK_MAX = 65535;] *)
Definition CPU_MASK_MAX : Z := 65535.

(** ** Data model *)

(** A heap address; the null pointer is [None]. *)
Abbreviation addr := positive.
Abbreviation ptr := (option positive).

(** Modelled from the spec: [scheduler.h] is not among the sources, so the
    struct [process_type] follows section 3 of the specification and the
    uses in [scheduler.c]: [callback] and [context] are opaque references
    compared with [==], [niceness] and [remaining_time] are
    [unsigned int] ([renice] takes the niceness as [unsigned int],
    [run_top] assigns the callback's [unsigned int] result to
    [remaining_time] and returns it as [unsigned int]), and [cpu_mask] is
    a [uint16_t]. *)
Record process_type := mk_process {
  callback : Z;
  context : Z;
  niceness : Z;
  remaining_time : Z;
  cpu_mask : Z
}.

Global Instance process_type_eq_dec : EqDecision process_type.
Proof. solve_decision. Defined.

(** The values a [process_type] can hold. *)
Definition process_in_range (p : process_type) : Prop :=
  0 <= niceness p < UINT_MOD /\
  0 <= remaining_time p < UINT_MOD /\
  0 <= cpu_mask p <= CPU_MASK_MAX.

(** Modelled from the spec: [struct priority_queue_item] of the absent
    [scheduler.h]; the fields are the ones [create_item] initialises. *)
Record priority_queue_item := mk_item {
  process : process_type;
  next : ptr;
  prev : ptr
}.

(** Modelled from the spec: [priority_queue] of the absent [scheduler.h]
    with the fields [create_queue] initialises; [size] is a [size_t]. *)
Record priority_queue := mk_queue {
  top : ptr;
  bottom : ptr;
  size : Z
}.

Global Instance priority_queue_eq_dec : EqDecision priority_queue.
Proof. solve_decision. Defined.

(** Modelled from the spec: [enum push_result] of the absent
    [scheduler.h], with the four outcomes the source returns. *)
Inductive push_result :=
  | push_success
  | push_duplicate
  | push_inconsistent
  | push_error.

Global Instance push_result_eq_dec : EqDecision push_result.
Proof. solve_decision. Defined.

(** ** Memory and effects *)

(** One invocation of a process callback: the function called, the
    [run_time] passed and the context passed. *)
Record call_event := mk_call {
  call_fn : Z;
  call_run_time : Z;
  call_context : Z
}.

(** The state the functions run in: the heap of queue nodes, the answers
    the allocator will give to the coming [malloc] requests ([false] makes
    the request fail; an exhausted list lets every request succeed), and
    the callbacks invoked so far, most recent last. *)
Record state := mk_state {
  heap : gmap addr priority_queue_item;
  alloc_plan : list bool;
  calls : list call_event
}.

Inductive fault :=
  | AssertionFailed   (* an [assert] of the source does not hold *)
  | InvalidPointer    (* null or dangling pointer dereferenced or freed *)
  | Uninitialised     (* a variable is read before it was written *)
  | Diverges.         (* a loop over the chain does not leave it *)

Inductive result (A : Type) :=
  | Ok (x : A)
  | Err (f : fault).
Arguments Ok {A} x.
Arguments Err {A} f.

(** State and error monad. *)
Definition M (A : Type) : Type := state -> result (A * state).

Definition ret {A} (x : A) : M A := fun st => Ok (x, st).

Definition bind {A B} (m : M A) (k : A -> M B) : M B :=
  fun st => match m st with
            | Ok (x, st') => k x st'
            | Err f => Err f
            end.

Definition raise {A} (f : fault) : M A := fun _ => Err f.

Declare Scope sched_scope.
Delimit Scope sched_scope with sched.
Notation "'let*' x ':=' m 'in' k" := (bind m (fun x => k))
  (at level 10, x pattern, m at level 100, k at level 200) : sched_scope.
Notation "m ';;;' k" := (bind m (fun _ => k))
  (at level 100, k at level 200, right associativity) : sched_scope.
Local Open Scope sched_scope.

(** [assert(c)] *)
Definition assert_ (c : bool) : M unit :=
  if c then ret tt else raise AssertionFailed.

(** Reading the node an item pointer designates. *)
Definition load (a : addr) : M priority_queue_item :=
  fun st => match heap st !! a with
            | Some it => Ok (it, st)
            | None => Err InvalidPointer
            end.

(** Dereferencing a pointer that may be null. *)
Definition deref (p : ptr) : M addr :=
  match p with
  | Some a => ret a
  | None => raise InvalidPointer
  end.

(** Writing the node an item pointer designates. *)
Definition store (a : addr) (f : priority_queue_item -> priority_queue_item) : M unit :=
  fun st => match heap st !! a with
            | Some it => Ok (tt, mk_state (<[a := f it]> (heap st)) (alloc_plan st) (calls st))
            | None => Err InvalidPointer
            end.

Definition set_next (v : ptr) (it : priority_queue_item) : priority_queue_item :=
  mk_item (process it) v (prev it).
Definition set_prev (v : ptr) (it : priority_queue_item) : priority_queue_item :=
  mk_item (process it) (next it) v.
Definition set_process (p : process_type) (it : priority_queue_item) : priority_queue_item :=
  mk_item p (next it) (prev it).

Definition with_niceness (n : Z) (p : process_type) : process_type :=
  mk_process (callback p) (context p) n (remaining_time p) (cpu_mask p).
Definition with_remaining_time (t : Z) (p : process_type) : process_type :=
  mk_process (callback p) (context p) (niceness p) t (cpu_mask p).

(** The content of a node between [malloc] and its initialisation. *)
Definition blank_item : priority_queue_item :=
  mk_item (mk_process 0 0 0 0 0) None None.

(** Nodes have distinct non-null addresses of 64 bits, so fewer than
    [SIZE_MOD] of them are allocated at any time. *)
Definition has_room (h : gmap addr priority_queue_item) : bool :=
  bool_decide (Z.of_nat (base.size h) + 1 < SIZE_MOD).

(** The allocator grants the next request when its plan does not say
    [false]. *)
Definition grants (plan : list bool) : bool :=
  if head plan is Some false then false else true.

(** [malloc(sizeof(struct priority_queue_item))]: fails when the allocator
    says so or when the address space is exhausted, and otherwise returns
    an address that is not in use. *)
Definition malloc : M ptr :=
  fun st =>
    let plan := tail (alloc_plan st) in
    let a := fresh (dom (heap st)) in
    if grants (alloc_plan st) && has_room (heap st)
    then Ok (Some a, mk_state (<[a := blank_item]> (heap st)) plan (calls st))
    else Ok (None, mk_state (heap st) plan (calls st)).

(** [free(item)] *)
Definition free (a : addr) : M unit :=
  fun st => match heap st !! a with
            | Some _ => Ok (tt, mk_state (delete a (heap st)) (alloc_plan st) (calls st))
            | None => Err InvalidPointer
            end.

(** The number of nodes in the heap bounds every walk along a chain that
    does not visit a node twice. *)
Definition chain_fuel : M nat := fun st => Ok (base.size (heap st), st).

(** ** The functions of [scheduler.c] *)

(** [cpu_count]: the loop [while (mask > 0)] shifts a [uint16_t] right, so
    it leaves after at most 16 rounds. *)
Fixpoint cpu_count_loop (rounds : nat) (mask count : Z) : Z :=
  match rounds with
  | O => count
  | S r =>
      if 0 <? mask
      then cpu_count_loop r (Z.shiftr mask 1)
             (if Z.land mask 1 =? 0 then count else count + 1)
      else count
  end.

Definition cpu_count (mask : Z) : Z := cpu_count_loop 16 mask 0.

(** [process_evaluation]: both products are computed in [unsigned int]
    and only then stored in an [unsigned long]. *)
Definition process_evaluation (push_process process : process_type) : bool :=
  let push_process_priority := wrap_uint (niceness push_process * remaining_time push_process) in
  let process_priority := wrap_uint (niceness process * remaining_time process) in
  if push_process_priority =? process_priority
  then (if cpu_count (cpu_mask push_process) <? cpu_count (cpu_mask process)
        then true else false)
  else push_process_priority <? process_priority.

(** [processes_are_valid], [push_to_queue], [renice], [get_top] and
    [pop_top] all walk the chain with
    [for (item = queue->top; item; item = item->next)] and a body that
    either returns from the function or goes on to the next node.  The
    body answers [Some r] for [return r] and [None] for falling through
    to [item = item->next]. *)
Fixpoint for_items {R} (fuel : nat) (item : ptr) (body : addr -> M (option R)) : M (option R) :=
  match item with
  | None => ret None
  | Some a =>
      match fuel with
      | O => raise Diverges
      | S fuel' =>
          let* r := body a in
          match r with
          | Some x => ret (Some x)
          | None => let* it := load a in for_items fuel' (next it) body
          end
      end
  end.

Definition same_identity (cb ctx : Z) (p : process_type) : bool :=
  bool_decide (callback p = cb) && bool_decide (context p = ctx).

Definition same_schedule (p q : process_type) : bool :=
  bool_decide (remaining_time p = remaining_time q) &&
  bool_decide (niceness p = niceness q) &&
  bool_decide (cpu_mask p = cpu_mask q).

Definition processes_are_valid (queue : priority_queue) (proc : process_type) : M push_result :=
  let* fuel := chain_fuel in
  let* r := for_items fuel (top queue) (fun item =>
    let* it := load item in
    if same_identity (callback proc) (context proc) (process it) then
      if same_schedule (process it) proc
      then ret (Some push_duplicate)
      else ret (Some push_inconsistent)
    else ret None) in
  match r with
  | Some res => ret res
  | None => ret push_success
  end.

Definition create_item (proc : process_type) (nxt prv : ptr) : M ptr :=
  let* item := malloc in
  match item with
  | None => ret None
  | Some a => store a (fun _ => mk_item proc nxt prv) ;;; ret (Some a)
  end.

Definition set_top (v : ptr) (q : priority_queue) : priority_queue :=
  mk_queue v (bottom q) (size q).
Definition set_bottom (v : ptr) (q : priority_queue) : priority_queue :=
  mk_queue (top q) v (size q).
Definition set_size (v : Z) (q : priority_queue) : priority_queue :=
  mk_queue (top q) (bottom q) v.

(** The loop of [clear_queue]: the next pointer is read before the node
    is freed. *)
Fixpoint clear_loop (fuel : nat) (item : ptr) : M unit :=
  match item with
  | None => ret tt
  | Some item_to_del =>
      match fuel with
      | O => raise Diverges
      | S fuel' =>
          let* it := load item_to_del in
          free item_to_del ;;;
          clear_loop fuel' (next it)
      end
  end.

Definition clear_queue (queue : priority_queue) : M priority_queue :=
  let* fuel := chain_fuel in
  clear_loop fuel (top queue) ;;;
  ret (mk_queue None None 0).

Definition pop_item (queue : priority_queue) (item : addr) : M priority_queue :=
  let queue := set_size (wrap_size (size queue - 1)) queue in
  if bool_decide (Some item = top queue) then
    let* t := deref (top queue) in
    let* top_item := load t in
    match next top_item with
    | None => clear_queue queue
    | Some n =>
        let queue := set_top (next top_item) queue in
        store n (set_prev None) ;;;
        free item ;;;
        ret queue
    end
  else if bool_decide (Some item = bottom queue) then
    let* b := deref (bottom queue) in
    let* bottom_item := load b in
    let queue := set_bottom (prev bottom_item) queue in
    let* b := deref (bottom queue) in
    store b (set_next None) ;;;
    free item ;;;
    ret queue
  else
    let* it := load item in
    let* n := deref (next it) in
    store n (set_prev (prev it)) ;;;
    let* it := load item in
    let* p := deref (prev it) in
    store p (set_next (next it)) ;;;
    free item ;;;
    ret queue.

Definition create_queue : priority_queue := mk_queue None None 0.

Definition niceness_ok (n : Z) : bool :=
  bool_decide (10 <= n) && bool_decide (n <= 49).

Definition push_to_queue (queue : priority_queue) (proc : process_type)
  : M (push_result * priority_queue) :=
  assert_ (niceness_ok (niceness proc)) ;;;
  if top queue is None then
    let* new_item := create_item proc None None in
    match new_item with
    | None => ret (push_error, queue)
    | Some _ =>
        ret (push_success,
             set_size (wrap_size (size queue + 1))
               (set_bottom new_item (set_top new_item queue)))
    end
  else
    let* valid_state := processes_are_valid queue proc in
    if bool_decide (valid_state <> push_success) then ret (valid_state, queue)
    else
      let* fuel := chain_fuel in
      let* r := for_items fuel (top queue) (fun item =>
        let* it := load item in
        if process_evaluation proc (process it) then
          let* new_item := create_item proc (Some item) (prev it) in
          match new_item with
          | None => ret (Some (push_error, queue))
          | Some _ =>
              let* queue :=
                (if bool_decide (Some item = top queue) then
                   let* t := deref (top queue) in
                   store t (set_prev new_item) ;;;
                   ret (set_top new_item queue)
                 else
                   let* it := load item in
                   let* p := deref (prev it) in
                   store p (set_next new_item) ;;;
                   store item (set_prev new_item) ;;;
                   ret queue) in
              ret (Some (push_success, set_size (wrap_size (size queue + 1)) queue))
          end
        else ret None) in
      match r with
      | Some res => ret res
      | None =>
          let* new_item := create_item proc None (bottom queue) in
          match new_item with
          | None => ret (push_error, queue)
          | Some _ =>
              let* b := deref (bottom queue) in
              store b (set_next new_item) ;;;
              ret (push_success,
                   set_size (wrap_size (size queue + 1)) (set_bottom new_item queue))
          end
      end.

Definition renice (queue : priority_queue) (cb ctx nice : Z) : M (bool * priority_queue) :=
  assert_ (niceness_ok nice) ;;;
  let* fuel := chain_fuel in
  let* r := for_items fuel (top queue) (fun item =>
    let* it := load item in
    if same_identity cb ctx (process it) then
      store item (fun it => set_process (with_niceness nice (process it)) it) ;;;
      let* it := load item in
      let p := process it in
      let* queue := pop_item queue item in
      let* (_, queue) := push_to_queue queue p in
      ret (Some (true, queue))
    else ret None) in
  match r with
  | Some res => ret res
  | None => ret (false, queue)
  end.

(** [item->process.cpu_mask & cpu_mask] as a condition. *)
Definition eligible (mask : Z) (p : process_type) : bool :=
  negb (Z.land (cpu_mask p) mask =? 0).

(** [get_top] returns [&item->process]: a pointer into the node, given
    here by the node's address. *)
Definition get_top (queue : priority_queue) (mask : Z) : M ptr :=
  let* fuel := chain_fuel in
  for_items fuel (top queue) (fun item =>
    let* it := load item in
    if eligible mask (process it) then ret (Some item) else ret None).

(** Where the [out] parameter of [pop_top] points: nowhere, to a variable
    of the caller, or to the process stored in a queue node. *)
Inductive out_ptr :=
  | OutNull
  | OutVar
  | OutItem (a : addr).

(** [pop_top] answers with its return value, the value it wrote to the
    caller's variable (when [out] points to one) and the queue. *)
Definition pop_top (queue : priority_queue) (mask : Z) (out : out_ptr)
  : M (bool * option process_type * priority_queue) :=
  let* fuel := chain_fuel in
  let* r := for_items fuel (top queue) (fun item =>
    let* it := load item in
    if eligible mask (process it) then
      let* written :=
        match out with
        | OutNull => ret None
        | OutVar => ret (Some (process it))
        | OutItem o => store o (set_process (process it)) ;;; ret None
        end in
      let* queue := pop_item queue item in
      ret (Some (true, written, queue))
    else ret None) in
  match r with
  | Some res => ret res
  | None => ret (false, None, queue)
  end.

(** The loop of [copy_queue]; [None] is the early [return false]. *)
Fixpoint copy_loop (fuel : nat) (item : ptr) (new_queue : priority_queue)
  : M (option priority_queue) :=
  match item with
  | None => ret (Some new_queue)
  | Some a =>
      match fuel with
      | O => raise Diverges
      | S fuel' =>
          let* it := load a in
          let* new_item := create_item (process it) None None in
          match new_item with
          | None => clear_queue new_queue ;;; ret None
          | Some n =>
              let new_queue :=
                if top new_queue is None then set_top new_item new_queue else new_queue in
              (if bottom new_queue is Some b then
                 store n (set_prev (bottom new_queue)) ;;;
                 store b (set_next new_item)
               else ret tt) ;;;
              let new_queue := set_bottom new_item new_queue in
              store n (set_next None) ;;;
              let new_queue := set_size (wrap_size (size new_queue + 1)) new_queue in
              let* it := load a in
              copy_loop fuel' (next it) new_queue
          end
      end
  end.

(** [copy_queue] answers with its return value and the value of [*dest]. *)
Definition copy_queue (dest source : priority_queue) : M (bool * priority_queue) :=
  let new_queue := create_queue in
  let* fuel := chain_fuel in
  let* r := copy_loop fuel (top source) new_queue in
  match r with
  | None => ret (false, dest)
  | Some new_queue =>
      ret (true, mk_queue (top new_queue) (bottom new_queue) (size new_queue))
  end.

(** [proc->callback(run_time, proc->context)]: the callback is code of the
    caller; [behaviour] gives the [unsigned int] it returns.  It does not
    touch the queue it is scheduled from (section 6 of the
    specification); the invocation is recorded in [calls]. *)
Definition invoke (behaviour : Z -> Z -> Z -> Z) (fn run_time ctx : Z) : M Z :=
  fun st =>
    Ok (wrap_uint (behaviour fn run_time ctx),
        mk_state (heap st) (alloc_plan st) (calls st ++ [mk_call fn run_time ctx])).

Definition run_top (behaviour : Z -> Z -> Z -> Z) (queue : priority_queue)
  (mask run_time : Z) : M (Z * priority_queue) :=
  if top queue is None then ret (0, queue)
  else
    let* proc := get_top queue mask in
    match proc with
    | None => ret (0, queue)
    | Some a =>
        let* it := load a in
        let* call_res := invoke behaviour (callback (process it)) run_time (context (process it)) in
        if call_res =? 0 then
          let* (_, _, queue) := pop_top queue mask (OutItem a) in
          ret (0, queue)
        else
          let* it := load a in
          (if run_time <? remaining_time (process it) then
             store a (fun it => set_process
               (with_remaining_time
                  (wrap_uint (remaining_time (process it) - run_time + call_res))
                  (process it)) it)
           else
             store a (fun it => set_process (with_remaining_time call_res (process it)) it)) ;;;
          let* (_, written, queue) := pop_top queue mask OutVar in
          match written with
          | None => raise Uninitialised
          | Some p =>
              let* (_, queue) := push_to_queue queue p in
              ret (remaining_time p, queue)
          end
    end.

(** ** Specification-level notions *)

(** The score of the specification: the product as a number. *)
Definition score (p : process_type) : Z := niceness p * remaining_time p.

(** The score the code compares: the product as [unsigned int]. *)
Definition wrapped_score (p : process_type) : Z :=
  wrap_uint (niceness p * remaining_time p).

(** The number of bits set among the lowest [n] bits of [mask]. *)
Fixpoint set_bits (n : nat) (mask : Z) : Z :=
  match n with
  | O => 0
  | S k => set_bits k mask + (if Z.testbit mask (Z.of_nat k) then 1 else 0)
  end.

(** The number of set bits of a [uint16_t]. *)
Definition popcount (mask : Z) : Z := set_bits 16 mask.

(** The order of the specification: score ascending, number of eligible
    CPUs ascending as tie-break. *)
Definition outranks (a b : process_type) : Prop :=
  score a < score b \/
  (score a = score b /\ popcount (cpu_mask a) < popcount (cpu_mask b)).

(** The order the code implements. *)
Definition code_outranks (a b : process_type) : Prop :=
  wrapped_score a < wrapped_score b \/
  (wrapped_score a = wrapped_score b /\
   cpu_count (cpu_mask a) < cpu_count (cpu_mask b)).

(** The identity of a process. *)
Definition identity (p : process_type) : Z * Z := (callback p, context p).

(** A process whose fields are in range and whose product
    [niceness * remaining_time] fits an [unsigned int]. *)
Definition no_overflow (p : process_type) : Prop :=
  process_in_range p /\ score p < UINT_MOD.

(** Sorted by the order of the specification: no later entry outranks
    an earlier entry. *)
Definition score_sorted (l : list process_type) : Prop :=
  forall (i j : nat) (a b : process_type),
    (i < j)%nat -> l !! i = Some a -> l !! j = Some b -> ~ outranks b a.

(** ** The chain of nodes *)

(** A node of the chain: its address and the process stored in it. *)
Abbreviation node := (addr * process_type)%type.

(** The pointer to the first node of a list of nodes, [dflt] when there
    is none. *)
Definition hd_ptr (ns : list node) (dflt : ptr) : ptr :=
  match ns with
  | [] => dflt
  | n :: _ => Some n.1
  end.

(** The pointer to the last node of a list of nodes. *)
Fixpoint last_ptr (ns : list node) (dflt : ptr) : ptr :=
  match ns with
  | [] => dflt
  | n :: r => last_ptr r (Some n.1)
  end.

(** [dlseg h prv ns nxt]: in the heap [h] the nodes [ns] are linked in
    this order through [next] and [prev]; the first node's [prev] is [prv]
    and the last node's [next] is [nxt]. *)
Fixpoint dlseg (h : gmap addr priority_queue_item) (prv : ptr) (ns : list node)
  (nxt : ptr) : Prop :=
  match ns with
  | [] => True
  | n :: r =>
      h !! n.1 = Some (mk_item n.2 (hd_ptr r nxt) prv) /\ dlseg h (Some n.1) r nxt
  end.

(** [is_queue h q ns]: the queue struct [q] heads the chain [ns] in [h]. *)
Record is_queue (h : gmap addr priority_queue_item) (q : priority_queue)
  (ns : list node) : Prop := mk_is_queue {
  q_chain : dlseg h None ns None;
  q_nodup : NoDup ns.*1;
  q_heap : Z.of_nat (base.size h) < SIZE_MOD;
  q_top : top q = hd_ptr ns None;
  q_bottom : bottom q = last_ptr ns None;
  q_size : size q = Z.of_nat (length ns)
}.

(** No later entry outranks an earlier entry under the comparator. *)
Definition sorted (l : list process_type) : Prop :=
  forall (i j : nat) (a b : process_type),
    (i < j)%nat -> l !! i = Some a -> l !! j = Some b ->
    process_evaluation b a = false.

(** No two entries have the same (callback, context) identity. *)
Definition unique_identities (l : list process_type) : Prop :=
  NoDup (identity <$> l).

(** The representation invariant of a queue [q] in a heap [h], with the
    queued processes [l] in queue order. *)
Definition represents (h : gmap addr priority_queue_item) (q : priority_queue)
  (l : list process_type) : Prop :=
  exists ns, is_queue h q ns /\ ns.*2 = l.

(** Every entry passed the niceness assertion of [push_to_queue] or
    [renice]. *)
Definition valid_niceness (l : list process_type) : Prop :=
  Forall (fun p => 10 <= niceness p <= 49) l.

(** What holds of the processes of a queue, in queue order. *)
Definition contents_ok (l : list process_type) : Prop :=
  sorted l /\ unique_identities l /\ valid_niceness l.

Definition queue_invariant (h : gmap addr priority_queue_item) (q : priority_queue) : Prop :=
  exists l, represents h q l /\ contents_ok l.

(** Cells that are allocated and outside the chain [ns] keep their
    content from [h] to [h']. *)
Definition preserves (ns : list node) (h h' : gmap addr priority_queue_item) : Prop :=
  forall b x, b ∉ ns.*1 -> h !! b = Some x -> h' !! b = Some x.

(** The nodes of [ns'] are nodes of [ns] or were not allocated in [h]. *)
Definition fresh_nodes (ns ns' : list node) (h : gmap addr priority_queue_item) : Prop :=
  forall b, b ∈ ns'.*1 -> b ∈ ns.*1 \/ h !! b = None.

(** ** Running the monad *)

Definition set_heap (h : gmap addr priority_queue_item) (st : state) : state :=
  mk_state h (alloc_plan st) (calls st).

(** Whether the next [malloc] succeeds. *)
Definition allocates (st : state) : bool :=
  grants (alloc_plan st) && has_room (heap st).

(** The state after a [malloc] that failed. *)
Definition refused (st : state) : state :=
  mk_state (heap st) (tail (alloc_plan st)) (calls st).

(** The state after a [malloc] that returned [a], once the node is
    initialised. *)
Definition allocated (a : addr) (it : priority_queue_item) (st : state) : state :=
  mk_state (<[a := it]> (heap st)) (tail (alloc_plan st)) (calls st).

(** ** Releasing nodes *)

(** The heap after the nodes [ns] were freed, first node first. *)
Definition release (ns : list node) (h : gmap addr priority_queue_item)
  : gmap addr priority_queue_item :=
  foldl (fun h n => delete n.1 h) h ns.

(** ** Validation *)

(** What [processes_are_valid] answers on the queued processes [l]. *)
Fixpoint classify (l : list process_type) (p : process_type) : push_result :=
  match l with
  | [] => push_success
  | x :: r =>
      if same_identity (callback p) (context p) x then
        if same_schedule x p then push_duplicate else push_inconsistent
      else classify r p
  end.

(** ** Insertion *)

(** Where [push_to_queue] links a new node: before the first node it
    outranks, after the last node when it outranks none. *)
Fixpoint insert_sorted (n : node) (ns : list node) : list node :=
  match ns with
  | [] => [n]
  | m :: r =>
      if process_evaluation n.2 m.2 then n :: m :: r else m :: insert_sorted n r
  end.

(** ** Order and identities of the queued processes *)

(** [insert_sorted] on the processes alone. *)
Fixpoint insert_process (p : process_type) (l : list process_type) : list process_type :=
  match l with
  | [] => [p]
  | x :: r => if process_evaluation p x then p :: x :: r else x :: insert_process p r
  end.

(** ** Selection *)

(** What [pop_top] writes to a variable of the caller. *)
Definition written_to (out : out_ptr) (p : process_type) : option process_type :=
  match out with
  | OutVar => Some p
  | _ => None
  end.

(** ** Running the top process *)

(** The state after a callback was invoked. *)
Definition called (ev : call_event) (st : state) : state :=
  mk_state (heap st) (alloc_plan st) (calls st ++ [ev]).

(** The remaining time [run_top] writes back when the callback returned
    [v]: computed in [unsigned int]. *)
Definition requeued_time (rt run_time v : Z) : Z :=
  if run_time <? rt then wrap_uint (rt - run_time + v) else v.

(** ** Copying *)

(** The heap [h] extends [h0] by the nodes [cs] only. *)
Record extends (h0 h : gmap addr priority_queue_item) (cs : list node) : Prop := mk_extends {
  ext_fresh : forall b, b ∈ cs.*1 -> h0 !! b = None;
  ext_keeps : forall b x, h0 !! b = Some x -> h !! b = Some x;
  ext_only : forall b, h0 !! b = None -> b ∈ cs.*1 \/ h !! b = None
}.

(** Whether the allocator serves the [n] requests of a copy when [used]
    nodes are allocated already. *)
Fixpoint copy_succeeds (n : nat) (plan : list bool) (used : nat) : bool :=
  match n with
  | O => true
  | S k =>
      grants plan && bool_decide (Z.of_nat used + 1 < SIZE_MOD) &&
      copy_succeeds k (tail plan) (S used)
  end.

(** ** Queues side by side *)

(** Two chains share no node. *)
Definition disjoint (ns ms : list node) : Prop :=
  forall b, b ∈ ns.*1 -> b ∉ ms.*1.

(** ** A queue to compute on *)

(** Two processes with different CPU masks: [demo_b] (score 200) is
    queued before [demo_a] (score 1000). *)
Definition demo_a : process_type := mk_process 1 0 10 100 1.
Definition demo_b : process_type := mk_process 2 0 20 10 2.

Definition demo_heap : gmap addr priority_queue_item :=
  <[1%positive := mk_item demo_a None (Some 2%positive)]>
    (<[2%positive := mk_item demo_b (Some 1%positive) None]> ∅).

Definition demo_queue : priority_queue :=
  mk_queue (Some 2%positive) (Some 1%positive) 2.

Definition demo_state : state := mk_state demo_heap [] [].

Definition demo_nodes : list node := [(2%positive, demo_b); (1%positive, demo_a)].

(** ** C2: the comparator *)

(** Two processes whose fields are in range; the score of the first one,
    4294967300, does not fit 32 bits. *)
Definition overflow_a : process_type := mk_process 1 0 10 429496730 1.
Definition overflow_b : process_type := mk_process 2 0 10 1 1.

(** ** C4: the remaining time after a non-zero return *)

(** A queue with one process whose remaining time is the largest
    [unsigned int]. *)
Definition long_process : process_type := mk_process 1 0 10 4294967295 1.

Definition long_state : state :=
  mk_state (<[1%positive := mk_item long_process None None]> ∅) [] [].

Definition long_queue : priority_queue :=
  mk_queue (Some 1%positive) (Some 1%positive) 1.

(** ** C7: renice *)

(** The demonstration queue with an allocator that refuses the next
    request. *)
Definition refusing_state : state := mk_state demo_heap [false] [].

(** ** C8: renicing to a lower niceness *)

(** Two processes with remaining time 0: both have score 0 whatever
    their niceness. *)
Definition tie_a : process_type := mk_process 1 0 20 0 1.
Definition tie_b : process_type := mk_process 2 0 20 0 2.

Definition tie_state : state :=
  mk_state (<[2%positive := mk_item tie_b None (Some 1%positive)]>
              (<[1%positive := mk_item tie_a (Some 2%positive) None]> ∅)) [] [].

Definition tie_queue : priority_queue :=
  mk_queue (Some 1%positive) (Some 2%positive) 2.

(** The position of the entry with the identity [(cb, ctx)]. *)
Definition position (cb ctx : Z) (l : list process_type) : option nat :=
  fst <$> list_find (fun x => identity x = (cb, ctx)) l.

(** ** One operation on one queue *)

(** What every operation on a queue with the nodes [ns] establishes: the
    queue it returns satisfies the invariant, allocated cells outside
    [ns] are untouched, and the nodes of the new chain are old nodes of
    this queue or newly allocated ones. *)
Definition step_result (ns : list node) (st : state) (q' : priority_queue)
  (st' : state) : Prop :=
  exists ns', is_queue (heap st') q' ns' /\ contents_ok ns'.*2 /\
    preserves ns (heap st) (heap st') /\ fresh_nodes ns ns' (heap st).

(** ** Sequences of operations *)

(** A call that mutates a queue. *)
Inductive mutation :=
  | MPush (p : process_type)
  | MPop (mask : Z) (to_variable : bool)
  | MRenice (cb ctx nice : Z)
  | MRun (bh : Z -> Z -> Z -> Z) (mask run_time : Z)
  | MClear.

Definition mutate (m : mutation) (q : priority_queue) : M priority_queue :=
  match m with
  | MPush p => let* (_, q') := push_to_queue q p in ret q'
  | MPop mask to_variable =>
      let* (_, _, q') := pop_top q mask (if to_variable then OutVar else OutNull) in
      ret q'
  | MRenice cb ctx nice => let* (_, q') := renice q cb ctx nice in ret q'
  | MRun bh mask run_time => let* (_, q') := run_top bh q mask run_time in ret q'
  | MClear => clear_queue q
  end.

(** The assertions of the call hold. *)
Definition asserted (m : mutation) : Prop :=
  match m with
  | MPush p => 10 <= niceness p <= 49
  | MRenice _ _ nice => 10 <= nice <= 49
  | _ => True
  end.

Fixpoint mutate_all (ms : list mutation) (q : priority_queue) : M priority_queue :=
  match ms with
  | [] => ret q
  | m :: r => let* q' := mutate m q in mutate_all r q'
  end.

(** ** C8: a witness *)

(** Two processes of scores 300 and 400; at niceness 20 the second one
    has score 200. *)
Definition climb_a : process_type := mk_process 1 0 30 10 1.
Definition climb_b : process_type := mk_process 2 0 40 10 1.

Definition climb_state : state :=
  mk_state (<[2%positive := mk_item climb_b None (Some 1%positive)]>
              (<[1%positive := mk_item climb_a (Some 2%positive) None]> ∅)) [] [].

Definition climb_queue : priority_queue :=
  mk_queue (Some 1%positive) (Some 2%positive) 2.

(** ** Reachable states *)

(** A program that uses the scheduler: its memory and the queue structs
    it holds. *)
Record program := mk_program {
  memory : state;
  queues : list priority_queue
}.

(** The calls of the public interface, on the queues by their index. *)
Inductive call :=
  | CCreate
  | CMutate (i : nat) (m : mutation)
  | CCopy (dest source : nat).

Definition perform (c : call) (s : program) : result program :=
  match c with
  | CCreate => Ok (mk_program (memory s) (queues s ++ [create_queue]))
  | CMutate i m =>
      match queues s !! i with
      | Some q =>
          match mutate m q (memory s) with
          | Ok (q', st') => Ok (mk_program st' (<[i := q']> (queues s)))
          | Err f => Err f
          end
      | None => Err InvalidPointer
      end
  | CCopy dest source =>
      match queues s !! dest, queues s !! source with
      | Some dq, Some sq =>
          match copy_queue dq sq (memory s) with
          | Ok ((_, dq'), st') => Ok (mk_program st' (<[dest := dq']> (queues s)))
          | Err f => Err f
          end
      | _, _ => Err InvalidPointer
      end
  end.

(** The queue indices of a call exist and its assertions hold. *)
Definition permitted (s : program) (c : call) : Prop :=
  match c with
  | CCreate => True
  | CMutate i m => (i < length (queues s))%nat /\ asserted m
  | CCopy dest source =>
      (dest < length (queues s))%nat /\ (source < length (queues s))%nat
  end.

(** The states a program reaches from an empty memory, whatever the
    allocator answers. *)
Inductive reachable : program -> Prop :=
  | reach_start plan : reachable (mk_program (mk_state ∅ plan []) [])
  | reach_call s c s' :
      reachable s -> permitted s c -> perform c s = Ok s' -> reachable s'.

(** Every queue heads its own chain, and the chains share no node. *)
Definition program_inv (s : program) : Prop :=
  Z.of_nat (base.size (heap (memory s))) < SIZE_MOD /\
  exists nss : list (list node),
    length nss = length (queues s) /\
    (forall i q ns, queues s !! i = Some q -> nss !! i = Some ns ->
       is_queue (heap (memory s)) q ns /\ contents_ok ns.*2) /\
    (forall i j ns ms, i <> j -> nss !! i = Some ns -> nss !! j = Some ms ->
       disjoint ns ms).

(** ** Memory accounting *)

(** Outside the chain [ns'] the heap [h'] has freed the nodes of [ns]
    and is [h] everywhere else: no node was dropped without being freed
    and no cell was allocated without being linked. *)
Definition releases (ns ns' : list node) (h h' : gmap addr priority_queue_item) : Prop :=
  forall b, b ∉ ns'.*1 -> h' !! b = if decide (b ∈ ns.*1) then None else h !! b.

(** What an operation on a queue with the nodes [ns] does to the memory:
    the queue it returns satisfies the invariant, its nodes are old
    nodes of this queue or newly allocated ones, and the rest of the
    heap is accounted for. *)
Definition exact_step (ns : list node) (st : state) (q' : priority_queue)
  (st' : state) : Prop :=
  exists ns', is_queue (heap st') q' ns' /\ contents_ok ns'.*2 /\
    fresh_nodes ns ns' (heap st) /\ releases ns ns' (heap st) (heap st').

(** The callbacks an operation may have invoked: none, or for [run_top]
    at most the callback of one queued process, with the quantum and
    that process's context. *)
Definition calls_allowed (m : mutation) (l : list process_type) (before after : list call_event)
  : Prop :=
  match m with
  | MRun _ _ run_time =>
      after = before \/
      exists p, p ∈ l /\ after = before ++ [mk_call (callback p) run_time (context p)]
  | _ => after = before
  end.

(** * Lemmas and theorems *)

(** ** The comparator *)

Lemma set_bits_zero n : set_bits n 0 = 0.
Proof.
  induction n as [|n IH]; [reflexivity|].
  cbn [set_bits]. rewrite IH, Z.bits_0. reflexivity.
Qed.

Lemma set_bits_shift n mask :
  set_bits (S n) mask =
  (if Z.testbit mask 0 then 1 else 0) + set_bits n (Z.shiftr mask 1).
Proof.
  induction n as [|n IH].
  - cbn [set_bits]. change (Z.of_nat 0) with 0.
    destruct (Z.testbit mask 0); lia.
  - change (set_bits (S (S n)) mask)
      with (set_bits (S n) mask + (if Z.testbit mask (Z.of_nat (S n)) then 1 else 0)).
    rewrite IH. cbn [set_bits].
    rewrite Z.shiftr_spec by lia.
    replace (Z.of_nat n + 1) with (Z.of_nat (S n)) by lia. lia.
Qed.

Lemma land_one mask : Z.land mask 1 = if Z.testbit mask 0 then 1 else 0.
Proof.
  change 1 with (Z.ones 1) at 1. rewrite Z.land_ones by lia.
  change (2 ^ 1) with 2. rewrite Zmod_odd, Z.bit0_odd. reflexivity.
Qed.

Lemma cpu_count_loop_set_bits n mask count :
  0 <= mask < 2 ^ Z.of_nat n ->
  cpu_count_loop n mask count = count + set_bits n mask.
Proof.
  revert mask count. induction n as [|n IH]; intros mask count Hm.
  - cbn. lia.
  - cbn [cpu_count_loop]. destruct (Z.ltb_spec 0 mask) as [Hpos|Hzero].
    + rewrite IH.
      * rewrite set_bits_shift, land_one.
        destruct (Z.testbit mask 0); cbn; lia.
      * rewrite Z.shiftr_div_pow2 by lia. change (2 ^ 1) with 2.
        replace (2 ^ Z.of_nat (S n)) with (2 * 2 ^ Z.of_nat n) in Hm
          by (rewrite Nat2Z.inj_succ, Z.pow_succ_r; lia).
        split; [apply Z.div_pos; lia|].
        apply Z.div_lt_upper_bound; lia.
    + replace mask with 0 by lia. rewrite set_bits_zero. lia.
Qed.

(** [cpu_count] returns the number of set bits of every [uint16_t]. *)
Lemma cpu_count_popcount mask :
  0 <= mask <= CPU_MASK_MAX -> cpu_count mask = popcount mask.
Proof.
  intros Hm. unfold cpu_count, popcount.
  rewrite cpu_count_loop_set_bits; [lia|].
  unfold CPU_MASK_MAX in Hm. change (2 ^ Z.of_nat 16) with 65536. lia.
Qed.

(** What [process_evaluation] decides, in the code's own arithmetic. *)
Lemma process_evaluation_true a b :
  process_evaluation a b = true <-> code_outranks a b.
Proof.
  unfold process_evaluation, code_outranks, wrapped_score.
  destruct (Z.eqb_spec (wrap_uint (niceness a * remaining_time a))
              (wrap_uint (niceness b * remaining_time b))) as [He|Hne].
  - destruct (Z.ltb_spec (cpu_count (cpu_mask a)) (cpu_count (cpu_mask b)));
      split; intros; try lia; try discriminate; auto.
  - destruct (Z.ltb_spec (wrap_uint (niceness a * remaining_time a))
                (wrap_uint (niceness b * remaining_time b)));
      split; intros; try lia; try discriminate; auto.
Qed.

Lemma process_evaluation_false a b :
  process_evaluation a b = false <->
  wrapped_score b < wrapped_score a \/
  (wrapped_score a = wrapped_score b /\
   cpu_count (cpu_mask b) <= cpu_count (cpu_mask a)).
Proof.
  rewrite <- not_true_iff_false, process_evaluation_true.
  unfold code_outranks. lia.
Qed.

(** Turns comparator facts into linear arithmetic over the keys. *)
Ltac order_facts :=
  repeat match goal with
  | H : process_evaluation _ _ = true |- _ => apply process_evaluation_true in H; unfold code_outranks in H
  | H : process_evaluation _ _ = false |- _ => apply process_evaluation_false in H
  | |- process_evaluation _ _ = true => apply process_evaluation_true; unfold code_outranks
  | |- process_evaluation _ _ = false => apply process_evaluation_false
  end.

(** Without overflow of the products the code's order is the order of
    the specification. *)
Lemma process_evaluation_outranks a b :
  process_in_range a -> process_in_range b ->
  score a < UINT_MOD -> score b < UINT_MOD ->
  (process_evaluation a b = true <-> outranks a b).
Proof.
  intros (Hna & Hra & Hma) (Hnb & Hrb & Hmb) Hsa Hsb.
  rewrite process_evaluation_true. unfold code_outranks, outranks, wrapped_score, wrap_uint.
  unfold score in *.
  rewrite !Z.mod_small by nia.
  rewrite !cpu_count_popcount by assumption. reflexivity.
Qed.

(** ** The chain of nodes *)

Section chain.
Implicit Types (h : gmap addr priority_queue_item) (ns : list node).

Lemma hd_ptr_app ns1 ns2 d : hd_ptr (ns1 ++ ns2) d = hd_ptr ns1 (hd_ptr ns2 d).
Proof. destruct ns1; reflexivity. Qed.

Lemma last_ptr_app ns1 ns2 d : last_ptr (ns1 ++ ns2) d = last_ptr ns2 (last_ptr ns1 d).
Proof. revert d. induction ns1 as [|n r IH]; intros d; cbn; auto. Qed.

Lemma last_ptr_elem ns d a : last_ptr ns d = Some a -> d = Some a \/ a ∈ ns.*1.
Proof.
  revert d. induction ns as [|n r IH]; intros d; cbn; [auto|].
  intros H. apply IH in H as [H|H]; right.
  - injection H as <-. apply elem_of_cons; auto.
  - apply elem_of_cons; auto.
Qed.

Lemma dlseg_app h prv ns1 ns2 nxt :
  dlseg h prv (ns1 ++ ns2) nxt <->
  dlseg h prv ns1 (hd_ptr ns2 nxt) /\ dlseg h (last_ptr ns1 prv) ns2 nxt.
Proof.
  revert prv. induction ns1 as [|n r IH]; intros prv; cbn [app dlseg last_ptr].
  - tauto.
  - rewrite IH, hd_ptr_app. tauto.
Qed.

Lemma dlseg_lookup h prv ns nxt a p :
  dlseg h prv ns nxt -> (a, p) ∈ ns ->
  exists n pv, h !! a = Some (mk_item p n pv).
Proof.
  revert prv. induction ns as [|n r IH]; intros prv Hseg Hin.
  - inversion Hin.
  - destruct Hseg as [Hn Hr]. apply elem_of_cons in Hin as [<-|Hin]; eauto.
Qed.

Lemma dlseg_allocated h prv ns nxt a :
  dlseg h prv ns nxt -> a ∈ ns.*1 -> is_Some (h !! a).
Proof.
  intros Hseg Hin. apply list_elem_of_fmap_1 in Hin as ([b p] & -> & Hin).
  destruct (dlseg_lookup _ _ _ _ _ _ Hseg Hin) as (n & pv & H). eauto.
Qed.

(** A chain only depends on the cells of its own nodes. *)
Lemma dlseg_frame h h' prv ns nxt :
  dlseg h prv ns nxt ->
  (forall a, a ∈ ns.*1 -> h' !! a = h !! a) ->
  dlseg h' prv ns nxt.
Proof.
  revert prv. induction ns as [|n r IH]; intros prv Hseg Hsame; [exact I|].
  destruct Hseg as [Hn Hr]. split.
  - rewrite Hsame; [exact Hn|]. apply elem_of_cons. auto.
  - apply IH; [exact Hr|]. intros a Ha. apply Hsame, elem_of_cons. auto.
Qed.

Lemma dlseg_preserved h h' ms prv ns nxt :
  dlseg h prv ns nxt -> preserves ms h h' ->
  (forall a, a ∈ ns.*1 -> a ∉ ms.*1) ->
  dlseg h' prv ns nxt.
Proof.
  intros Hseg Hpres Hdisj. apply (dlseg_frame h); [exact Hseg|].
  intros a Ha. destruct (dlseg_allocated _ _ _ _ _ Hseg Ha) as [x Hx].
  rewrite Hx. apply Hpres; auto.
Qed.

(** A chain without repeated nodes is no longer than the heap is large:
    the fuel of [chain_fuel] lets every walk reach the end. *)
Lemma dlseg_length h prv ns nxt :
  dlseg h prv ns nxt -> NoDup ns.*1 -> (length ns <= base.size h)%nat.
Proof.
  intros Hseg Hnd.
  rewrite <- (length_fmap fst ns), <- length_map_to_list,
    <- (length_fmap fst (map_to_list h)).
  apply submseteq_length, NoDup_submseteq; [exact Hnd|].
  intros a Ha. destruct (dlseg_allocated _ _ _ _ _ Hseg Ha) as [x Hx].
  apply (list_elem_of_fmap_2' fst _ (a, x)); [|reflexivity].
  apply elem_of_map_to_list. exact Hx.
Qed.

(** Changing the [prev] link of the first node. *)
Lemma dlseg_set_prev h prv prv' n ns nxt :
  dlseg h prv (n :: ns) nxt -> n.1 ∉ ns.*1 ->
  dlseg (<[n.1 := mk_item n.2 (hd_ptr ns nxt) prv']> h) prv' (n :: ns) nxt.
Proof.
  intros [Hn Hr] Hnotin. split.
  - apply lookup_insert_eq.
  - apply (dlseg_frame h); [exact Hr|].
    intros a Ha. apply lookup_insert_ne. intros <-. auto.
Qed.

End chain.

(** ** Running the monad *)

Section monad.
Context {A B : Type}.
Implicit Types (k : A -> M B) (st : state).

Lemma bind_Ok (m : M A) k st x st' :
  m st = Ok (x, st') -> bind m k st = k x st'.
Proof. unfold bind. intros ->. reflexivity. Qed.

Lemma bind_ret (x : A) k st : bind (ret x) k st = k x st.
Proof. reflexivity. Qed.
End monad.

Lemma bind_load {B} a (k : priority_queue_item -> M B) st it :
  heap st !! a = Some it -> bind (load a) k st = k it st.
Proof. intros H. unfold bind, load. rewrite H. reflexivity. Qed.

Lemma bind_store {B} a f (k : unit -> M B) st it :
  heap st !! a = Some it ->
  bind (store a f) k st = k tt (set_heap (<[a := f it]> (heap st)) st).
Proof. intros H. unfold bind, store. rewrite H. reflexivity. Qed.

Lemma bind_free {B} a (k : unit -> M B) st it :
  heap st !! a = Some it ->
  bind (free a) k st = k tt (set_heap (delete a (heap st)) st).
Proof. intros H. unfold bind, free. rewrite H. reflexivity. Qed.

Lemma bind_chain_fuel {B} (k : nat -> M B) st :
  bind chain_fuel k st = k (base.size (heap st)) st.
Proof. reflexivity. Qed.

Lemma bind_assoc {A B C} (m : M A) (k : A -> M B) (k' : B -> M C) st :
  bind (bind m k) k' st = bind m (fun x => bind (k x) k') st.
Proof. unfold bind. destruct (m st) as [[x st']|]; reflexivity. Qed.

(** ** Walking the chain *)

Section walk.
Context {R : Type}.
Implicit Types (body : addr -> M (option R)) (ns : list node).

(** Nodes on which the body falls through are skipped. *)
Lemma for_items_skip body st prv ns1 ns2 nxt fuel :
  dlseg (heap st) prv (ns1 ++ ns2) nxt ->
  (forall n, n ∈ ns1 -> body n.1 st = Ok (None, st)) ->
  for_items (length ns1 + fuel) (hd_ptr (ns1 ++ ns2) nxt) body st =
  for_items fuel (hd_ptr ns2 nxt) body st.
Proof.
  revert prv. induction ns1 as [|n r IH]; intros prv Hseg Hskip; [reflexivity|].
  destruct Hseg as [Hn Hr]. cbn [app hd_ptr length Nat.add for_items].
  rewrite (bind_Ok _ _ _ None st) by (apply Hskip, elem_of_cons; auto).
  rewrite (bind_load _ _ _ _ Hn). cbn [next].
  apply (IH (Some n.1)); [exact Hr|].
  intros m Hm. apply Hskip, elem_of_cons. auto.
Qed.

(** The body returns at the first node on which it does not fall
    through. *)
Lemma for_items_return body st st' prv ns1 n ns2 nxt fuel x :
  dlseg (heap st) prv (ns1 ++ n :: ns2) nxt ->
  (forall m, m ∈ ns1 -> body m.1 st = Ok (None, st)) ->
  (length ns1 < fuel)%nat ->
  body n.1 st = Ok (Some x, st') ->
  for_items fuel (hd_ptr (ns1 ++ n :: ns2) nxt) body st = Ok (Some x, st').
Proof.
  intros Hseg Hskip Hfuel Hbody.
  replace fuel with (length ns1 + S (fuel - length ns1 - 1))%nat by lia.
  rewrite (for_items_skip _ _ _ _ _ _ _ Hseg Hskip).
  cbn [hd_ptr for_items]. rewrite (bind_Ok _ _ _ _ _ Hbody). reflexivity.
Qed.

(** The walk ends when the body fell through on every node. *)
Lemma for_items_end body st prv ns fuel :
  dlseg (heap st) prv ns None ->
  (forall m, m ∈ ns -> body m.1 st = Ok (None, st)) ->
  (length ns <= fuel)%nat ->
  for_items fuel (hd_ptr ns None) body st = Ok (None, st).
Proof.
  intros Hseg Hskip Hfuel.
  replace fuel with (length ns + (fuel - length ns))%nat by lia.
  pose proof (for_items_skip body st prv ns [] None (fuel - length ns)) as Hwalk.
  rewrite app_nil_r in Hwalk. rewrite (Hwalk Hseg Hskip).
  destruct (fuel - length ns)%nat; reflexivity.
Qed.
End walk.

(** ** Releasing nodes *)

Lemma release_cons n ns h : release (n :: ns) h = release ns (delete n.1 h).
Proof. reflexivity. Qed.

Lemma release_lookup_notin ns h b :
  b ∉ ns.*1 -> release ns h !! b = h !! b.
Proof.
  revert h. induction ns as [|n r IH]; intros h Hb; [reflexivity|].
  rewrite fmap_cons in Hb. apply not_elem_of_cons in Hb as [Hne Hb].
  rewrite release_cons, IH by exact Hb.
  apply lookup_delete_ne. congruence.
Qed.

Lemma release_lookup_in ns h b :
  b ∈ ns.*1 -> release ns h !! b = None.
Proof.
  revert h. induction ns as [|n r IH]; intros h Hb; [inversion Hb|].
  rewrite fmap_cons in Hb. rewrite release_cons.
  destruct (decide (b ∈ r.*1)) as [Hin|Hnotin].
  - apply IH, Hin.
  - apply elem_of_cons in Hb as [->|Hb]; [|contradiction].
    rewrite release_lookup_notin by exact Hnotin.
    apply lookup_delete_eq.
Qed.

Lemma clear_loop_spec ns : forall fuel st prv,
  dlseg (heap st) prv ns None -> NoDup ns.*1 -> (length ns <= fuel)%nat ->
  clear_loop fuel (hd_ptr ns None) st = Ok (tt, set_heap (release ns (heap st)) st).
Proof.
  induction ns as [|n r IH]; intros fuel st prv Hseg Hnd Hfuel.
  - destruct st, fuel; reflexivity.
  - destruct fuel as [|fuel]; [cbn in Hfuel; lia|].
    destruct Hseg as [Hn Hr]. cbn in Hnd. apply NoDup_cons in Hnd as [Hnotin Hnd].
    cbn [hd_ptr clear_loop]. rewrite (bind_load _ _ _ _ Hn).
    rewrite (bind_free _ _ _ _ Hn). cbn [next].
    rewrite (IH fuel _ (Some n.1)); [reflexivity| |exact Hnd|cbn in Hfuel; lia].
    cbn [heap set_heap]. apply (dlseg_frame (heap st)); [exact Hr|].
    intros a Ha. apply lookup_delete_ne. intros <-. auto.
Qed.

Lemma clear_queue_chain q ns st :
  dlseg (heap st) None ns None -> NoDup ns.*1 -> top q = hd_ptr ns None ->
  clear_queue q st = Ok (create_queue, set_heap (release ns (heap st)) st).
Proof.
  intros Hseg Hnd Htop. unfold clear_queue. rewrite bind_chain_fuel, Htop.
  rewrite (bind_Ok _ _ _ tt (set_heap (release ns (heap st)) st)); [reflexivity|].
  apply (clear_loop_spec ns _ _ None); auto. eapply dlseg_length; eauto.
Qed.

(** A heap in which no new cell is allocated does not grow. *)
Lemma no_alloc_size (h h' : gmap addr priority_queue_item) :
  (forall b, h !! b = None -> h' !! b = None) -> (base.size h' <= base.size h)%nat.
Proof.
  intros Hna. rewrite <- !size_dom. apply subseteq_size.
  intros b Hb. apply elem_of_dom in Hb. apply elem_of_dom.
  destruct (h !! b) eqn:E; [eauto|]. rewrite (Hna b E) in Hb. exact Hb.
Qed.

Lemma no_alloc_bound (h h' : gmap addr priority_queue_item) :
  Z.of_nat (base.size h) < SIZE_MOD ->
  (forall b, h !! b = None -> h' !! b = None) ->
  Z.of_nat (base.size h') < SIZE_MOD.
Proof. intros Hb Hna. apply no_alloc_size in Hna. lia. Qed.

(** Freeing a cell makes room. *)
Lemma free_size (h h' : gmap addr priority_queue_item) a x :
  (forall b, h !! b = None -> h' !! b = None) ->
  h !! a = Some x -> h' !! a = None ->
  (base.size h' < base.size h)%nat.
Proof.
  intros Hna Ha Ha'. rewrite <- !size_dom. apply subset_size.
  split.
  - intros b Hb. apply elem_of_dom in Hb. apply elem_of_dom.
    destruct (h !! b) eqn:E; [eauto|]. rewrite (Hna b E) in Hb. exact Hb.
  - intros Hsub. assert (Hin : a ∈ dom h) by (apply elem_of_dom; eauto).
    apply Hsub, elem_of_dom in Hin. rewrite Ha' in Hin. destruct Hin; discriminate.
Qed.

Lemma hd_ptr_elem (ns : list node) d a :
  hd_ptr ns d = Some a -> d = Some a \/ a ∈ ns.*1.
Proof.
  destruct ns as [|n r]; cbn; [auto|].
  intros [= <-]. right. apply elem_of_cons. auto.
Qed.

(** ** Removing a node *)

(** Distinctness of addresses from the membership facts at hand. *)
Ltac mem_split :=
  repeat match goal with
  | H : context [(_ :: _).*1] |- _ => rewrite fmap_cons in H
  | H : context [(_ ++ _).*1] |- _ => rewrite fmap_app in H
  | H : _ ∈ _ :: _ |- _ => apply elem_of_cons in H; destruct H as [H|H]
  | H : _ ∈ _ ++ _ |- _ => apply elem_of_app in H; destruct H as [H|H]
  | H : _ ∉ _ :: _ |- _ => apply not_elem_of_cons in H; destruct H as [? H]
  | H : _ ∉ _ ++ _ |- _ => apply not_elem_of_app in H; destruct H as [? H]
  | H : _ ∈ [] |- _ => inversion H
  | H : _ ∈ [].*1 |- _ => inversion H
  end.

Ltac mem_close := subst; try congruence; try contradiction.

(** Cells that were not allocated stay so under stores and frees. *)
Ltac no_alloc :=
  cbn [heap set_heap allocated];
  repeat first
    [ assumption
    | apply lookup_delete_None; right
    | apply lookup_insert_None; split; [|intros ?; subst; congruence] ].

(** Contradictory membership facts. *)
Ltac mem_contra :=
  subst; try discriminate; simplify_eq; cbn [fst snd] in *; mem_split; mem_close;
  match goal with
  | H : forall x, x ∈ ?l -> _, H' : ?a ∈ ?l |- _ =>
      solve [specialize (H a H'); mem_split; mem_close]
  end.

Ltac neq :=
  let E := fresh in
  intros E; mem_contra.

(** Lookups in a heap that was built by stores and frees. *)
Ltac heap_simpl :=
  cbn [heap set_heap fst snd];
  repeat first
    [ rewrite lookup_delete_eq
    | rewrite lookup_insert_eq
    | rewrite lookup_delete_ne by neq
    | rewrite lookup_insert_ne by neq ].

Lemma wrap_size_small z : 0 <= z < SIZE_MOD -> wrap_size z = z.
Proof. apply Z.mod_small. Qed.

(** The [size] counter of a queue cannot overflow. *)
Lemma is_queue_length h q ns : is_queue h q ns -> Z.of_nat (length ns) < SIZE_MOD.
Proof.
  intros [Hseg Hnd Hheap _ _ _].
  pose proof (dlseg_length _ _ _ _ Hseg Hnd). lia.
Qed.

Lemma pop_item_spec q st ns1 n ns2 :
  is_queue (heap st) q (ns1 ++ n :: ns2) ->
  exists q' h',
    pop_item q n.1 st = Ok (q', set_heap h' st) /\
    is_queue h' q' (ns1 ++ ns2) /\
    preserves (ns1 ++ n :: ns2) (heap st) h' /\
    (forall b, heap st !! b = None -> h' !! b = None) /\
    h' !! n.1 = None.
Proof.
  intros Hq. pose proof (is_queue_length _ _ _ Hq) as Hlen.
  destruct Hq as [Hseg Hnd Hheap Htop Hbot Hsz].
  rewrite length_app in Hlen. cbn [length] in Hlen.
  assert (Hsz' : wrap_size (size q - 1) = Z.of_nat (length (ns1 ++ ns2))).
  { rewrite Hsz, !length_app. cbn [length]. rewrite wrap_size_small; lia. }
  rewrite fmap_app, fmap_cons in Hnd.
  apply NoDup_app in Hnd as (Hnd1 & Hdisj & Hnd2).
  apply NoDup_cons in Hnd2 as [Hn2 Hnd2].
  assert (Hn1 : n.1 ∉ ns1.*1).
  { intros Hin. apply (Hdisj _ Hin), elem_of_cons. auto. }
  assert (Hdisj' : forall x, x ∈ ns1.*1 -> x ∉ ns2.*1).
  { intros x Hx Hx'. apply (Hdisj _ Hx), elem_of_cons. auto. }
  clear Hdisj.
  apply dlseg_app in Hseg as [Hseg1 [Hn Hseg2]].
  rewrite hd_ptr_app in Htop. rewrite last_ptr_app in Hbot.
  cbn [hd_ptr last_ptr] in Htop, Hbot, Hseg1.
  unfold pop_item. cbn [top bottom size set_size set_top set_bottom].
  destruct n as [a pa]. cbn [fst snd] in *.
  destruct ns1 as [|[c pc] r1 _] using rev_ind.
  - (* the item is the top of the queue *)
    cbn [app hd_ptr last_ptr] in *.
    rewrite Htop, bool_decide_eq_true_2 by reflexivity.
    cbn [deref]. rewrite bind_ret, (bind_load _ _ _ _ Hn). cbn [next].
    destruct ns2 as [|m r].
    + (* it is the only node *)
      cbn [hd_ptr]. eexists _, _. split; [|split; [|split; [|split]]].
      * apply (clear_queue_chain _ [(a, pa)]); [split; auto| |exact Htop].
        apply NoDup_singleton.
      * split; [exact I|apply NoDup_nil_2| |reflexivity..].
        apply (no_alloc_bound _ _ Hheap). intros b Hb.
        destruct (decide (b ∈ [(a, pa)].*1)) as [Hin|Hnotin].
        -- apply release_lookup_in, Hin.
        -- rewrite release_lookup_notin; auto.
      * intros b x Hb Hx. rewrite release_lookup_notin; auto.
      * intros b Hb. destruct (decide (b ∈ [(a, pa)].*1)) as [Hin|Hnotin].
        -- apply release_lookup_in, Hin.
        -- rewrite release_lookup_notin; auto.
      * apply release_lookup_in. set_solver.
    + destruct Hseg2 as [Hm Hr]. cbn [hd_ptr].
      destruct m as [b pb]. rewrite fmap_cons in Hn2. cbn [fst snd] in *.
      rewrite (bind_store _ _ _ _ _ Hm).
      erewrite bind_free by (heap_simpl; exact Hn).
      eexists _, _. split; [reflexivity|]. cbn [set_prev process next prev].
      split; [|split; [|split]].
      * split; cbn [top bottom size set_size set_top set_bottom hd_ptr last_ptr]; auto.
        -- apply (dlseg_frame (<[b := mk_item pb (hd_ptr r None) None]> (heap st))).
           ++ apply (dlseg_set_prev _ (Some a) None (b, pb)); [split; auto|].
              apply NoDup_cons in Hnd2. tauto.
           ++ intros c Hc. heap_simpl. reflexivity.
        -- apply (no_alloc_bound _ _ Hheap). intros x Hx. no_alloc.
      * intros c x Hc Hx. heap_simpl. exact Hx.
      * intros c Hc. no_alloc.
      * heap_simpl. reflexivity.
  - (* the item has a predecessor *)
    rewrite last_ptr_app in Hn. cbn [last_ptr fst] in Hn.
    apply dlseg_app in Hseg1 as [Hseg0 [Hc _]].
    cbn [fst snd hd_ptr] in *. rewrite hd_ptr_app in Htop. cbn [hd_ptr fst] in Htop.
    rewrite fmap_app in Hn1, Hdisj', Hnd1.
    rewrite bool_decide_eq_false_2; cycle 1.
    { rewrite Htop. intros E. symmetry in E.
      apply hd_ptr_elem in E as [E|E]; mem_contra. }
    pose proof Hnd1 as Hnd1'. apply NoDup_app in Hnd1' as (Hnd0 & Hc1 & _).
    assert (Hc2 : c ∉ ns2.*1).
    { apply Hdisj', elem_of_app. right. apply elem_of_cons. auto. }
    assert (Hdisj0 : forall x, x ∈ r1.*1 -> x ∉ ns2.*1).
    { intros x Hx. apply Hdisj', elem_of_app. auto. }
    destruct ns2 as [|[b pb] r2].
    + (* the item is the bottom of the queue *)
      cbn [hd_ptr last_ptr] in *.
      rewrite Hbot, bool_decide_eq_true_2 by reflexivity.
      cbn [deref]. rewrite bind_ret, (bind_load _ _ _ _ Hn). cbn [prev deref].
      rewrite bind_ret, (bind_store _ _ _ _ _ Hc).
      erewrite bind_free by (heap_simpl; exact Hn).
      eexists _, _. split; [reflexivity|]. cbn [set_next process next prev].
      rewrite app_nil_r. split; [|split; [|split]].
      * split; cbn [top bottom size set_size set_top set_bottom]; auto.
        -- apply dlseg_app. split; [|split; [|exact I]].
           ++ apply (dlseg_frame _ _ _ _ _ Hseg0). intros x Hx. heap_simpl. reflexivity.
           ++ heap_simpl. reflexivity.
        -- rewrite fmap_app. exact Hnd1.
        -- apply (no_alloc_bound _ _ Hheap). intros x Hx. no_alloc.
        -- rewrite hd_ptr_app. exact Htop.
        -- rewrite last_ptr_app. reflexivity.
        -- rewrite app_nil_r in Hsz'. exact Hsz'.
      * intros x y Hx Hy. rewrite fmap_app in Hx. heap_simpl. exact Hy.
      * intros x Hx. no_alloc.
      * heap_simpl. reflexivity.
    + (* the item is between two nodes *)
      destruct Hseg2 as [Hb Hseg2]. cbn [fst snd hd_ptr last_ptr] in *.
      rewrite fmap_cons in *. cbn [fst] in *.
      pose proof (proj1 (proj1 (NoDup_cons _ _) Hnd2)) as Hbr2.
      rewrite bool_decide_eq_false_2; cycle 1.
      { rewrite Hbot. intros E. symmetry in E.
        apply last_ptr_elem in E as [E|E]; mem_contra. }
      rewrite (bind_load _ _ _ _ Hn). cbn [prev next deref].
      rewrite bind_ret, (bind_store _ _ _ _ _ Hb).
      erewrite bind_load by (heap_simpl; exact Hn). cbn [prev next deref].
      rewrite bind_ret. erewrite bind_store by (heap_simpl; exact Hc).
      erewrite bind_free by (heap_simpl; exact Hn).
      eexists _, _. split; [reflexivity|]. cbn [set_next set_prev process next prev].
      split; [|split; [|split]].
      * split; cbn [top bottom size set_size set_top set_bottom]; auto.
        -- rewrite <- app_assoc. apply dlseg_app. split; [|split; [|split]].
           ++ apply (dlseg_frame _ _ _ _ _ Hseg0). intros x Hx. heap_simpl. reflexivity.
           ++ heap_simpl. reflexivity.
           ++ heap_simpl. cbn [last_ptr]. reflexivity.
           ++ apply (dlseg_frame _ _ _ _ _ Hseg2). intros x Hx. heap_simpl. reflexivity.
        -- rewrite !fmap_app, fmap_cons. apply NoDup_app. split; [exact Hnd1|].
           split; [|exact Hnd2]. intros x Hx. apply Hdisj', Hx.
        -- apply (no_alloc_bound _ _ Hheap). intros x Hx. no_alloc.
        -- rewrite !hd_ptr_app. cbn [hd_ptr]. exact Htop.
        -- rewrite !last_ptr_app. exact Hbot.
      * intros x y Hx Hy. rewrite !fmap_app, !fmap_cons in Hx. heap_simpl. exact Hy.
      * intros x Hx. no_alloc.
      * heap_simpl. reflexivity.
Qed.

(** ** Allocating a node *)

Lemma create_item_fails p nxt prv st :
  allocates st = false ->
  create_item p nxt prv st = Ok (None, refused st).
Proof.
  intros Hno. unfold create_item, bind, malloc. fold (allocates st).
  rewrite Hno. reflexivity.
Qed.

Lemma create_item_succeeds p nxt prv st :
  allocates st = true ->
  exists a, heap st !! a = None /\
    create_item p nxt prv st = Ok (Some a, allocated a (mk_item p nxt prv) st).
Proof.
  intros Hyes. exists (fresh (dom (heap st))). split.
  - apply not_elem_of_dom, is_fresh.
  - unfold create_item, bind, malloc. fold (allocates st). rewrite Hyes.
    unfold store. cbn [heap]. rewrite lookup_insert_eq. cbn [alloc_plan calls].
    unfold allocated. rewrite insert_insert_eq. reflexivity.
Qed.

Lemma allocates_room st :
  allocates st = true -> Z.of_nat (base.size (heap st)) + 1 < SIZE_MOD.
Proof.
  unfold allocates, has_room. intros H. apply andb_true_iff in H as [_ H].
  apply bool_decide_eq_true in H. exact H.
Qed.

(** ** Validation *)

(** A list of nodes splits at the first node whose process satisfies [f]. *)
Lemma split_first (f : process_type -> bool) (ns : list node) :
  (forall m, m ∈ ns -> f m.2 = false) \/
  (exists ns1 n ns2, ns = ns1 ++ n :: ns2 /\
     (forall m, m ∈ ns1 -> f m.2 = false) /\ f n.2 = true).
Proof.
  induction ns as [|n r IH].
  - left. intros m Hm. inversion Hm.
  - destruct (f n.2) eqn:Hn.
    + right. exists [], n, r. split; [reflexivity|]. split; [|exact Hn].
      intros m Hm. inversion Hm.
    + destruct IH as [IH|(ns1 & m & ns2 & -> & Hskip & Hm)].
      * left. intros m Hm. apply elem_of_cons in Hm as [->|Hm]; auto.
      * right. exists (n :: ns1), m, ns2. split; [reflexivity|]. split; [|exact Hm].
        intros k Hk. apply elem_of_cons in Hk as [->|Hk]; auto.
Qed.

Lemma classify_skip (l1 l2 : list process_type) p :
  (forall x, x ∈ l1 -> same_identity (callback p) (context p) x = false) ->
  classify (l1 ++ l2) p = classify l2 p.
Proof.
  induction l1 as [|x r IH]; intros Hskip; [reflexivity|].
  cbn. rewrite Hskip by (apply elem_of_cons; auto).
  apply IH. intros y Hy. apply Hskip, elem_of_cons. auto.
Qed.

Lemma processes_are_valid_spec q p st ns :
  is_queue (heap st) q ns ->
  processes_are_valid q p st = Ok (classify ns.*2 p, st).
Proof.
  intros [Hseg Hnd Hheap Htop _ _].
  pose proof (dlseg_length _ _ _ _ Hseg Hnd) as Hlen.
  unfold processes_are_valid. rewrite bind_chain_fuel, Htop.
  destruct (split_first (same_identity (callback p) (context p)) ns)
    as [Hnone|(ns1 & [a pa] & ns2 & -> & Hskip & Hhit)].
  - erewrite bind_Ok; cycle 1.
    { apply (for_items_end _ _ None); [exact Hseg| |exact Hlen].
      intros [a pa] Hm. destruct (dlseg_lookup _ _ _ _ _ _ Hseg Hm) as (nx & pv & Hcell).
      rewrite (bind_load _ _ _ _ Hcell). cbn [process fst].
      pose proof (Hnone _ Hm) as E. cbn [snd] in E. rewrite E. reflexivity. }
    cbn. rewrite <- (app_nil_r ns.*2), classify_skip; [reflexivity|].
    intros x Hx. apply list_elem_of_fmap_1 in Hx as (m & -> & Hm). auto.
  - pose proof Hseg as Hseg'. apply dlseg_app in Hseg' as [_ [Hcell _]].
    cbn [fst snd] in *.
    erewrite bind_Ok; cycle 1.
    { apply (for_items_return _ st st None ns1 (a, pa) ns2 None _
               (if same_schedule pa p then push_duplicate else push_inconsistent));
        [exact Hseg| | |].
      - intros [b pb] Hm.
        destruct (dlseg_lookup _ _ _ _ b pb Hseg) as (nx & pv & Hc).
        { apply elem_of_app. auto. }
        rewrite (bind_load _ _ _ _ Hc). cbn [process fst].
        pose proof (Hskip _ Hm) as E. cbn [snd] in E. rewrite E. reflexivity.
      - rewrite length_app in Hlen. cbn in Hlen. lia.
      - cbn [fst]. rewrite (bind_load _ _ _ _ Hcell). cbn [process].
        rewrite Hhit. destruct (same_schedule pa p); reflexivity. }
    cbn. rewrite fmap_app, classify_skip.
    + cbn. rewrite Hhit. reflexivity.
    + intros x Hx. apply list_elem_of_fmap_1 in Hx as (m & -> & Hm). auto.
Qed.

(** ** Insertion *)

Lemma insert_sorted_hit n ns1 m ns2 :
  (forall k, k ∈ ns1 -> process_evaluation n.2 k.2 = false) ->
  process_evaluation n.2 m.2 = true ->
  insert_sorted n (ns1 ++ m :: ns2) = ns1 ++ n :: m :: ns2.
Proof.
  intros Hskip Hhit. induction ns1 as [|k r IH]; cbn.
  - rewrite Hhit. reflexivity.
  - rewrite Hskip by (apply elem_of_cons; auto). f_equal.
    apply IH. intros j Hj. apply Hskip, elem_of_cons. auto.
Qed.

Lemma insert_sorted_miss n ns :
  (forall k, k ∈ ns -> process_evaluation n.2 k.2 = false) ->
  insert_sorted n ns = ns ++ [n].
Proof.
  intros Hskip. induction ns as [|k r IH]; cbn; [reflexivity|].
  rewrite Hskip by (apply elem_of_cons; auto). f_equal.
  apply IH. intros j Hj. apply Hskip, elem_of_cons. auto.
Qed.

Lemma hd_ptr_None (ns : list node) : hd_ptr ns None = None -> ns = [].
Proof. destruct ns; [reflexivity|discriminate]. Qed.

(** A push that validation rejects changes nothing. *)
Lemma push_to_queue_rejected q p st ns :
  is_queue (heap st) q ns -> niceness_ok (niceness p) = true ->
  classify ns.*2 p <> push_success ->
  push_to_queue q p st = Ok ((classify ns.*2 p, q), st).
Proof.
  intros Hq Hnice Hcl. unfold push_to_queue. rewrite Hnice. cbn [assert_].
  rewrite bind_ret. destruct (top q) eqn:Htq.
  - rewrite (bind_Ok _ _ _ _ _ (processes_are_valid_spec q p st ns Hq)).
    rewrite bool_decide_eq_true_2 by exact Hcl. reflexivity.
  - rewrite (q_top _ _ _ Hq) in Htq. apply hd_ptr_None in Htq. subst ns.
    contradiction Hcl. reflexivity.
Qed.

(** A push whose allocation fails only consumes the allocator's answer. *)
Lemma push_to_queue_refused q p st ns :
  is_queue (heap st) q ns -> niceness_ok (niceness p) = true ->
  classify ns.*2 p = push_success -> allocates st = false ->
  push_to_queue q p st = Ok ((push_error, q), refused st).
Proof.
  intros Hq Hnice Hcl Hal. unfold push_to_queue. rewrite Hnice. cbn [assert_].
  rewrite bind_ret. pose proof Hq as [Hseg Hnd Hheap Htop Hbot Hsz].
  pose proof (dlseg_length _ _ _ _ Hseg Hnd) as Hlen.
  destruct (top q) eqn:Htq.
  - rewrite (bind_Ok _ _ _ _ _ (processes_are_valid_spec q p st ns Hq)).
    rewrite Hcl, bool_decide_eq_false_2 by auto.
    rewrite bind_chain_fuel, Htop.
    destruct (split_first (process_evaluation p) ns)
      as [Hnone|(ns1 & [b pb] & ns2 & -> & Hskip & Hhit)].
    + erewrite bind_Ok; cycle 1.
      { apply (for_items_end _ _ None); [exact Hseg| |exact Hlen].
        intros [c pc] Hm. destruct (dlseg_lookup _ _ _ _ _ _ Hseg Hm) as (nx & pv & Hcell).
        rewrite (bind_load _ _ _ _ Hcell). cbn [process fst].
        pose proof (Hnone _ Hm) as E. cbn [snd] in E. rewrite E. reflexivity. }
      cbn beta iota. rewrite (bind_Ok _ _ _ _ _ (create_item_fails _ _ _ _ Hal)).
      reflexivity.
    + pose proof Hseg as Hseg'. apply dlseg_app in Hseg' as [_ [Hcell _]].
      cbn [fst snd] in *.
      erewrite bind_Ok; cycle 1.
      { apply (for_items_return _ st (refused st) None ns1 (b, pb) ns2 None _
                 (push_error, q)); [exact Hseg| | |].
        - intros [c pc] Hm.
          destruct (dlseg_lookup _ _ _ _ c pc Hseg) as (nx & pv & Hc).
          { apply elem_of_app. auto. }
          rewrite (bind_load _ _ _ _ Hc). cbn [process fst].
          pose proof (Hskip _ Hm) as E. cbn [snd] in E. rewrite E. reflexivity.
        - rewrite length_app in Hlen. cbn in Hlen. lia.
        - cbn [fst]. rewrite (bind_load _ _ _ _ Hcell). cbn [process].
          rewrite Hhit, (bind_Ok _ _ _ _ _ (create_item_fails _ _ _ _ Hal)).
          reflexivity. }
      reflexivity.
  - rewrite (bind_Ok _ _ _ _ _ (create_item_fails _ _ _ _ Hal)). reflexivity.
Qed.

Lemma alloc_bound (h h' : gmap addr priority_queue_item) a :
  h !! a = None ->
  (forall b, b <> a -> h !! b = None -> h' !! b = None) ->
  Z.of_nat (base.size h) + 1 < SIZE_MOD ->
  Z.of_nat (base.size h') < SIZE_MOD.
Proof.
  intros Ha Hna Hroom.
  assert (Hle : (base.size h' <= base.size (<[a := blank_item]> h))%nat).
  { apply no_alloc_size. intros b Hb. apply lookup_insert_None in Hb as [Hb Hne].
    apply Hna; auto. }
  rewrite map_size_insert_None in Hle by exact Ha. lia.
Qed.

(** A push that passes validation and gets its node links it at the
    sorted position. *)
Lemma push_to_queue_inserted q p st ns :
  is_queue (heap st) q ns -> niceness_ok (niceness p) = true ->
  classify ns.*2 p = push_success -> allocates st = true ->
  exists a q' h',
    heap st !! a = None /\
    push_to_queue q p st =
      Ok ((push_success, q'), mk_state h' (tail (alloc_plan st)) (calls st)) /\
    is_queue h' q' (insert_sorted (a, p) ns) /\
    preserves ns (heap st) h' /\
    (forall b, b <> a -> heap st !! b = None -> h' !! b = None).
Proof.
  intros Hq Hnice Hcl Hal. unfold push_to_queue. rewrite Hnice. cbn [assert_].
  rewrite bind_ret. pose proof Hq as [Hseg Hnd Hheap Htop Hbot Hsz].
  pose proof (dlseg_length _ _ _ _ Hseg Hnd) as Hlen.
  pose proof (allocates_room _ Hal) as Hroom.
  assert (Hsz' : wrap_size (size q + 1) = Z.of_nat (S (length ns))).
  { rewrite Hsz, wrap_size_small; lia. }
  destruct (top q) eqn:Htq.
  - rewrite (bind_Ok _ _ _ _ _ (processes_are_valid_spec q p st ns Hq)).
    rewrite Hcl, bool_decide_eq_false_2 by auto.
    rewrite bind_chain_fuel, Htop.
    destruct (split_first (process_evaluation p) ns)
      as [Hnone|(ns1 & [b pb] & ns2 & -> & Hskip & Hhit)].
    + (* no node is outranked: the new node becomes the bottom *)
      erewrite bind_Ok; cycle 1.
      { apply (for_items_end _ _ None); [exact Hseg| |exact Hlen].
        intros [c pc] Hm. destruct (dlseg_lookup _ _ _ _ _ _ Hseg Hm) as (nx & pv & Hcell).
        rewrite (bind_load _ _ _ _ Hcell). cbn [process fst].
        pose proof (Hnone _ Hm) as E. cbn [snd] in E. rewrite E. reflexivity. }
      cbn beta iota.
      destruct (create_item_succeeds p None (bottom q) st Hal) as (a & Ha & Hcreate).
      rewrite (bind_Ok _ _ _ _ _ Hcreate).
      assert (Hfresh : a ∉ ns.*1).
      { intros Hin. destruct (dlseg_allocated _ _ _ _ _ Hseg Hin). congruence. }
      pose proof (insert_sorted_miss (a, p) ns Hnone) as Hins.
      destruct ns as [|[c pc] r _] using rev_ind; [discriminate|].
      rewrite last_ptr_app in Hbot. cbn [last_ptr fst] in Hbot. rewrite Hbot.
      cbn [deref]. rewrite bind_ret.
      apply dlseg_app in Hseg as [Hseg0 [Hc _]]. cbn [fst snd hd_ptr] in Hseg0, Hc.
      rewrite fmap_app in Hnd, Hfresh. apply NoDup_app in Hnd as (Hnd0 & Hc1 & _).
      erewrite bind_store by (cbn [heap allocated]; heap_simpl; exact Hc).
      exists a. eexists _, _. split; [exact Ha|]. split; [reflexivity|].
      cbn [heap allocated set_next process next prev]. rewrite Hins.
      split; [|split].
      * split; cbn [top bottom size set_size set_top set_bottom].
        -- apply dlseg_app. split; [apply dlseg_app; split|]; [|split; [|exact I]..].
           ++ apply (dlseg_frame _ _ _ _ _ Hseg0). intros x Hx. heap_simpl. reflexivity.
           ++ heap_simpl. reflexivity.
           ++ rewrite last_ptr_app. cbn [last_ptr fst snd hd_ptr]. heap_simpl. reflexivity.
        -- rewrite !fmap_app. apply NoDup_app. split; [|split].
           ++ apply NoDup_app. split; [exact Hnd0|]. split; [exact Hc1|]. apply NoDup_singleton.
           ++ intros x Hx Hx'. apply list_elem_of_singleton in Hx'. cbn in Hx'. subst x.
              contradiction.
           ++ apply NoDup_singleton.
        -- apply (alloc_bound _ _ a Ha); [|exact Hroom]. intros x Hne Hx. no_alloc.
        -- rewrite Htq, Htop, !hd_ptr_app. destruct r; reflexivity.
        -- rewrite last_ptr_app. reflexivity.
        -- rewrite Hsz', !length_app. cbn [length]. lia.
      * intros x y Hx Hy. rewrite fmap_app in Hx. heap_simpl. exact Hy.
      * intros x Hne Hx. no_alloc.
    + (* the new node goes before the first node it outranks *)
      pose proof Hseg as Hseg'. apply dlseg_app in Hseg' as [Hseg1 [Hcell Hseg2]].
      cbn [fst snd] in *.
      destruct (create_item_succeeds p (Some b) (last_ptr ns1 None) st Hal)
        as (a & Ha & Hcreate).
      assert (Hfresh : a ∉ (ns1 ++ (b, pb) :: ns2).*1).
      { intros Hin. destruct (dlseg_allocated _ _ _ _ _ Hseg Hin). congruence. }
      pose proof (insert_sorted_hit (a, p) ns1 (b, pb) ns2 Hskip Hhit) as Hins.
      rewrite fmap_app, fmap_cons in Hnd, Hfresh. cbn [fst] in Hnd, Hfresh.
      apply NoDup_app in Hnd as (Hnd1 & Hdisj & Hnd2).
      pose proof (proj1 (proj1 (NoDup_cons _ _) Hnd2)) as Hb2.
      destruct ns1 as [|[c pc] r1 _] using rev_ind.
      * (* before the top *)
        cbn [app hd_ptr last_ptr] in *.
        erewrite bind_Ok; cycle 1.
        { eapply (for_items_return _ st _ None [] (b, pb) ns2 None); [exact Hseg| | |].
          - intros m Hm. inversion Hm.
          - cbn in Hlen |- *. lia.
          - cbn [fst]. rewrite (bind_load _ _ _ _ Hcell). cbn [process prev]. rewrite Hhit.
            rewrite (bind_Ok _ _ _ _ _ Hcreate).
            rewrite bool_decide_eq_true_2 by reflexivity.
            rewrite bind_assoc. cbn [deref]. rewrite bind_ret.
            rewrite bind_assoc.
            erewrite bind_store by (cbn [heap allocated]; heap_simpl; exact Hcell).
            reflexivity. }
        exists a. eexists _, _. split; [exact Ha|]. split; [reflexivity|].
        cbn [heap allocated set_prev process next prev]. rewrite Hins.
        cbn [app]. split; [|split].
        -- split; cbn [top bottom size set_size set_top set_bottom hd_ptr last_ptr fst].
           ++ split; [|split]; cbn [fst snd hd_ptr].
              ** heap_simpl. reflexivity.
              ** heap_simpl. reflexivity.
              ** destruct Hseg as [_ Hseg]. apply (dlseg_frame _ _ _ _ _ Hseg).
                 intros x Hx. heap_simpl. reflexivity.
           ++ rewrite !fmap_cons. cbn [fst]. apply NoDup_cons. split; [exact Hfresh|].
              exact Hnd2.
           ++ apply (alloc_bound _ _ a Ha); [|exact Hroom]. intros x Hne Hx. no_alloc.
           ++ reflexivity.
           ++ exact Hbot.
           ++ exact Hsz'.
        -- intros x y Hx Hy. rewrite fmap_cons in Hx. heap_simpl. exact Hy.
        -- intros x Hne Hx. no_alloc.
      * (* between two nodes *)
        rewrite last_ptr_app in Hcell, Hcreate. cbn [last_ptr fst] in Hcell, Hcreate.
        apply dlseg_app in Hseg1 as [Hseg0 [Hc _]]. cbn [fst snd hd_ptr] in Hseg0, Hc.
        rewrite fmap_app in Hnd1, Hfresh, Hdisj.
        pose proof Hnd1 as Hnd1'. apply NoDup_app in Hnd1' as (Hnd0 & Hc1 & _).
        assert (Hcb : c <> b).
        { intros ->. apply (Hdisj b); [|apply elem_of_cons; auto].
          apply elem_of_app. right. apply elem_of_cons. auto. }
        assert (Hdisj0 : forall x, x ∈ r1.*1 -> x ∉ b :: ns2.*1).
        { intros x Hx. apply Hdisj, elem_of_app. auto. }
        assert (Hc2 : c ∉ ns2.*1).
        { intros Hin. apply (Hdisj c); [|apply elem_of_cons; auto].
          apply elem_of_app. right. apply elem_of_cons. auto. }
        erewrite bind_Ok; cycle 1.
        { eapply (for_items_return _ st _ None (r1 ++ [(c, pc)]) (b, pb) ns2 None);
            [exact Hseg| | |].
          - intros [d pd] Hm.
            destruct (dlseg_lookup _ _ _ _ d pd Hseg) as (nx & pv & Hd).
            { apply elem_of_app. auto. }
            rewrite (bind_load _ _ _ _ Hd). cbn [process fst].
            pose proof (Hskip _ Hm) as E. cbn [snd] in E. rewrite E. reflexivity.
          - rewrite length_app in Hlen. cbn in Hlen. lia.
          - cbn [fst]. rewrite (bind_load _ _ _ _ Hcell). cbn [process prev]. rewrite Hhit.
            rewrite (bind_Ok _ _ _ _ _ Hcreate).
            rewrite bool_decide_eq_false_2; cycle 1.
            { rewrite <- app_assoc, hd_ptr_app. intros E. symmetry in E.
              apply hd_ptr_elem in E as [E|E]; [cbn in E|]; mem_contra. }
            rewrite bind_assoc.
            erewrite bind_load by (cbn [heap allocated]; heap_simpl; exact Hcell).
            cbn [prev]. rewrite bind_assoc. cbn [deref]. rewrite bind_ret, bind_assoc.
            erewrite bind_store by (cbn [heap allocated]; heap_simpl; exact Hc).
            rewrite bind_assoc.
            erewrite bind_store by (cbn [heap allocated]; heap_simpl; exact Hcell).
            reflexivity. }
        exists a. eexists _, _. split; [exact Ha|]. split; [reflexivity|].
        cbn [heap allocated set_heap set_prev set_next process next prev]. rewrite Hins.
        split; [|split].
        -- split; cbn [top bottom size set_size set_top set_bottom].
           ++ rewrite <- app_assoc. apply dlseg_app.
              split; [|split; [|split; [|split]]]; cbn [fst snd hd_ptr last_ptr].
              ** apply (dlseg_frame _ _ _ _ _ Hseg0). intros x Hx. heap_simpl. reflexivity.
              ** heap_simpl. reflexivity.
              ** heap_simpl. reflexivity.
              ** heap_simpl. reflexivity.
              ** apply (dlseg_frame _ _ _ _ _ Hseg2). intros x Hx. heap_simpl. reflexivity.
           ++ rewrite !fmap_app, !fmap_cons. cbn [fst]. apply NoDup_app. split; [exact Hnd1|].
              split; [|apply NoDup_cons; split; [|exact Hnd2]].
              ** intros x Hx Hx'. apply elem_of_cons in Hx' as [->|Hx'].
                 --- mem_contra.
                 --- apply (Hdisj x Hx Hx').
              ** intros Hin. mem_contra.
           ++ apply (alloc_bound _ _ a Ha); [|exact Hroom]. intros x Hne Hx. no_alloc.
           ++ rewrite Htq, Htop, <- !app_assoc, !hd_ptr_app. destruct r1; reflexivity.
           ++ rewrite Hbot, !last_ptr_app. reflexivity.
           ++ rewrite Hsz'. repeat (rewrite !length_app; cbn [length]). lia.
        -- intros x y Hx Hy. rewrite !fmap_app, !fmap_cons in Hx. heap_simpl. exact Hy.
        -- intros x Hne Hx. no_alloc.
  - symmetry in Htop. apply hd_ptr_None in Htop. subst ns.
    destruct (create_item_succeeds p None None st Hal) as (a & Ha & Hcreate).
    rewrite (bind_Ok _ _ _ _ _ Hcreate).
    exists a. eexists _, _. split; [exact Ha|]. split; [reflexivity|].
    split; [|split].
    + split; cbn [top bottom size set_size set_top set_bottom hd_ptr last_ptr fst];
        try reflexivity.
      * split; [|exact I]. cbn [fst snd hd_ptr]. apply lookup_insert_eq.
      * apply NoDup_singleton.
      * apply (alloc_bound _ _ a Ha); [|exact Hroom]. intros b Hne Hb. no_alloc.
      * exact Hsz'.
    + intros b x _ Hx. rewrite lookup_insert_ne; [exact Hx|]. congruence.
    + intros b Hne Hb. no_alloc.
Qed.

(** ** Order and identities of the queued processes *)

Lemma insert_sorted_processes n ns :
  (insert_sorted n ns).*2 = insert_process n.2 ns.*2.
Proof.
  induction ns as [|m r IH]; [reflexivity|].
  cbn. destruct (process_evaluation n.2 m.2); cbn; [reflexivity|].
  rewrite IH. reflexivity.
Qed.

Lemma insert_process_perm p l : insert_process p l ≡ₚ p :: l.
Proof.
  induction l as [|x r IH]; [reflexivity|].
  cbn. destruct (process_evaluation p x); [reflexivity|].
  rewrite IH. apply Permutation_swap.
Qed.


Section order.
Implicit Types (l : list process_type) (p x : process_type).

Lemma sorted_nil : sorted [].
Proof. intros i j a b _ Hi. inversion Hi. Qed.

Lemma sorted_cons x l :
  sorted (x :: l) <->
  (forall y, y ∈ l -> process_evaluation y x = false) /\ sorted l.
Proof.
  split.
  - intros Hs. split.
    + intros y Hy. apply list_elem_of_lookup in Hy as [j Hj].
      apply (Hs 0%nat (S j) x y); [lia|reflexivity|exact Hj].
    + intros i j a b Hij Ha Hb. apply (Hs (S i) (S j)); [lia|exact Ha|exact Hb].
  - intros [Hx Hs] i j a b Hij Ha Hb.
    destruct j as [|j]; [lia|]. cbn in Hb. destruct i as [|i].
    + injection Ha as <-. apply Hx. apply list_elem_of_lookup. eauto.
    + apply (Hs i j); [lia|exact Ha|exact Hb].
Qed.

Lemma sorted_app l1 l2 :
  sorted (l1 ++ l2) <->
  sorted l1 /\ sorted l2 /\
  (forall x y, x ∈ l1 -> y ∈ l2 -> process_evaluation y x = false).
Proof.
  induction l1 as [|z r IH]; cbn [app].
  - split.
    + intros H. split; [apply sorted_nil|]. split; [exact H|].
      intros x y Hx. inversion Hx.
    + tauto.
  - rewrite !sorted_cons, IH. split.
    + intros (Hz & Hr & H2 & Hcross). split; [split; [|exact Hr]|split; [exact H2|]].
      * intros y Hy. apply Hz, elem_of_app. auto.
      * intros x y Hx Hy. apply elem_of_cons in Hx as [->|Hx].
        -- apply Hz, elem_of_app. auto.
        -- apply Hcross; auto.
    + intros ((Hz & Hr) & H2 & Hcross). split; [|split; [exact Hr|split; [exact H2|]]].
      * intros y Hy. apply elem_of_app in Hy as [Hy|Hy]; [auto|].
        apply Hcross; [apply elem_of_cons|]; auto.
      * intros x y Hx Hy. apply Hcross; [apply elem_of_cons|]; auto.
Qed.

(** Removing an entry keeps the order. *)
Lemma sorted_remove l1 x l2 : sorted (l1 ++ x :: l2) -> sorted (l1 ++ l2).
Proof.
  rewrite !sorted_app, sorted_cons. intros (H1 & (Hx & H2) & Hcross).
  split; [exact H1|]. split; [exact H2|].
  intros a b Ha Hb. apply Hcross; [exact Ha|]. apply elem_of_cons. auto.
Qed.

(** Insertion at the position [push_to_queue] chooses keeps the order. *)
Lemma sorted_insert p l : sorted l -> sorted (insert_process p l).
Proof.
  induction l as [|x r IH]; intros Hs.
  - cbn. apply sorted_cons. split; [|apply sorted_nil]. intros y Hy. inversion Hy.
  - cbn. destruct (process_evaluation p x) eqn:Hpx.
    + apply sorted_cons. split; [|exact Hs].
      apply sorted_cons in Hs as [Hx Hr].
      intros y Hy. apply elem_of_cons in Hy as [->|Hy].
      * order_facts. lia.
      * specialize (Hx y Hy). order_facts. lia.
    + apply sorted_cons in Hs as [Hx Hr]. apply sorted_cons. split; [|auto].
      intros y Hy. rewrite insert_process_perm in Hy.
      apply elem_of_cons in Hy as [->|Hy]; auto.
Qed.

Lemma classify_success l p :
  classify l p = push_success <-> identity p ∉ identity <$> l.
Proof.
  induction l as [|x r IH]; cbn.
  - split; [|reflexivity]. intros _ H. inversion H.
  - rewrite not_elem_of_cons, <- IH. unfold same_identity, identity.
    destruct (decide (callback x = callback p)) as [Hc|Hc];
      destruct (decide (context x = context p)) as [Hx|Hx];
      rewrite ?(bool_decide_eq_true_2 _ Hc), ?(bool_decide_eq_false_2 _ Hc),
        ?(bool_decide_eq_true_2 _ Hx), ?(bool_decide_eq_false_2 _ Hx); cbn.
    + destruct (same_schedule x p); split; try discriminate; intros [H _];
        contradiction H; congruence.
    + split; [intros H; split; [congruence|exact H]|tauto].
    + split; [intros H; split; [congruence|exact H]|tauto].
    + split; [intros H; split; [congruence|exact H]|tauto].
Qed.

Lemma unique_insert p l :
  unique_identities l -> classify l p = push_success ->
  unique_identities (insert_process p l).
Proof.
  unfold unique_identities. intros Hu Hc.
  rewrite insert_process_perm, fmap_cons. apply NoDup_cons.
  split; [apply classify_success, Hc|exact Hu].
Qed.

Lemma unique_remove l1 x l2 :
  unique_identities (l1 ++ x :: l2) ->
  unique_identities (l1 ++ l2) /\ identity x ∉ identity <$> (l1 ++ l2).
Proof.
  unfold unique_identities. rewrite !fmap_app, fmap_cons.
  intros H. apply NoDup_app in H as (H1 & Hd & H2).
  apply NoDup_cons in H2 as [Hx H2]. split.
  - apply NoDup_app. split; [exact H1|]. split; [|exact H2].
    intros y Hy Hy'. apply (Hd y Hy), elem_of_cons. auto.
  - intros Hin. apply elem_of_app in Hin as [Hin|Hin]; [|contradiction].
    apply (Hd _ Hin), elem_of_cons. auto.
Qed.
End order.

(** Where [insert_process] puts the new entry. *)
Lemma insert_process_split p l :
  exists l1 l2,
    l = l1 ++ l2 /\ insert_process p l = l1 ++ p :: l2 /\
    (forall x, x ∈ l1 -> process_evaluation p x = false) /\
    (forall y, head l2 = Some y -> process_evaluation p y = true).
Proof.
  induction l as [|y r IH].
  - exists [], []. repeat split; [intros x Hx; inversion Hx|discriminate].
  - cbn [insert_process]. destruct (process_evaluation p y) eqn:Hy.
    + exists [], (y :: r). repeat split; [intros x Hx; inversion Hx|].
      intros y' [= <-]. exact Hy.
    + destruct IH as (l1 & l2 & -> & -> & Hskip & Hhit).
      exists (y :: l1), l2. repeat split; [|exact Hhit].
      intros x Hx. apply elem_of_cons in Hx as [->|Hx]; auto.
Qed.

(** In a sorted list an entry that outranks the first entry outranks all
    of them. *)
Lemma outranks_sorted_tail p l :
  sorted l -> (forall y, head l = Some y -> process_evaluation p y = true) ->
  forall x, x ∈ l -> process_evaluation p x = true.
Proof.
  intros Hs Hhd x Hx. destruct l as [|y r]; [inversion Hx|].
  specialize (Hhd y eq_refl). apply sorted_cons in Hs as [Hy _].
  apply elem_of_cons in Hx as [->|Hx]; [exact Hhd|].
  specialize (Hy x Hx). order_facts. lia.
Qed.

(** Without overflow the code's order on a list is the order of the
    specification. *)
Lemma sorted_score_sorted l : sorted l -> Forall no_overflow l -> score_sorted l.
Proof.
  intros Hs Hfit i j a b Hij Ha Hb Hout.
  pose proof (Hs i j a b Hij Ha Hb) as Hpe.
  destruct (proj1 (Forall_lookup _ _) Hfit i a Ha) as [Hra Hsa].
  destruct (proj1 (Forall_lookup _ _) Hfit j b Hb) as [Hrb Hsb].
  apply (process_evaluation_outranks b a Hrb Hra Hsb Hsa) in Hout. congruence.
Qed.

(** ** Selection *)

Lemma set_heap_id st : set_heap (heap st) st = st.
Proof. destruct st. reflexivity. Qed.

Lemma get_top_none q mask st ns :
  is_queue (heap st) q ns ->
  (forall m, m ∈ ns -> eligible mask m.2 = false) ->
  get_top q mask st = Ok (None, st).
Proof.
  intros [Hseg Hnd Hheap Htop _ _] Hnone.
  pose proof (dlseg_length _ _ _ _ Hseg Hnd) as Hlen.
  unfold get_top. rewrite bind_chain_fuel, Htop.
  apply (for_items_end _ _ None); [exact Hseg| |exact Hlen].
  intros [a pa] Hm. destruct (dlseg_lookup _ _ _ _ _ _ Hseg Hm) as (nx & pv & Hcell).
  rewrite (bind_load _ _ _ _ Hcell). cbn [process fst].
  pose proof (Hnone _ Hm) as E. cbn [snd] in E. rewrite E. reflexivity.
Qed.

Lemma get_top_first q mask st ns1 n ns2 :
  is_queue (heap st) q (ns1 ++ n :: ns2) ->
  (forall m, m ∈ ns1 -> eligible mask m.2 = false) ->
  eligible mask n.2 = true ->
  get_top q mask st = Ok (Some n.1, st).
Proof.
  intros [Hseg Hnd Hheap Htop _ _] Hskip Hhit.
  pose proof (dlseg_length _ _ _ _ Hseg Hnd) as Hlen.
  pose proof Hseg as Hseg'. apply dlseg_app in Hseg' as [_ [Hcell _]].
  unfold get_top. rewrite bind_chain_fuel, Htop.
  apply (for_items_return _ st st None ns1 n ns2 None); [exact Hseg| | |].
  - intros [c pc] Hm.
    destruct (dlseg_lookup _ _ _ _ c pc Hseg) as (nx & pv & Hc).
    { apply elem_of_app. auto. }
    rewrite (bind_load _ _ _ _ Hc). cbn [process fst].
    pose proof (Hskip _ Hm) as E. cbn [snd] in E. rewrite E. reflexivity.
  - rewrite length_app in Hlen. cbn in Hlen. lia.
  - rewrite (bind_load _ _ _ _ Hcell). cbn [process]. rewrite Hhit. reflexivity.
Qed.

Lemma pop_top_none q mask out st ns :
  is_queue (heap st) q ns ->
  (forall m, m ∈ ns -> eligible mask m.2 = false) ->
  pop_top q mask out st = Ok ((false, None, q), st).
Proof.
  intros [Hseg Hnd Hheap Htop _ _] Hnone.
  pose proof (dlseg_length _ _ _ _ Hseg Hnd) as Hlen.
  unfold pop_top. rewrite bind_chain_fuel, Htop.
  rewrite (bind_Ok _ _ _ None st); [reflexivity|].
  apply (for_items_end _ _ None); [exact Hseg| |exact Hlen].
  intros [a pa] Hm. destruct (dlseg_lookup _ _ _ _ _ _ Hseg Hm) as (nx & pv & Hcell).
  rewrite (bind_load _ _ _ _ Hcell). cbn [process fst].
  pose proof (Hnone _ Hm) as E. cbn [snd] in E. rewrite E. reflexivity.
Qed.

Lemma pop_top_first q mask out st ns1 n ns2 :
  is_queue (heap st) q (ns1 ++ n :: ns2) ->
  (forall m, m ∈ ns1 -> eligible mask m.2 = false) ->
  eligible mask n.2 = true ->
  (forall o, out = OutItem o -> o = n.1) ->
  exists q' h',
    pop_top q mask out st = Ok ((true, written_to out n.2, q'), set_heap h' st) /\
    is_queue h' q' (ns1 ++ ns2) /\
    preserves (ns1 ++ n :: ns2) (heap st) h' /\
    (forall b, heap st !! b = None -> h' !! b = None) /\
    h' !! n.1 = None.
Proof.
  intros Hq Hskip Hhit Hout.
  destruct (pop_item_spec q st ns1 n ns2 Hq) as (q' & h' & Hpop & Hq' & Hpres & Hna & Hgone).
  exists q', h'. split; [|auto].
  destruct Hq as [Hseg Hnd Hheap Htop _ _].
  pose proof (dlseg_length _ _ _ _ Hseg Hnd) as Hlen.
  pose proof Hseg as Hseg'. apply dlseg_app in Hseg' as [_ [Hcell _]].
  unfold pop_top. rewrite bind_chain_fuel, Htop.
  rewrite (bind_Ok _ _ _ (Some (true, written_to out n.2, q')) (set_heap h' st));
    [reflexivity|].
  apply (for_items_return _ st _ None ns1 n ns2 None); [exact Hseg| | |].
  - intros [c pc] Hm.
    destruct (dlseg_lookup _ _ _ _ c pc Hseg) as (nx & pv & Hc).
    { apply elem_of_app. auto. }
    rewrite (bind_load _ _ _ _ Hc). cbn [process fst].
    pose proof (Hskip _ Hm) as E. cbn [snd] in E. rewrite E. reflexivity.
  - rewrite length_app in Hlen. cbn in Hlen. lia.
  - rewrite (bind_load _ _ _ _ Hcell). cbn [process]. rewrite Hhit.
    destruct out as [| |o]; cbn [written_to].
    + rewrite bind_ret, (bind_Ok _ _ _ _ _ Hpop). reflexivity.
    + rewrite bind_ret, (bind_Ok _ _ _ _ _ Hpop). reflexivity.
    + rewrite (Hout o eq_refl), bind_assoc, (bind_store _ _ _ _ _ Hcell).
      cbn [set_process process next prev]. rewrite insert_id by exact Hcell.
      rewrite set_heap_id, bind_ret, (bind_Ok _ _ _ _ _ Hpop). reflexivity.
Qed.

(** ** Clearing *)

Lemma clear_queue_spec q st ns :
  is_queue (heap st) q ns ->
  clear_queue q st = Ok (create_queue, set_heap (release ns (heap st)) st) /\
  is_queue (release ns (heap st)) create_queue [] /\
  preserves ns (heap st) (release ns (heap st)) /\
  (forall b, heap st !! b = None -> release ns (heap st) !! b = None).
Proof.
  intros [Hseg Hnd Hheap Htop _ _].
  assert (Hna : forall b, heap st !! b = None -> release ns (heap st) !! b = None).
  { intros b Hb. destruct (decide (b ∈ ns.*1)) as [Hin|Hnotin].
    - apply release_lookup_in, Hin.
    - rewrite release_lookup_notin; auto. }
  split; [apply clear_queue_chain; assumption|]. split; [|split; [|exact Hna]].
  - split; [exact I|apply NoDup_nil_2| |reflexivity..].
    apply (no_alloc_bound _ _ Hheap Hna).
  - intros b x Hb Hx. rewrite release_lookup_notin; auto.
Qed.

(** ** Updating a queued process in place *)

Lemma is_queue_set_process h q ns1 a pa ns2 it p' :
  is_queue h q (ns1 ++ (a, pa) :: ns2) ->
  h !! a = Some it ->
  is_queue (<[a := set_process p' it]> h) q (ns1 ++ (a, p') :: ns2).
Proof.
  intros [Hseg Hnd Hheap Htop Hbot Hsz] Hit.
  rewrite fmap_app, fmap_cons in Hnd. cbn [fst] in Hnd.
  pose proof Hnd as Hnd'. apply NoDup_app in Hnd' as (Hnd1 & Hdisj & Hnd2).
  apply NoDup_cons in Hnd2 as [Ha2 Hnd2].
  assert (Ha1 : a ∉ ns1.*1).
  { intros Hin. apply (Hdisj _ Hin), elem_of_cons. auto. }
  apply dlseg_app in Hseg as [Hseg1 [Hcell Hseg2]]. cbn [fst snd hd_ptr] in *.
  rewrite Hcell in Hit. injection Hit as <-. cbn [set_process process next prev].
  split.
  - apply dlseg_app. split; [|split]; cbn [fst snd hd_ptr].
    + apply (dlseg_frame _ _ _ _ _ Hseg1). intros x Hx. heap_simpl. reflexivity.
    + heap_simpl. reflexivity.
    + apply (dlseg_frame _ _ _ _ _ Hseg2). intros x Hx. heap_simpl. reflexivity.
  - rewrite fmap_app, fmap_cons. exact Hnd.
  - rewrite map_size_insert_Some by eauto. exact Hheap.
  - rewrite Htop, !hd_ptr_app. reflexivity.
  - rewrite Hbot, !last_ptr_app. reflexivity.
  - rewrite Hsz, !length_app. reflexivity.
Qed.

(** The re-push after a node was freed: room is left, so only the
    allocator can refuse the new node. *)
Lemma push_after_free q p st h ns :
  is_queue h q ns ->
  Z.of_nat (base.size h) + 1 < SIZE_MOD ->
  niceness_ok (niceness p) = true ->
  identity p ∉ identity <$> ns.*2 ->
  if grants (alloc_plan st) then
    exists a q' h',
      h !! a = None /\
      push_to_queue q p (set_heap h st) =
        Ok ((push_success, q'), mk_state h' (tail (alloc_plan st)) (calls st)) /\
      is_queue h' q' (insert_sorted (a, p) ns) /\
      preserves ns h h' /\
      (forall b, b <> a -> h !! b = None -> h' !! b = None)
  else
    push_to_queue q p (set_heap h st) =
      Ok ((push_error, q), mk_state h (tail (alloc_plan st)) (calls st)).
Proof.
  intros Hq Hroom Hnice Hid. apply classify_success in Hid.
  assert (Hal : allocates (set_heap h st) = grants (alloc_plan st)).
  { unfold allocates, has_room. cbn [heap alloc_plan set_heap].
    rewrite bool_decide_eq_true_2 by exact Hroom. apply andb_true_r. }
  destruct (grants (alloc_plan st)) eqn:Hg.
  - apply (push_to_queue_inserted q p (set_heap h st) ns); assumption.
  - apply (push_to_queue_refused q p (set_heap h st) ns); assumption.
Qed.

(** ** Renicing *)

Lemma renice_miss q cb ctx nice st ns :
  is_queue (heap st) q ns -> niceness_ok nice = true ->
  (forall m, m ∈ ns -> same_identity cb ctx m.2 = false) ->
  renice q cb ctx nice st = Ok ((false, q), st).
Proof.
  intros [Hseg Hnd Hheap Htop _ _] Hnice Hnone.
  pose proof (dlseg_length _ _ _ _ Hseg Hnd) as Hlen.
  unfold renice. rewrite Hnice. cbn [assert_]. rewrite bind_ret, bind_chain_fuel, Htop.
  rewrite (bind_Ok _ _ _ None st); [reflexivity|].
  apply (for_items_end _ _ None); [exact Hseg| |exact Hlen].
  intros [a pa] Hm. destruct (dlseg_lookup _ _ _ _ _ _ Hseg Hm) as (nx & pv & Hcell).
  rewrite (bind_load _ _ _ _ Hcell). cbn [process fst].
  pose proof (Hnone _ Hm) as E. cbn [snd] in E. rewrite E. reflexivity.
Qed.

Lemma renice_hit q cb ctx nice st ns1 a pa ns2 :
  is_queue (heap st) q (ns1 ++ (a, pa) :: ns2) ->
  unique_identities (ns1 ++ (a, pa) :: ns2).*2 ->
  (forall m, m ∈ ns1 -> same_identity cb ctx m.2 = false) ->
  same_identity cb ctx pa = true ->
  niceness_ok nice = true ->
  exists q' h',
    renice q cb ctx nice st =
      Ok ((true, q'), mk_state h' (tail (alloc_plan st)) (calls st)) /\
    preserves (ns1 ++ (a, pa) :: ns2) (heap st) h' /\
    if grants (alloc_plan st) then
      exists a', (a' = a \/ heap st !! a' = None) /\
        is_queue h' q' (insert_sorted (a', with_niceness nice pa) (ns1 ++ ns2))
    else is_queue h' q' (ns1 ++ ns2).
Proof.
  intros Hq Huniq Hskip Hhit Hnice.
  pose proof Hq as [Hseg Hnd Hheap Htop _ _].
  pose proof (dlseg_length _ _ _ _ Hseg Hnd) as Hlen.
  pose proof Hseg as Hseg'. apply dlseg_app in Hseg' as [_ [Hcell _]].
  cbn [fst snd] in Hcell.
  set (p' := with_niceness nice pa).
  pose proof (is_queue_set_process _ _ _ _ _ _ _ p' Hq Hcell) as Hq1.
  cbn [set_process process next prev] in Hq1.
  set (h1 := <[a := mk_item p' (hd_ptr ns2 None) (last_ptr ns1 None)]> (heap st)) in *.
  destruct (pop_item_spec q (set_heap h1 st) ns1 (a, p') ns2 Hq1)
    as (q1 & h2 & Hpop & Hq2 & Hpres2 & Hna2 & Hgone).
  cbn [heap set_heap fst] in Hpop, Hpres2, Hna2, Hgone.
  assert (Hsize : (base.size h2 < base.size (heap st))%nat).
  { eapply (free_size _ _ a); [|exact Hcell|exact Hgone].
    intros b Hb. apply Hna2. unfold h1. apply lookup_insert_None. split; [exact Hb|].
    intros ->. congruence. }
  rewrite fmap_app, fmap_cons in Huniq. apply unique_remove in Huniq as [Huniq Hid].
  rewrite <- fmap_app in Hid.
  pose proof (push_after_free q1 p' st h2 (ns1 ++ ns2) Hq2 ltac:(lia) Hnice Hid) as Hpush.
  assert (Hpres : preserves (ns1 ++ (a, pa) :: ns2) (heap st) h2).
  { intros b x Hb Hx. apply Hpres2.
    - rewrite fmap_app, fmap_cons in Hb |- *. exact Hb.
    - unfold h1. rewrite lookup_insert_ne; [exact Hx|].
      intros ->. apply Hb. rewrite fmap_app, fmap_cons. apply elem_of_app. right.
      apply elem_of_cons. auto. }
  assert (Hbody : forall (res : push_result) q2 st2,
    push_to_queue q1 p' (set_heap h2 st) = Ok ((res, q2), st2) ->
    renice q cb ctx nice st = Ok ((true, q2), st2)).
  { intros res q2 st2 Hp.
    unfold renice. rewrite Hnice. cbn [assert_]. rewrite bind_ret, bind_chain_fuel, Htop.
    rewrite (bind_Ok _ _ _ (Some (true, q2)) st2); [reflexivity|].
    apply (for_items_return _ st _ None ns1 (a, pa) ns2 None); [exact Hseg| | |].
    - intros [c pc] Hm.
      destruct (dlseg_lookup _ _ _ _ c pc Hseg) as (nx & pv & Hc).
      { apply elem_of_app. auto. }
      rewrite (bind_load _ _ _ _ Hc). cbn [process fst].
      pose proof (Hskip _ Hm) as E. cbn [snd] in E. rewrite E. reflexivity.
    - rewrite length_app in Hlen. cbn in Hlen. lia.
    - cbn [fst]. rewrite (bind_load _ _ _ _ Hcell). cbn [process]. rewrite Hhit.
      rewrite (bind_store _ _ _ _ _ Hcell). cbn [set_process process next prev].
      fold p'. fold h1.
      erewrite bind_load by (cbn [heap set_heap]; apply lookup_insert_eq).
      cbn [process]. rewrite (bind_Ok _ _ _ _ _ Hpop).
      change (set_heap h2 (set_heap h1 st)) with (set_heap h2 st).
      rewrite (bind_Ok _ _ _ _ _ Hp). reflexivity. }
  destruct (grants (alloc_plan st)).
  - destruct Hpush as (a' & q' & h' & Ha' & Hp & Hq' & Hpres' & Hna').
    exists q', h'. split; [exact (Hbody _ _ _ Hp)|]. split.
    + intros b x Hb Hx. apply Hpres'; [|apply Hpres; assumption].
      intros Hin. apply Hb. rewrite fmap_app, fmap_cons.
      rewrite fmap_app in Hin. apply elem_of_app in Hin as [Hin|Hin];
        apply elem_of_app; [left|right; apply elem_of_cons; right]; exact Hin.
    + exists a'. split; [|exact Hq'].
      destruct (decide (a' = a)) as [->|Hne]; [auto|]. right.
      destruct (heap st !! a') as [x|] eqn:Hx; [|reflexivity].
      destruct (decide (a' ∈ (ns1 ++ (a, pa) :: ns2).*1)) as [Hin|Hnotin].
      * rewrite fmap_app, fmap_cons in Hin. cbn [fst] in Hin.
        assert (Hin' : a' ∈ (ns1 ++ ns2).*1).
        { rewrite fmap_app. apply elem_of_app in Hin as [Hin|Hin];
            [apply elem_of_app; auto|].
          apply elem_of_cons in Hin as [Hin|Hin]; [contradiction|].
          apply elem_of_app; auto. }
        destruct (dlseg_allocated _ _ _ _ _ (q_chain _ _ _ Hq2) Hin'). congruence.
      * rewrite (Hpres _ _ Hnotin Hx) in Ha'. discriminate.
  - exists q1, h2. split; [exact (Hbody _ _ _ Hpush)|]. split; [exact Hpres|exact Hq2].
Qed.

(** ** Running the top process *)

Lemma run_top_none bh q mask run_time st ns :
  is_queue (heap st) q ns ->
  (forall m, m ∈ ns -> eligible mask m.2 = false) ->
  run_top bh q mask run_time st = Ok ((0, q), st).
Proof.
  intros Hq Hnone. unfold run_top. destruct (top q); [|reflexivity].
  rewrite (bind_Ok _ _ _ _ _ (get_top_none q mask st ns Hq Hnone)). reflexivity.
Qed.

Lemma run_top_done bh q mask run_time st ns1 a pa ns2 :
  is_queue (heap st) q (ns1 ++ (a, pa) :: ns2) ->
  (forall m, m ∈ ns1 -> eligible mask m.2 = false) ->
  eligible mask pa = true ->
  wrap_uint (bh (callback pa) run_time (context pa)) = 0 ->
  exists q' h',
    run_top bh q mask run_time st =
      Ok ((0, q'), mk_state h' (alloc_plan st)
                     (calls st ++ [mk_call (callback pa) run_time (context pa)])) /\
    is_queue h' q' (ns1 ++ ns2) /\
    preserves (ns1 ++ (a, pa) :: ns2) (heap st) h' /\
    (forall b, heap st !! b = None -> h' !! b = None) /\
    h' !! a = None.
Proof.
  intros Hq Hskip Hhit Hzero.
  set (ev := mk_call (callback pa) run_time (context pa)).
  destruct (pop_top_first q mask (OutItem a) (called ev st) ns1 (a, pa) ns2 Hq Hskip Hhit)
    as (q' & h' & Hpop & Hq' & Hpres & Hna & Hgone).
  { intros o [= <-]. reflexivity. }
  exists q', h'. split; [|auto].
  pose proof Hq as [Hseg _ _ Htop _ _].
  pose proof Hseg as Hseg'. apply dlseg_app in Hseg' as [_ [Hcell _]].
  cbn [fst snd] in Hcell.
  unfold run_top. destruct (top q) eqn:Htq.
  - rewrite (bind_Ok _ _ _ _ _ (get_top_first q mask st ns1 (a, pa) ns2 Hq Hskip Hhit)).
    cbn [fst]. rewrite (bind_load _ _ _ _ Hcell). cbn [process].
    unfold bind at 1. unfold invoke. rewrite Hzero. cbn [Z.eqb].
    fold ev. fold (called ev st). rewrite (bind_Ok _ _ _ _ _ Hpop). reflexivity.
  - rewrite hd_ptr_app in Htop. destruct ns1; discriminate.
Qed.

Lemma run_top_requeue bh q mask run_time st ns1 a pa ns2 :
  is_queue (heap st) q (ns1 ++ (a, pa) :: ns2) ->
  unique_identities (ns1 ++ (a, pa) :: ns2).*2 ->
  niceness_ok (niceness pa) = true ->
  (forall m, m ∈ ns1 -> eligible mask m.2 = false) ->
  eligible mask pa = true ->
  wrap_uint (bh (callback pa) run_time (context pa)) <> 0 ->
  let v := wrap_uint (bh (callback pa) run_time (context pa)) in
  let p' := with_remaining_time (requeued_time (remaining_time pa) run_time v) pa in
  exists q' h',
    run_top bh q mask run_time st =
      Ok ((remaining_time p', q'),
          mk_state h' (tail (alloc_plan st))
            (calls st ++ [mk_call (callback pa) run_time (context pa)])) /\
    preserves (ns1 ++ (a, pa) :: ns2) (heap st) h' /\
    if grants (alloc_plan st) then
      exists a', (a' = a \/ heap st !! a' = None) /\
        is_queue h' q' (insert_sorted (a', p') (ns1 ++ ns2))
    else is_queue h' q' (ns1 ++ ns2).
Proof.
  intros Hq Huniq Hnice Hskip Hhit Hnz v p'.
  set (ev := mk_call (callback pa) run_time (context pa)).
  pose proof Hq as [Hseg Hnd Hheap Htop _ _].
  pose proof Hseg as Hseg'. apply dlseg_app in Hseg' as [_ [Hcell _]].
  cbn [fst snd] in Hcell.
  pose proof (is_queue_set_process _ _ _ _ _ _ _ p' Hq Hcell) as Hq1.
  cbn [set_process process next prev] in Hq1.
  set (h1 := <[a := mk_item p' (hd_ptr ns2 None) (last_ptr ns1 None)]> (heap st)) in *.
  destruct (pop_top_first q mask OutVar (set_heap h1 (called ev st)) ns1 (a, p') ns2
              Hq1 Hskip Hhit) as (q1 & h2 & Hpop & Hq2 & Hpres2 & Hna2 & Hgone).
  { intros o [=]. }
  cbn [heap set_heap fst snd written_to] in Hpop, Hpres2, Hna2, Hgone.
  change (set_heap h2 (set_heap h1 (called ev st))) with (set_heap h2 (called ev st)) in Hpop.
  assert (Hsize : (base.size h2 < base.size (heap st))%nat).
  { eapply (free_size _ _ a); [|exact Hcell|exact Hgone].
    intros b Hb. apply Hna2. unfold h1. apply lookup_insert_None. split; [exact Hb|].
    intros ->. congruence. }
  rewrite fmap_app, fmap_cons in Huniq. apply unique_remove in Huniq as [Huniq Hid].
  rewrite <- fmap_app in Hid.
  pose proof (push_after_free q1 p' (called ev st) h2 (ns1 ++ ns2) Hq2 ltac:(lia) Hnice Hid)
    as Hpush.
  cbn [alloc_plan calls called] in Hpush.
  assert (Hpres : preserves (ns1 ++ (a, pa) :: ns2) (heap st) h2).
  { intros b x Hb Hx. apply Hpres2.
    - rewrite fmap_app, fmap_cons in Hb |- *. exact Hb.
    - unfold h1. rewrite lookup_insert_ne; [exact Hx|].
      intros ->. apply Hb. rewrite fmap_app, fmap_cons. apply elem_of_app. right.
      apply elem_of_cons. auto. }
  assert (Hbody : forall (res : push_result) q2 st2,
    push_to_queue q1 p' (set_heap h2 (called ev st)) = Ok ((res, q2), st2) ->
    run_top bh q mask run_time st = Ok ((remaining_time p', q2), st2)).
  { intros res q2 st2 Hp. unfold run_top. destruct (top q) eqn:Htq.
    - rewrite (bind_Ok _ _ _ _ _ (get_top_first q mask st ns1 (a, pa) ns2 Hq Hskip Hhit)).
      cbn [fst]. rewrite (bind_load _ _ _ _ Hcell). cbn [process].
      unfold bind at 1. unfold invoke. fold v. fold ev. fold (called ev st).
      rewrite (proj2 (Z.eqb_neq v 0) Hnz).
      erewrite bind_load by (cbn [heap called]; exact Hcell). cbn [process].
      assert (Hstore :
        (if run_time <? remaining_time pa
         then store a (fun it => set_process
                (with_remaining_time
                   (wrap_uint (remaining_time (process it) - run_time + v))
                   (process it)) it)
         else store a (fun it => set_process (with_remaining_time v (process it)) it))
          (called ev st) = Ok (tt, set_heap h1 (called ev st))).
      { unfold h1, p', requeued_time.
        destruct (run_time <? remaining_time pa); unfold store; cbn [heap called];
          rewrite Hcell; reflexivity. }
      rewrite (bind_Ok _ _ _ _ _ Hstore), (bind_Ok _ _ _ _ _ Hpop).
      rewrite (bind_Ok _ _ _ _ _ Hp). reflexivity.
    - rewrite hd_ptr_app in Htop. destruct ns1; discriminate. }
  destruct (grants (alloc_plan st)).
  - destruct Hpush as (a' & q' & h' & Ha' & Hp & Hq' & Hpres' & Hna').
    exists q', h'. split; [exact (Hbody _ _ _ Hp)|]. split.
    + intros b x Hb Hx. apply Hpres'; [|apply Hpres; assumption].
      intros Hin. apply Hb. rewrite fmap_app, fmap_cons.
      rewrite fmap_app in Hin. apply elem_of_app in Hin as [Hin|Hin];
        apply elem_of_app; [left|right; apply elem_of_cons; right]; exact Hin.
    + exists a'. split; [|exact Hq'].
      destruct (decide (a' = a)) as [->|Hne]; [auto|]. right.
      destruct (heap st !! a') as [x|] eqn:Hx; [|reflexivity].
      destruct (decide (a' ∈ (ns1 ++ (a, pa) :: ns2).*1)) as [Hin|Hnotin].
      * rewrite fmap_app, fmap_cons in Hin. cbn [fst] in Hin.
        assert (Hin' : a' ∈ (ns1 ++ ns2).*1).
        { rewrite fmap_app. apply elem_of_app in Hin as [Hin|Hin];
            [apply elem_of_app; auto|].
          apply elem_of_cons in Hin as [Hin|Hin]; [contradiction|].
          apply elem_of_app; auto. }
        destruct (dlseg_allocated _ _ _ _ _ (q_chain _ _ _ Hq2) Hin'). congruence.
      * rewrite (Hpres _ _ Hnotin Hx) in Ha'. discriminate.
  - exists q1, h2. split; [exact (Hbody _ _ _ Hpush)|]. split; [exact Hpres|exact Hq2].
Qed.

(** ** Copying *)

Lemma extends_release h0 h cs : extends h0 h cs -> release cs h = h0.
Proof.
  intros [Hfresh Hkeeps Honly]. apply map_eq. intros b.
  destruct (decide (b ∈ cs.*1)) as [Hin|Hnotin].
  - rewrite release_lookup_in by exact Hin. symmetry. auto.
  - rewrite release_lookup_notin by exact Hnotin.
    destruct (h0 !! b) as [x|] eqn:Hb; [auto|].
    destruct (Honly b Hb); [contradiction|assumption].
Qed.

Lemma copy_loop_spec h0 ms : forall fuel st prv new_queue cs,
  dlseg (heap st) prv ms None ->
  (length ms <= fuel)%nat ->
  (forall b, b ∈ ms.*1 -> is_Some (h0 !! b)) ->
  is_queue (heap st) new_queue cs ->
  extends h0 (heap st) cs ->
  exists st', calls st' = calls st /\
    ((exists new_queue' cs',
        copy_succeeds (length ms) (alloc_plan st) (base.size (heap st)) = true /\
        copy_loop fuel (hd_ptr ms None) new_queue st = Ok (Some new_queue', st') /\
        is_queue (heap st') new_queue' (cs ++ cs') /\
        cs'.*2 = ms.*2 /\
        extends h0 (heap st') (cs ++ cs')) \/
     (copy_succeeds (length ms) (alloc_plan st) (base.size (heap st)) = false /\
      copy_loop fuel (hd_ptr ms None) new_queue st = Ok (None, st') /\
      heap st' = h0)).
Proof.
  induction ms as [|[a pa] ms IH]; intros fuel st prv new_queue cs Hseg Hfuel Hsrc Hnew Hext.
  - exists st. split; [reflexivity|]. left. exists new_queue, [].
    rewrite app_nil_r. destruct fuel; cbn; auto.
  - destruct fuel as [|fuel]; [cbn in Hfuel; lia|].
    destruct Hseg as [Hcell Hseg]. cbn [fst snd] in Hcell, Hseg.
    cbn [hd_ptr copy_loop fst]. rewrite (bind_load _ _ _ _ Hcell). cbn [process].
    destruct (allocates st) eqn:Hal.
    + (* a node is allocated and linked after the bottom of the copy *)
      destruct (create_item_succeeds pa None None st Hal) as (n & Hn & Hcreate).
      rewrite (bind_Ok _ _ _ _ _ Hcreate).
      pose proof (allocates_room _ Hal) as Hroom.
      pose proof Hnew as [Hchain Hnd Hheap Htop Hbot Hsz].
      pose proof Hext as [Hfresh Hkeeps Honly].
      assert (Hn0 : h0 !! n = None).
      { destruct (h0 !! n) as [x|] eqn:E; [|reflexivity].
        rewrite (Hkeeps _ _ E) in Hn. discriminate. }
      assert (Hncs : n ∉ cs.*1).
      { intros Hin. destruct (dlseg_allocated _ _ _ _ _ Hchain Hin). congruence. }
      assert (Hsrc_n : forall x, x ∈ (a :: ms.*1) -> x <> n).
      { intros x Hx ->. destruct (Hsrc n Hx). congruence. }
      assert (Hsrc_cs : forall x, x ∈ (a :: ms.*1) -> x ∉ cs.*1).
      { intros x Hx Hin. destruct (Hsrc x Hx). rewrite (Hfresh x Hin) in *. discriminate. }
      assert (Hlen : Z.of_nat (length cs) + 1 < SIZE_MOD).
      { pose proof (dlseg_length _ _ _ _ Hchain Hnd). lia. }
      assert (Hsz' : wrap_size (size new_queue + 1) = Z.of_nat (length (cs ++ [(n, pa)]))).
      { rewrite Hsz, length_app, wrap_size_small; cbn [length]; lia. }
      assert (Hfinish : forall st4 nq,
        calls st4 = calls st ->
        alloc_plan st4 = tail (alloc_plan st) ->
        base.size (heap st4) = S (base.size (heap st)) ->
        is_queue (heap st4) nq (cs ++ [(n, pa)]) ->
        extends h0 (heap st4) (cs ++ [(n, pa)]) ->
        (forall x, x ∈ (a :: ms.*1) -> heap st4 !! x = heap st !! x) ->
        exists st', calls st' = calls st /\
          ((exists new_queue' cs',
              copy_succeeds (length ((a, pa) :: ms)) (alloc_plan st)
                (base.size (heap st)) = true /\
              copy_loop fuel (hd_ptr ms None) nq st4 = Ok (Some new_queue', st') /\
              is_queue (heap st') new_queue' (cs ++ cs') /\
              cs'.*2 = ((a, pa) :: ms).*2 /\
              extends h0 (heap st') (cs ++ cs')) \/
           (copy_succeeds (length ((a, pa) :: ms)) (alloc_plan st)
              (base.size (heap st)) = false /\
            copy_loop fuel (hd_ptr ms None) nq st4 = Ok (None, st') /\
            heap st' = h0))).
      { intros st4 nq Hcalls Hplan4 Hsize4 Hq4 Hext4 Hsame.
        assert (Hhead : forall b,
          copy_succeeds (length ms) (alloc_plan st4) (base.size (heap st4)) = b ->
          copy_succeeds (length ((a, pa) :: ms)) (alloc_plan st) (base.size (heap st)) = b).
        { intros b <-. cbn [length copy_succeeds]. fold (has_room (heap st)).
          fold (allocates st). rewrite Hal, Hplan4, Hsize4. reflexivity. }
        destruct (IH fuel st4 (Some a) nq (cs ++ [(n, pa)])) as (st' & Hc' & Hres).
        - apply (dlseg_frame _ _ _ _ _ Hseg). intros x Hx. apply Hsame, elem_of_cons. auto.
        - cbn in Hfuel. lia.
        - intros x Hx. apply Hsrc. rewrite fmap_cons. apply elem_of_cons. auto.
        - exact Hq4.
        - exact Hext4.
        - exists st'. split; [congruence|].
          destruct Hres as [(nq' & cs' & Hyes & Hrun & Hq' & Hproc & Hext')|(Hno & Hrun & Hheap')].
          + left. exists nq', ((n, pa) :: cs'). rewrite <- app_assoc in Hq', Hext'.
            split; [exact (Hhead _ Hyes)|].
            split; [exact Hrun|]. split; [exact Hq'|]. split; [|exact Hext'].
            rewrite !fmap_cons, Hproc. reflexivity.
          + right. split; [exact (Hhead _ Hno)|]. auto. }
      destruct cs as [|[b pb] cs0 _] using rev_ind.
      * (* the first node of the copy *)
        cbn [hd_ptr last_ptr] in Htop, Hbot. rewrite Htop. cbn [set_top set_bottom bottom top size].
        rewrite Hbot, bind_ret.
        erewrite bind_store by (cbn [heap allocated]; apply lookup_insert_eq).
        erewrite bind_load by (cbn [heap allocated set_heap]; heap_simpl; exact Hcell).
        cbn [next set_next process prev heap allocated]. rewrite insert_insert_eq.
        apply Hfinish; [reflexivity|reflexivity| | |split|]; cbn [heap set_heap].
        -- apply map_size_insert_None, Hn.
        -- split; cbn [top bottom size set_size app hd_ptr last_ptr fst]; try reflexivity.
           ++ split; [|exact I]. apply lookup_insert_eq.
           ++ apply NoDup_singleton.
           ++ rewrite map_size_insert_None by exact Hn. lia.
           ++ exact Hsz'.
        -- intros x Hx. cbn in Hx. apply list_elem_of_singleton in Hx. subst x. exact Hn0.
        -- intros x y Hx. rewrite lookup_insert_ne; [auto|]. congruence.
        -- intros x Hx. destruct (decide (x = n)) as [->|Hne].
           ++ left. cbn. apply list_elem_of_singleton. reflexivity.
           ++ right. rewrite lookup_insert_ne by congruence.
              destruct (Honly x Hx) as [Hin|Hnone]; [inversion Hin|exact Hnone].
        -- intros x Hx. apply lookup_insert_ne. intros <-. apply (Hsrc_n n Hx). reflexivity.
      * (* a further node of the copy *)
        rewrite last_ptr_app in Hbot. cbn [last_ptr fst] in Hbot.
        destruct (top new_queue) as [t|] eqn:Htq;
          [|exfalso; rewrite hd_ptr_app in Htop; destruct cs0; discriminate].
        rewrite Hbot. cbn [set_top set_bottom bottom top size].
        apply dlseg_app in Hchain as [Hchain0 [Hb _]]. cbn [fst snd hd_ptr] in Hchain0, Hb.
        rewrite fmap_app in Hnd, Hncs. cbn [fmap list_fmap] in Hnd, Hncs.
        pose proof Hnd as Hnd'. apply NoDup_app in Hnd' as (Hnd0 & Hb0 & _).
        assert (Hbn : b <> n) by (intros ->; congruence).
        assert (Hab : a <> b).
        { intros ->. apply (Hsrc_cs b); [apply elem_of_cons; auto|].
          rewrite fmap_app. apply elem_of_app. right. apply elem_of_cons. auto. }
        rewrite bind_assoc.
        erewrite bind_store by (cbn [heap allocated]; apply lookup_insert_eq).
        erewrite bind_store by (cbn [heap allocated set_heap]; heap_simpl; exact Hb).
        erewrite bind_store by (cbn [heap allocated set_heap]; heap_simpl; reflexivity).
        erewrite bind_load by (cbn [heap allocated set_heap]; heap_simpl; exact Hcell).
        cbn [next prev process set_next set_prev heap allocated set_heap].
        assert (Hgrow : base.size
          (<[n := mk_item pa None (Some b)]>
             (<[b := mk_item pb (Some n) (last_ptr cs0 None)]>
                (<[n := mk_item pa None (Some b)]>
                   (<[n := mk_item pa None None]> (heap st))))) = S (base.size (heap st))).
        { rewrite map_size_insert_Some, map_size_insert_Some, map_size_insert_Some,
            map_size_insert_None; [reflexivity|exact Hn|..]; heap_simpl; eauto. }
        apply Hfinish; [reflexivity|reflexivity|exact Hgrow| |split|]; cbn [heap set_heap].
        -- split; cbn [top bottom size set_size set_top set_bottom].
           ++ apply dlseg_app. split; [apply dlseg_app; split|]; [|split; [|exact I]..];
                cbn [fst snd hd_ptr last_ptr].
              ** apply (dlseg_frame _ _ _ _ _ Hchain0). intros x Hx. heap_simpl. reflexivity.
              ** heap_simpl. reflexivity.
              ** rewrite last_ptr_app. heap_simpl. reflexivity.
           ++ rewrite !fmap_app. cbn [fmap list_fmap]. apply NoDup_app.
              split; [exact Hnd|]. split; [|apply NoDup_singleton].
              intros x Hx Hx'. apply list_elem_of_singleton in Hx'. cbn in Hx'. subst x.
              contradiction.
           ++ unfold set_next, set_prev. cbn [process next prev]. rewrite Hgrow. lia.
           ++ rewrite Htq, Htop, !hd_ptr_app. destruct cs0; reflexivity.
           ++ rewrite last_ptr_app. reflexivity.
           ++ exact Hsz'.
        -- intros x Hx. rewrite fmap_app in Hx. apply elem_of_app in Hx as [Hx|Hx].
           ++ apply Hfresh, Hx.
           ++ cbn in Hx. apply list_elem_of_singleton in Hx. subst x. exact Hn0.
        -- intros x y Hx.
           assert (x <> n) by (intros ->; congruence).
           assert (x <> b).
           { intros ->. rewrite Hfresh in Hx; [discriminate|].
             rewrite fmap_app. apply elem_of_app. right. apply elem_of_cons. auto. }
           rewrite !lookup_insert_ne by congruence. auto.
        -- intros x Hx. destruct (decide (x = n)) as [->|Hne].
           ++ left. rewrite fmap_app. apply elem_of_app. right. apply elem_of_cons. auto.
           ++ destruct (Honly x Hx) as [Hin|Hnone].
              ** left. rewrite fmap_app. apply elem_of_app. auto.
              ** right. assert (x <> b) by (intros ->; congruence).
                 rewrite !lookup_insert_ne by congruence. exact Hnone.
        -- intros x Hx. pose proof (Hsrc_n x Hx). pose proof (Hsrc_cs x Hx) as Hxcs.
           assert (x <> b).
           { intros ->. apply Hxcs. rewrite fmap_app. apply elem_of_app. right.
             apply elem_of_cons. auto. }
           rewrite !lookup_insert_ne by congruence. reflexivity.
    + (* the allocation fails: the partial copy is released *)
      rewrite (bind_Ok _ _ _ _ _ (create_item_fails _ _ _ _ Hal)).
      destruct (clear_queue_spec new_queue (refused st) cs Hnew) as (Hclear & _).
      rewrite (bind_Ok _ _ _ _ _ Hclear). eexists.
      split; [|right; split; [|split; [reflexivity|]]].
      * reflexivity.
      * cbn [length copy_succeeds]. fold (has_room (heap st)). fold (allocates st).
        rewrite Hal. reflexivity.
      * cbn [heap set_heap refused]. apply extends_release, Hext.
Qed.

Lemma copy_queue_spec dest source st ms :
  is_queue (heap st) source ms ->
  exists st', calls st' = calls st /\
    ((exists dest' cs,
        copy_succeeds (length ms) (alloc_plan st) (base.size (heap st)) = true /\
        copy_queue dest source st = Ok ((true, dest'), st') /\
        is_queue (heap st') dest' cs /\
        cs.*2 = ms.*2 /\
        extends (heap st) (heap st') cs /\
        is_queue (heap st') source ms) \/
     (copy_succeeds (length ms) (alloc_plan st) (base.size (heap st)) = false /\
      copy_queue dest source st = Ok ((false, dest), st') /\
      heap st' = heap st)).
Proof.
  intros Hsrc. pose proof Hsrc as [Hseg Hnd Hheap Htop Hbot Hsz].
  destruct (copy_loop_spec (heap st) ms (base.size (heap st)) st None create_queue [])
    as (st' & Hcalls & Hres).
  - exact Hseg.
  - eapply dlseg_length; eauto.
  - intros b Hb. eapply dlseg_allocated; eauto.
  - split; [exact I|apply NoDup_nil_2|exact Hheap|reflexivity..].
  - split; [intros b Hb; inversion Hb|auto|auto].
  - exists st'. split; [exact Hcalls|]. unfold copy_queue. rewrite bind_chain_fuel, Htop.
    destruct Hres as [(nq & cs & Hyes & Hrun & Hq & Hproc & Hext)|(Hno & Hrun & Hsame)].
    + left. exists (mk_queue (top nq) (bottom nq) (size nq)), cs.
      rewrite (bind_Ok _ _ _ _ _ Hrun). cbn [app] in *.
      split; [exact Hyes|]. split; [reflexivity|]. split; [destruct nq; exact Hq|]. split; [exact Hproc|].
      split; [exact Hext|]. split; try assumption.
      * apply (dlseg_frame _ _ _ _ _ Hseg). intros b Hb.
        destruct (dlseg_allocated _ _ _ _ _ Hseg Hb) as [x Hx].
        rewrite Hx. apply (ext_keeps _ _ _ Hext), Hx.
      * apply (q_heap _ _ _ Hq).
    + right. rewrite (bind_Ok _ _ _ _ _ Hrun). auto.
Qed.

(** ** Queues side by side *)

(** An operation on the queue with the nodes [ns] that leaves the nodes
    [ns'] keeps every other queue of the heap as it is. *)
Lemma is_queue_framed h h' q ms ns ns' :
  is_queue h q ms -> disjoint ms ns ->
  preserves ns h h' -> fresh_nodes ns ns' h ->
  Z.of_nat (base.size h') < SIZE_MOD ->
  is_queue h' q ms /\ disjoint ms ns'.
Proof.
  intros [Hseg Hnd Hheap Htop Hbot Hsz] Hdisj Hpres Hfresh Hbound. split.
  - split; try assumption.
    apply (dlseg_preserved h h' ns); [exact Hseg|exact Hpres|exact Hdisj].
  - intros b Hb Hb'. destruct (Hfresh b Hb') as [Hin|Hnone].
    + apply (Hdisj b Hb Hin).
    + destruct (dlseg_allocated _ _ _ _ _ Hseg Hb). congruence.
Qed.

(** ** The invariant under the operations *)

Lemma niceness_ok_spec n : niceness_ok n = true <-> 10 <= n <= 49.
Proof.
  unfold niceness_ok. rewrite andb_true_iff, !bool_decide_eq_true. reflexivity.
Qed.

Section contents.
Implicit Types (l : list process_type) (p x : process_type).

Lemma contents_ok_nil : contents_ok [].
Proof.
  split; [apply sorted_nil|]. split; [apply NoDup_nil_2|apply Forall_nil_2].
Qed.

Lemma contents_ok_insert p l :
  contents_ok l -> classify l p = push_success -> 10 <= niceness p <= 49 ->
  contents_ok (insert_process p l).
Proof.
  intros (Hs & Hu & Hn) Hc Hp. split; [apply sorted_insert, Hs|].
  split; [apply unique_insert; assumption|].
  unfold valid_niceness. rewrite insert_process_perm. apply Forall_cons. auto.
Qed.

Lemma contents_ok_remove l1 x l2 :
  contents_ok (l1 ++ x :: l2) ->
  contents_ok (l1 ++ l2) /\ (identity x ∉ identity <$> (l1 ++ l2)) /\
  10 <= niceness x <= 49.
Proof.
  intros (Hs & Hu & Hn). apply unique_remove in Hu as [Hu Hx].
  apply Forall_app in Hn as [Hn1 Hn2]. apply Forall_cons in Hn2 as [Hnx Hn2].
  split; [|auto]. split; [apply (sorted_remove _ _ _ Hs)|].
  split; [exact Hu|]. apply Forall_app. auto.
Qed.

(** Re-inserting an entry after a change that keeps its identity. *)
Lemma contents_ok_requeue l1 x l2 p :
  contents_ok (l1 ++ x :: l2) -> identity p = identity x ->
  10 <= niceness p <= 49 ->
  contents_ok (insert_process p (l1 ++ l2)).
Proof.
  intros Hok Hid Hp. apply contents_ok_remove in Hok as (Hok & Hx & _).
  apply contents_ok_insert; [exact Hok| |exact Hp].
  apply classify_success. rewrite Hid. exact Hx.
Qed.
End contents.

Lemma represents_nodes h q ns : is_queue h q ns -> represents h q ns.*2.
Proof. intros Hq. exists ns. auto. Qed.

Lemma create_queue_invariant h :
  Z.of_nat (base.size h) < SIZE_MOD -> queue_invariant h create_queue.
Proof.
  intros Hb. exists []. split; [|apply contents_ok_nil].
  exists []. split; [|reflexivity].
  split; [exact I|apply NoDup_nil_2|exact Hb|reflexivity..].
Qed.

Lemma last_ptr_Some (ns : list node) a : exists b, last_ptr ns (Some a) = Some b.
Proof. revert a. induction ns as [|n r IH]; intros a; cbn; eauto. Qed.

(** The facts about the struct that the invariant contains. *)
Lemma queue_invariant_struct h q :
  queue_invariant h q ->
  exists l, represents h q l /\ sorted l /\
    size q = Z.of_nat (length l) /\
    (top q = None <-> size q = 0) /\
    (bottom q = None <-> size q = 0).
Proof.
  intros (l & (ns & Hq & <-) & Hs & _). exists ns.*2.
  split; [exists ns; auto|]. destruct Hq as [Hseg Hnd Hheap Htop Hbot Hsz].
  split; [exact Hs|]. rewrite length_fmap. split; [exact Hsz|].
  rewrite Htop, Hbot, Hsz. destruct ns as [|n r].
  - cbn. tauto.
  - cbn [hd_ptr last_ptr length]. destruct (last_ptr_Some r n.1) as [b ->].
    split; split; intros H; try lia; discriminate.
Qed.

(** ** From processes to nodes *)

Lemma represents_split h q l1 p l2 :
  represents h q (l1 ++ p :: l2) ->
  exists ns1 a ns2,
    is_queue h q (ns1 ++ (a, p) :: ns2) /\ ns1.*2 = l1 /\ ns2.*2 = l2.
Proof.
  intros (ns & Hq & Heq).
  apply fmap_app_inv in Heq as (ns1 & ns' & -> & Heq & ->).
  symmetry in Heq. apply fmap_cons_inv in Heq as ([a p'] & ns2 & -> & -> & ->).
  exists ns1, a, ns2. auto.
Qed.

Lemma skip_nodes (f : process_type -> bool) (ns : list node) :
  (forall x, x ∈ ns.*2 -> f x = false) -> forall m, m ∈ ns -> f m.2 = false.
Proof. intros H m Hm. apply H, list_elem_of_fmap_2, Hm. Qed.

(** A list of processes splits at the first process that satisfies [f]. *)
Lemma split_first_process (f : process_type -> bool) (l : list process_type) :
  (forall x, x ∈ l -> f x = false) \/
  (exists l1 p l2, l = l1 ++ p :: l2 /\
     (forall x, x ∈ l1 -> f x = false) /\ f p = true).
Proof.
  induction l as [|p r IH].
  - left. intros x Hx. inversion Hx.
  - destruct (f p) eqn:Hp.
    + right. exists [], p, r. split; [reflexivity|]. split; [|exact Hp].
      intros x Hx. inversion Hx.
    + destruct IH as [IH|(l1 & x & l2 & -> & Hskip & Hx)].
      * left. intros x Hx. apply elem_of_cons in Hx as [->|Hx]; auto.
      * right. exists (p :: l1), x, l2. split; [reflexivity|]. split; [|exact Hx].
        intros y Hy. apply elem_of_cons in Hy as [->|Hy]; auto.
Qed.

(** ** A queue to compute on *)

(** The demonstration queue is what two pushes build. *)
Example demo_built :
  (let* (_, q) := push_to_queue create_queue demo_a in
   let* (_, q) := push_to_queue q demo_b in
   ret q) (mk_state ∅ [] []) = Ok (demo_queue, demo_state).
Proof. vm_compute. reflexivity. Qed.

Lemma demo_is_queue : is_queue demo_heap demo_queue demo_nodes.
Proof.
  split; try reflexivity.
  - repeat split; vm_compute; reflexivity.
  - apply (bool_decide_unpack _). vm_compute. exact I.
Qed.

Lemma demo_contents_ok : contents_ok demo_nodes.*2.
Proof.
  split; [|split].
  - apply sorted_cons. split; [|apply sorted_cons; split; [|apply sorted_nil]].
    + intros y Hy. apply list_elem_of_singleton in Hy. subst y. vm_compute. reflexivity.
    + intros y Hy. inversion Hy.
  - apply (bool_decide_unpack _). vm_compute. exact I.
  - repeat constructor; vm_compute; discriminate.
Qed.

(** ** C2: the comparator *)

(** C2: the comparator is claimed to return true exactly when
    [score a < score b], or the scores are equal and [a] has fewer set
    bits in its CPU mask, with the score the product of niceness and
    remaining time.  On [overflow_a] and [overflow_b] the code answers
    true although the score of [overflow_a] is the larger one: the
    product is computed in [unsigned int] and wraps around to 4 before it
    is stored in the [unsigned long]. *)
Theorem process_evaluation_overflow :
  process_in_range overflow_a /\ process_in_range overflow_b /\
  10 <= niceness overflow_a <= 49 /\ 10 <= niceness overflow_b <= 49 /\
  score overflow_a = 4294967300 /\ score overflow_b = 10 /\
  wrapped_score overflow_a = 4 /\
  process_evaluation overflow_a overflow_b = true /\
  ~ outranks overflow_a overflow_b.
Proof.
  repeat split; try (vm_compute; congruence).
  unfold outranks. vm_compute. intros [H|[H _]]; discriminate.
Qed.

(** ** C6: selection by CPU mask *)

(** C6: [get_top] returns the earliest node of the queue whose CPU mask
    intersects the requested mask and nothing when there is none, and
    leaves the state as it is; [pop_top] finds the same node, unlinks and
    frees exactly it, hands its process to the caller and returns true,
    and returns false with queue and state unchanged when there is no
    such node.  [out] is null or points to a variable of the caller. *)
Theorem get_top_pop_top_first_eligible q mask out st ns :
  is_queue (heap st) q ns ->
  out = OutNull \/ out = OutVar ->
  ((forall m, m ∈ ns -> eligible mask m.2 = false) /\
   get_top q mask st = Ok (None, st) /\
   pop_top q mask out st = Ok ((false, None, q), st)) \/
  (exists ns1 a p ns2 q' h',
     ns = ns1 ++ (a, p) :: ns2 /\
     (forall m, m ∈ ns1 -> eligible mask m.2 = false) /\
     eligible mask p = true /\
     get_top q mask st = Ok (Some a, st) /\
     pop_top q mask out st = Ok ((true, written_to out p, q'), set_heap h' st) /\
     is_queue h' q' (ns1 ++ ns2) /\
     h' !! a = None /\
     preserves ns (heap st) h' /\
     (forall b, heap st !! b = None -> h' !! b = None)).
Proof.
  intros Hq Hout.
  destruct (split_first (eligible mask) ns) as [Hnone|(ns1 & [a p] & ns2 & -> & Hskip & Hhit)].
  - left. split; [exact Hnone|]. split.
    + apply (get_top_none q mask st ns Hq Hnone).
    + apply (pop_top_none q mask out st ns Hq Hnone).
  - right. cbn [snd] in Hhit.
    destruct (pop_top_first q mask out st ns1 (a, p) ns2 Hq Hskip Hhit)
      as (q' & h' & Hpop & Hq' & Hpres & Hna & Hgone).
    { intros o ->. destruct Hout; discriminate. }
    exists ns1, a, p, ns2, q', h'. split; [reflexivity|]. split; [exact Hskip|].
    split; [exact Hhit|]. split; [|auto].
    apply (get_top_first q mask st ns1 (a, p) ns2 Hq Hskip Hhit).
Qed.

(** On the demonstration queue and mask 1 the first node (mask 2) is
    passed over and the second one is selected and removed. *)
Lemma get_top_pop_top_first_eligible_witness :
  get_top demo_queue 1 demo_state = Ok (Some 1%positive, demo_state) /\
  exists q' st',
    pop_top demo_queue 1 OutVar demo_state = Ok ((true, Some demo_a, q'), st') /\
    is_queue (heap st') q' [(2%positive, demo_b)].
Proof.
  destruct (get_top_pop_top_first_eligible demo_queue 1 OutVar demo_state demo_nodes
              demo_is_queue (or_intror eq_refl))
    as [(Hnone & _)|(ns1 & a & p & ns2 & q' & h' & Hns & Hskip & Hhit & Hget & Hpop & Hq' & _)].
  - specialize (Hnone (1%positive, demo_a)).
    assert (Hin : (1%positive, demo_a) ∈ demo_nodes) by (right; left).
    specialize (Hnone Hin). vm_compute in Hnone. discriminate.
  - destruct ns1 as [|n1 [|n2 ns1]].
    + injection Hns; intros; subst. vm_compute in Hhit. discriminate.
    + injection Hns; intros; subst. split; [exact Hget|].
      exists q', (set_heap h' demo_state). split; [exact Hpop|exact Hq'].
    + unfold demo_nodes in Hns. injection Hns as _ _ Hns. destruct ns1; discriminate.
Defined.

(** ** C3: duplicates and conflicts *)

Lemma same_schedule_spec x p :
  same_schedule x p = true <->
  remaining_time x = remaining_time p /\ niceness x = niceness p /\
  cpu_mask x = cpu_mask p.
Proof.
  unfold same_schedule. rewrite !andb_true_iff, !bool_decide_eq_true. tauto.
Qed.

Lemma same_identity_spec p x :
  same_identity (callback p) (context p) x = true <-> identity x = identity p.
Proof.
  unfold same_identity, identity. rewrite andb_true_iff, !bool_decide_eq_true.
  split; [intros [-> ->]; reflexivity|intros [= -> ->]; auto].
Qed.

(** With unique identities validation compares the new process with the
    one queued entry of its identity. *)
Lemma classify_entry l p x :
  unique_identities l -> x ∈ l -> identity p = identity x ->
  classify l p = if same_schedule x p then push_duplicate else push_inconsistent.
Proof.
  intros Hu Hx Hid. induction l as [|y r IH]; [inversion Hx|].
  unfold unique_identities in Hu. rewrite fmap_cons in Hu.
  apply NoDup_cons in Hu as [Hy Hu]. cbn [classify].
  destruct (same_identity (callback p) (context p) y) eqn:Hsame.
  - apply same_identity_spec in Hsame.
    apply elem_of_cons in Hx as [->|Hx]; [reflexivity|].
    contradiction Hy. rewrite Hsame, Hid. apply list_elem_of_fmap_2, Hx.
  - apply elem_of_cons in Hx as [->|Hx]; [|auto].
    symmetry in Hid. apply same_identity_spec in Hid. congruence.
Qed.

(** C3: pushing a process whose (callback, context) identity is that of a
    queued entry [x] returns [push_duplicate] when remaining time,
    niceness and CPU mask are those of [x] and [push_inconsistent] when
    one of them differs; the push returns the queue struct as it was and
    leaves the whole state (heap, allocator, callbacks) untouched. *)
Theorem push_identity_conflict q p x st l :
  represents (heap st) q l -> unique_identities l ->
  10 <= niceness p <= 49 ->
  x ∈ l -> identity p = identity x ->
  (remaining_time x = remaining_time p /\ niceness x = niceness p /\
   cpu_mask x = cpu_mask p ->
   push_to_queue q p st = Ok ((push_duplicate, q), st)) /\
  (~ (remaining_time x = remaining_time p /\ niceness x = niceness p /\
      cpu_mask x = cpu_mask p) ->
   push_to_queue q p st = Ok ((push_inconsistent, q), st)).
Proof.
  intros (ns & Hq & <-) Hu Hnice Hx Hid.
  apply niceness_ok_spec in Hnice.
  pose proof (classify_entry _ _ _ Hu Hx Hid) as Hcl.
  split; intros Hsame.
  - apply same_schedule_spec in Hsame. rewrite Hsame in Hcl.
    rewrite <- Hcl. apply push_to_queue_rejected; [exact Hq|exact Hnice|].
    rewrite Hcl. discriminate.
  - assert (Hno : same_schedule x p = false).
    { destruct (same_schedule x p) eqn:E; [|reflexivity].
      apply same_schedule_spec in E. contradiction. }
    rewrite Hno in Hcl. rewrite <- Hcl.
    apply push_to_queue_rejected; [exact Hq|exact Hnice|]. rewrite Hcl. discriminate.
Qed.

(** Pushing [demo_a] again is a duplicate; pushing it with niceness 11
    is inconsistent. *)
Lemma push_identity_conflict_witness :
  push_to_queue demo_queue demo_a demo_state = Ok ((push_duplicate, demo_queue), demo_state) /\
  push_to_queue demo_queue (with_niceness 11 demo_a) demo_state =
    Ok ((push_inconsistent, demo_queue), demo_state).
Proof.
  split.
  - apply (push_identity_conflict demo_queue demo_a demo_a demo_state demo_nodes.*2).
    + apply represents_nodes, demo_is_queue.
    + apply demo_contents_ok.
    + vm_compute. split; discriminate.
    + right. left.
    + reflexivity.
    + repeat split; reflexivity.
  - apply (push_identity_conflict demo_queue (with_niceness 11 demo_a) demo_a demo_state
             demo_nodes.*2).
    + apply represents_nodes, demo_is_queue.
    + apply demo_contents_ok.
    + vm_compute. split; discriminate.
    + right. left.
    + reflexivity.
    + intros (_ & H & _). vm_compute in H. discriminate.
Defined.

(** ** C10: the process [run_top] runs, removes and re-pushes *)

(** C10: when some queued process is eligible for the requested mask,
    [run_top] invokes the callback of the earliest eligible process, the
    one in the node [get_top] returns, exactly once; the node it then
    removes is that node, although [pop_top] searches the chain again
    after the remaining time was written into the node; and on a non-zero
    return it is that process, with the new remaining time, that is
    pushed again (and linked when the allocator grants the node). *)
Theorem run_top_runs_first_eligible bh q mask run_time st ns1 a p ns2 :
  is_queue (heap st) q (ns1 ++ (a, p) :: ns2) ->
  contents_ok (ns1 ++ (a, p) :: ns2).*2 ->
  (forall m, m ∈ ns1 -> eligible mask m.2 = false) ->
  eligible mask p = true ->
  let v := wrap_uint (bh (callback p) run_time (context p)) in
  let p' := with_remaining_time (requeued_time (remaining_time p) run_time v) p in
  get_top q mask st = Ok (Some a, st) /\
  exists r q' st',
    run_top bh q mask run_time st = Ok ((r, q'), st') /\
    calls st' = calls st ++ [mk_call (callback p) run_time (context p)] /\
    (v = 0 -> is_queue (heap st') q' (ns1 ++ ns2) /\ heap st' !! a = None) /\
    (v <> 0 ->
     if grants (alloc_plan st) then
       exists a', (a' = a \/ heap st !! a' = None) /\
         is_queue (heap st') q' (insert_sorted (a', p') (ns1 ++ ns2))
     else is_queue (heap st') q' (ns1 ++ ns2)).
Proof.
  intros Hq Hok Hskip Hhit v p'.
  split; [apply (get_top_first q mask st ns1 (a, p) ns2 Hq Hskip Hhit)|].
  destruct (decide (v = 0)) as [Hz|Hnz].
  - destruct (run_top_done bh q mask run_time st ns1 a p ns2 Hq Hskip Hhit Hz)
      as (q' & h' & Hrun & Hq' & _ & _ & Hgone).
    eexists _, q', _. split; [exact Hrun|]. split; [reflexivity|].
    split; [auto|]. intros Hv. contradiction.
  - pose proof Hok as (_ & Hu & Hn).
    assert (Hnice : niceness_ok (niceness p) = true).
    { apply niceness_ok_spec. rewrite fmap_app, fmap_cons in Hn.
      apply Forall_app in Hn as [_ Hn]. apply Forall_cons in Hn as [Hn _]. exact Hn. }
    destruct (run_top_requeue bh q mask run_time st ns1 a p ns2 Hq Hu Hnice Hskip Hhit Hnz)
      as (q' & h' & Hrun & _ & Hres).
    eexists _, q', _. split; [exact Hrun|]. split; [reflexivity|].
    split; [intros Hv; contradiction|]. intros _. exact Hres.
Qed.

(** On the demonstration queue, mask 1 and a callback that returns 7, the
    callback of [demo_a] (the second node) is the one invoked. *)
Lemma run_top_runs_first_eligible_witness :
  get_top demo_queue 1 demo_state = Ok (Some 1%positive, demo_state) /\
  exists r q' st',
    run_top (fun _ _ _ => 7) demo_queue 1 5 demo_state = Ok ((r, q'), st') /\
    calls st' = [mk_call 1 5 0].
Proof.
  destruct (run_top_runs_first_eligible (fun _ _ _ => 7) demo_queue 1 5 demo_state
              [(2%positive, demo_b)] 1%positive demo_a [] demo_is_queue demo_contents_ok)
    as (Hget & r & q' & st' & Hrun & Hcalls & _).
  - intros m Hm. apply list_elem_of_singleton in Hm. subst m. reflexivity.
  - reflexivity.
  - split; [exact Hget|]. exists r, q', st'. split; [exact Hrun|exact Hcalls].
Defined.

(** ** C4: the remaining time after a non-zero return *)


Lemma is_queue_size h q ns : is_queue h q ns -> size q = Z.of_nat (length ns).
Proof. apply q_size. Qed.



(** What [run_top] does when the allocator refuses the node of the
    re-push: the process is dropped and the new remaining time is
    returned all the same. *)
Lemma run_top_refused bh q mask run_time st l1 p l2 :
  represents (heap st) q (l1 ++ p :: l2) ->
  contents_ok (l1 ++ p :: l2) ->
  (forall x, x ∈ l1 -> eligible mask x = false) ->
  eligible mask p = true ->
  wrap_uint (bh (callback p) run_time (context p)) <> 0 ->
  grants (alloc_plan st) = false ->
  let v := wrap_uint (bh (callback p) run_time (context p)) in
  exists q' st',
    run_top bh q mask run_time st =
      Ok ((requeued_time (remaining_time p) run_time v, q'), st') /\
    represents (heap st') q' (l1 ++ l2) /\
    size q' = size q - 1.
Proof.
  intros Hrep Hok Hskip Hhit Hnz Hgrants v.
  destruct (represents_split _ _ _ _ _ Hrep) as (ns1 & a & ns2 & Hq & <- & <-).
  pose proof Hok as (_ & Hu & Hn).
  assert (Hnice : niceness_ok (niceness p) = true).
  { apply niceness_ok_spec.
    apply Forall_app in Hn as [_ Hn]. apply Forall_cons in Hn as [Hn _]. exact Hn. }
  replace (ns1.*2 ++ p :: ns2.*2) with ((ns1 ++ (a, p) :: ns2).*2) in Hu
    by (rewrite fmap_app; reflexivity).
  destruct (run_top_requeue bh q mask run_time st ns1 a p ns2 Hq Hu Hnice
              (skip_nodes _ _ Hskip) Hhit Hnz) as (q' & h' & Hrun & _ & Hres).
  rewrite Hgrants in Hres.
  eexists q', _. split; [exact Hrun|]. cbn [heap]. split.
  - exists (ns1 ++ ns2). split; [exact Hres|]. apply fmap_app.
  - rewrite (is_queue_size _ _ _ Hres), (is_queue_size _ _ _ Hq), !length_app.
    cbn [length]. lia.
Qed.


(** ** C5: when [run_top] returns 0 *)

(** C5 as stated fails: with remaining time 4294967295, quantum 0 and a
    callback that returns 1 an eligible process is run, its callback
    does not return 0, and [run_top] still returns 0, because the new
    remaining time 4294967295 - 0 + 1 wraps around to 0; the process
    stays queued. *)
Lemma run_top_zero_after_nonzero_return :
  eligible 1 long_process = true /\
  wrap_uint ((fun _ _ _ : Z => 1) (callback long_process) 0 (context long_process)) <> 0 /\
  exists q' st',
    run_top (fun _ _ _ => 1) long_queue 1 0 long_state = Ok ((0, q'), st') /\
    is_queue (heap st') q' [(1%positive, with_remaining_time 0 long_process)] /\
    size q' = 1.
Proof.
  split; [reflexivity|]. split; [vm_compute; discriminate|].
  eexists _, _. split; [vm_compute; reflexivity|]. split; [|reflexivity].
  split; try reflexivity.
  - repeat split; vm_compute; reflexivity.
  - apply (bool_decide_unpack _). vm_compute. exact I.
Qed.

Lemma wrap_uint_range z : 0 <= wrap_uint z < UINT_MOD.
Proof. apply Z.mod_pos_bound. reflexivity. Qed.

(** The new remaining time is 0 only when the sum is exactly [2^32]. *)
Lemma requeued_time_zero rt run_time v :
  0 <= rt < UINT_MOD -> 0 <= run_time < UINT_MOD -> 0 < v < UINT_MOD ->
  (requeued_time rt run_time v = 0 <-> run_time < rt /\ rt - run_time + v = UINT_MOD).
Proof.
  intros Hrt Hrun Hv. unfold requeued_time, wrap_uint.
  destruct (Z.ltb_spec run_time rt) as [Hlt|Hge].
  - split.
    + intros Hmod. split; [exact Hlt|].
      assert (HM : 0 < UINT_MOD) by reflexivity.
      apply Z.mod_divide in Hmod; [|lia]. destruct Hmod as [k Hk].
      assert (k = 1) by nia. subst k. lia.
    + intros [_ ->]. apply Z.mod_same. discriminate.
  - split; [lia|]. intros [Hlt _]. lia.
Qed.

(** C5, amended: [run_top] returns 0 when no queued process's CPU mask
    intersects the requested mask (then no callback is invoked and queue
    and state are unchanged) and when the invoked callback returns 0
    (then the entry of that identity leaves the queue and the size
    decreases by 1); when the callback returns a non-zero value it
    returns the new remaining time, which is 0 exactly when the prior
    remaining time exceeds [run_time] and
    [remaining_time - run_time + v = 2^32]. *)
Theorem run_top_returns_zero bh q mask run_time st l :
  represents (heap st) q l ->
  contents_ok l ->
  Forall process_in_range l ->
  0 <= run_time < UINT_MOD ->
  ((forall x, x ∈ l -> eligible mask x = false) /\
   run_top bh q mask run_time st = Ok ((0, q), st)) \/
  (exists l1 p l2,
     l = l1 ++ p :: l2 /\
     (forall x, x ∈ l1 -> eligible mask x = false) /\
     eligible mask p = true /\
     let v := wrap_uint (bh (callback p) run_time (context p)) in
     exists r q' st',
       run_top bh q mask run_time st = Ok ((r, q'), st') /\
       calls st' = calls st ++ [mk_call (callback p) run_time (context p)] /\
       (v = 0 ->
        r = 0 /\ represents (heap st') q' (l1 ++ l2) /\
        size q' = size q - 1 /\ identity p ∉ identity <$> (l1 ++ l2)) /\
       (v <> 0 ->
        r = requeued_time (remaining_time p) run_time v /\
        (r = 0 <->
         run_time < remaining_time p /\ remaining_time p - run_time + v = 2 ^ 32))).
Proof.
  intros Hrep Hok Hrange Hrun.
  destruct (split_first_process (eligible mask) l) as [Hnone|(l1 & p & l2 & -> & Hskip & Hhit)].
  - left. split; [exact Hnone|]. destruct Hrep as (ns & Hq & <-).
    apply (run_top_none bh q mask run_time st ns Hq (skip_nodes _ _ Hnone)).
  - right. exists l1, p, l2. split; [reflexivity|]. split; [exact Hskip|].
    split; [exact Hhit|]. intros v.
    destruct (represents_split _ _ _ _ _ Hrep) as (ns1 & a & ns2 & Hq & <- & <-).
    pose proof (contents_ok_remove _ _ _ Hok) as (_ & Hid & Hn).
    pose proof Hok as (_ & Hu & _).
    replace (ns1.*2 ++ p :: ns2.*2) with ((ns1 ++ (a, p) :: ns2).*2) in Hu
      by (rewrite fmap_app; reflexivity).
    destruct (decide (v = 0)) as [Hz|Hnz].
    + destruct (run_top_done bh q mask run_time st ns1 a p ns2 Hq (skip_nodes _ _ Hskip)
                  Hhit Hz) as (q' & h' & Hrun' & Hq' & _).
      eexists 0, q', _. split; [exact Hrun'|]. split; [reflexivity|].
      split; [|intros Hv; contradiction]. intros _. split; [reflexivity|].
      cbn [heap]. split; [|split; [|exact Hid]].
      * exists (ns1 ++ ns2). split; [exact Hq'|]. apply fmap_app.
      * rewrite (is_queue_size _ _ _ Hq'), (is_queue_size _ _ _ Hq), !length_app.
        cbn [length]. lia.
    + destruct (run_top_requeue bh q mask run_time st ns1 a p ns2 Hq Hu
                  (proj2 (niceness_ok_spec _) Hn) (skip_nodes _ _ Hskip) Hhit Hnz)
        as (q' & h' & Hrun' & _).
      eexists _, q', _. split; [exact Hrun'|]. split; [reflexivity|].
      split; [intros Hv; contradiction|]. intros _. split; [reflexivity|].
      cbn [remaining_time with_remaining_time]. apply requeued_time_zero.
      * apply Forall_app in Hrange as [_ Hr]. apply Forall_cons in Hr as [(_ & Hr & _) _].
        exact Hr.
      * exact Hrun.
      * pose proof (wrap_uint_range (bh (callback p) run_time (context p))). fold v in H.
        lia.
Qed.

(** On the demonstration queue with mask 4 no process is eligible; with
    mask 1 and a callback that returns 0, [demo_a] leaves the queue. *)
Lemma run_top_returns_zero_witness :
  run_top (fun _ _ _ => 0) demo_queue 4 5 demo_state = Ok ((0, demo_queue), demo_state) /\
  exists q' st',
    run_top (fun _ _ _ => 0) demo_queue 1 5 demo_state = Ok ((0, q'), st') /\
    represents (heap st') q' [demo_b].
Proof.
  assert (Hrep : represents (heap demo_state) demo_queue demo_nodes.*2)
    by apply (represents_nodes _ _ _ demo_is_queue).
  assert (Hrange : Forall process_in_range demo_nodes.*2)
    by (repeat constructor; vm_compute; discriminate).
  assert (Hrun : 0 <= 5 < UINT_MOD) by (split; [discriminate|reflexivity]).
  split.
  - destruct (run_top_returns_zero (fun _ _ _ => 0) demo_queue 4 5 demo_state
                demo_nodes.*2 Hrep demo_contents_ok Hrange Hrun)
      as [[_ H]|(l1 & p & l2 & Hl & Hskip & Hhit & _)]; [exact H|].
    exfalso. destruct l1 as [|x1 [|x2 l1]].
    + injection Hl; intros; subst. vm_compute in Hhit. discriminate.
    + injection Hl; intros; subst. vm_compute in Hhit. discriminate.
    + injection Hl as _ _ Hl. destruct l1; discriminate.
  - destruct (run_top_returns_zero (fun _ _ _ => 0) demo_queue 1 5 demo_state
                demo_nodes.*2 Hrep demo_contents_ok Hrange Hrun)
      as [[Hnone _]|(l1 & p & l2 & Hl & Hskip & Hhit & r & q' & st' & Hrun' & _ & Hzero & _)].
    + exfalso. assert (Hin : demo_a ∈ demo_nodes.*2) by (right; left).
      specialize (Hnone _ Hin). vm_compute in Hnone. discriminate.
    + destruct l1 as [|x1 [|x2 l1]].
      * injection Hl; intros; subst. vm_compute in Hhit. discriminate.
      * injection Hl; intros; subst.
        destruct (Hzero eq_refl) as (-> & Hrep' & _).
        exists q', st'. split; [exact Hrun'|exact Hrep'].
      * exfalso. injection Hl as _ _ Hl. destruct l1; discriminate.
Defined.

(** ** C7: renice *)

(** What [renice] does to the queued processes when the allocator grants
    the node of the re-push. *)
Lemma renice_requeues q cb ctx nice st l1 p l2 :
  represents (heap st) q (l1 ++ p :: l2) ->
  contents_ok (l1 ++ p :: l2) ->
  (forall x, x ∈ l1 -> same_identity cb ctx x = false) ->
  same_identity cb ctx p = true ->
  10 <= nice <= 49 ->
  grants (alloc_plan st) = true ->
  exists q' st',
    renice q cb ctx nice st = Ok ((true, q'), st') /\
    represents (heap st') q' (insert_process (with_niceness nice p) (l1 ++ l2)) /\
    contents_ok (insert_process (with_niceness nice p) (l1 ++ l2)).
Proof.
  intros Hrep Hok Hskip Hhit Hnice Hgrants.
  destruct (represents_split _ _ _ _ _ Hrep) as (ns1 & a & ns2 & Hq & <- & <-).
  pose proof Hok as (_ & Hu & _).
  replace (ns1.*2 ++ p :: ns2.*2) with ((ns1 ++ (a, p) :: ns2).*2) in Hu
    by (rewrite fmap_app; reflexivity).
  destruct (renice_hit q cb ctx nice st ns1 a p ns2 Hq Hu (skip_nodes _ _ Hskip) Hhit
              (proj2 (niceness_ok_spec _) Hnice)) as (q' & h' & Hrun & _ & Hres).
  rewrite Hgrants in Hres. destruct Hres as (a' & _ & Hq').
  eexists q', _. split; [exact Hrun|]. cbn [heap]. split.
  - exists (insert_sorted (a', with_niceness nice p) (ns1 ++ ns2)). split; [exact Hq'|].
    rewrite insert_sorted_processes, fmap_app. reflexivity.
  - apply (contents_ok_requeue _ p); [exact Hok|reflexivity|exact Hnice].
Qed.

(** What [renice] does when the allocator refuses the node of the
    re-push: the entry is dropped and [renice] still returns true. *)
Lemma renice_refused q cb ctx nice st l1 p l2 :
  represents (heap st) q (l1 ++ p :: l2) ->
  contents_ok (l1 ++ p :: l2) ->
  (forall x, x ∈ l1 -> same_identity cb ctx x = false) ->
  same_identity cb ctx p = true ->
  10 <= nice <= 49 ->
  grants (alloc_plan st) = false ->
  exists q' st',
    renice q cb ctx nice st = Ok ((true, q'), st') /\
    represents (heap st') q' (l1 ++ l2) /\
    size q' = size q - 1.
Proof.
  intros Hrep Hok Hskip Hhit Hnice Hgrants.
  destruct (represents_split _ _ _ _ _ Hrep) as (ns1 & a & ns2 & Hq & <- & <-).
  pose proof Hok as (_ & Hu & _).
  replace (ns1.*2 ++ p :: ns2.*2) with ((ns1 ++ (a, p) :: ns2).*2) in Hu
    by (rewrite fmap_app; reflexivity).
  destruct (renice_hit q cb ctx nice st ns1 a p ns2 Hq Hu (skip_nodes _ _ Hskip) Hhit
              (proj2 (niceness_ok_spec _) Hnice)) as (q' & h' & Hrun & _ & Hres).
  rewrite Hgrants in Hres.
  eexists q', _. split; [exact Hrun|]. cbn [heap]. split.
  - exists (ns1 ++ ns2). split; [exact Hres|]. apply fmap_app.
  - rewrite (is_queue_size _ _ _ Hres), (is_queue_size _ _ _ Hq), !length_app.
    cbn [length]. lia.
Qed.

(** C7: [renice] is claimed to set the niceness of the entry, remove it
    and push it again so that it lands at its sorted position.  When the
    allocation of the re-push fails the entry is gone instead: [renice]
    does not look at the result of [push_to_queue], returns true, and the
    queue holds one process less. *)
Theorem renice_loses_process :
  is_queue (heap refusing_state) demo_queue demo_nodes /\
  same_identity 1 0 demo_a = true /\
  exists q' st',
    renice demo_queue 1 0 20 refusing_state = Ok ((true, q'), st') /\
    is_queue (heap st') q' [(2%positive, demo_b)] /\
    size q' = 1.
Proof.
  split; [exact demo_is_queue|]. split; [reflexivity|].
  eexists _, _. split; [vm_compute; reflexivity|]. split; [|reflexivity].
  split; try reflexivity.
  - repeat split; vm_compute; reflexivity.
  - apply (bool_decide_unpack _). vm_compute. exact I.
Qed.

(** ** C8: renicing to a lower niceness *)

(** The queue of the tie is what two pushes build. *)
Example tie_built :
  (let* (_, q) := push_to_queue create_queue tie_a in
   let* (_, q) := push_to_queue q tie_b in
   ret q) (mk_state ∅ [] []) = Ok (tie_queue, tie_state).
Proof. vm_compute. reflexivity. Qed.

(** C8 as stated fails: [tie_a] is first in the queue; renicing it from
    20 to 10 leaves its remaining time and its score 0, and the re-push
    links it after [tie_b], whose key is equal. *)
Lemma renice_lower_moves_later :
  is_queue (heap tie_state) tie_queue [(1%positive, tie_a); (2%positive, tie_b)] /\
  position 1 0 [tie_a; tie_b] = Some 0%nat /\
  10 < niceness tie_a /\
  exists q' st' a b,
    renice tie_queue 1 0 10 tie_state = Ok ((true, q'), st') /\
    is_queue (heap st') q' [(a, tie_b); (b, with_niceness 10 tie_a)] /\
    remaining_time (with_niceness 10 tie_a) = remaining_time tie_a /\
    position 1 0 [tie_b; with_niceness 10 tie_a] = Some 1%nat.
Proof.
  split.
  { split; try reflexivity.
    - repeat split; vm_compute; reflexivity.
    - apply (bool_decide_unpack _). vm_compute. exact I. }
  split; [reflexivity|]. split; [reflexivity|].
  eexists _, _, _, _. split; [vm_compute; reflexivity|].
  split; [|split; reflexivity].
  split; try reflexivity.
  - repeat split; vm_compute; reflexivity.
  - apply (bool_decide_unpack _). vm_compute. exact I.
Qed.

(** Where [insert_process] puts a process that outranks all of [l2]. *)
Lemma insert_process_position p l1 l2 :
  (forall y, y ∈ l2 -> process_evaluation p y = true) ->
  exists k, (k <= length l1)%nat /\
    insert_process p (l1 ++ l2) = take k l1 ++ p :: drop k l1 ++ l2.
Proof.
  intros Hl2. induction l1 as [|x r IH].
  - exists 0%nat. split; [reflexivity|]. cbn. destruct l2 as [|y r2]; [reflexivity|].
    cbn. rewrite Hl2 by (apply elem_of_cons; auto). reflexivity.
  - cbn [app insert_process]. destruct (process_evaluation p x).
    + exists 0%nat. split; [cbn; lia|reflexivity].
    + destruct IH as (k & Hk & ->). exists (S k). split; [cbn; lia|reflexivity].
Qed.

(** Without overflow a lower niceness gives a strictly lower score. *)
Lemma lower_niceness_outranks p nice :
  10 <= nice < niceness p -> 0 < remaining_time p ->
  niceness p * remaining_time p < 2 ^ 32 ->
  wrapped_score (with_niceness nice p) < wrapped_score p.
Proof.
  intros Hn Hrt Hno. unfold wrapped_score, wrap_uint, UINT_MOD, UINT_BITS.
  cbn [niceness remaining_time with_niceness].
  rewrite !Z.mod_small; nia.
Qed.

(** C8, amended: for an entry with non-zero remaining time whose score
    does not overflow, renicing it to a strictly lower niceness, when the
    allocator grants the node of the re-push, never moves the entry to a
    later position in the queue. *)
Theorem renice_lower_not_later q cb ctx nice st l i p :
  represents (heap st) q l ->
  contents_ok l ->
  list_find (fun x => identity x = (cb, ctx)) l = Some (i, p) ->
  10 <= nice < niceness p ->
  0 < remaining_time p ->
  niceness p * remaining_time p < 2 ^ 32 ->
  grants (alloc_plan st) = true ->
  exists q' st' l' j,
    renice q cb ctx nice st = Ok ((true, q'), st') /\
    represents (heap st') q' l' /\
    list_find (fun x => identity x = (cb, ctx)) l' = Some (j, with_niceness nice p) /\
    (j <= i)%nat.
Proof.
  intros Hrep Hok Hfind Hnice Hrt Hno Hgrants.
  apply list_find_Some in Hfind as (Hi & Hid & Hbefore).
  pose proof (take_drop_middle _ _ _ Hi) as Hl.
  set (l1 := take i l) in *. set (l2 := drop (S i) l) in *.
  assert (Hlen1 : length l1 = i).
  { unfold l1. rewrite length_take. apply lookup_lt_Some in Hi. lia. }
  assert (Hl1 : forall x, x ∈ l1 -> identity x <> (cb, ctx)).
  { intros x Hx. apply list_elem_of_lookup in Hx as [j Hj].
    pose proof (lookup_lt_Some _ _ _ Hj) as Hlt. rewrite Hlen1 in Hlt.
    apply (Hbefore j); [|exact Hlt]. unfold l1 in Hj.
    rewrite lookup_take_lt in Hj by exact Hlt. exact Hj. }
  assert (Hskip : forall x, x ∈ l1 -> same_identity cb ctx x = false).
  { intros x Hx. specialize (Hl1 x Hx). unfold same_identity, identity in *.
    destruct (decide (callback x = cb)) as [Hc|Hc];
      [|rewrite (bool_decide_eq_false_2 _ Hc); reflexivity].
    destruct (decide (context x = ctx)) as [Hx'|Hx'];
      [congruence|rewrite (bool_decide_eq_false_2 _ Hx'); apply andb_false_r]. }
  assert (Hhit : same_identity cb ctx p = true).
  { unfold same_identity, identity in *. injection Hid as -> ->.
    rewrite !bool_decide_eq_true_2 by reflexivity. reflexivity. }
  rewrite <- Hl in Hrep, Hok.
  destruct (renice_requeues q cb ctx nice st l1 p l2 Hrep Hok Hskip Hhit ltac:(
    destruct Hok as (_ & _ & Hn); apply Forall_app in Hn as [_ Hn];
    apply Forall_cons in Hn as [Hn _]; lia) Hgrants) as (q' & st' & Hrun & Hrep' & _).
  pose proof (lower_niceness_outranks p nice Hnice Hrt Hno) as Hlower.
  destruct (insert_process_position (with_niceness nice p) l1 l2) as (k & Hk & Hins).
  { intros y Hy. destruct Hok as (Hs & _).
    apply sorted_app in Hs as (_ & Hs & _). apply sorted_cons in Hs as [Hy' _].
    specialize (Hy' y Hy). order_facts. lia. }
  exists q', st', (insert_process (with_niceness nice p) (l1 ++ l2)), k.
  split; [exact Hrun|]. split; [exact Hrep'|]. split; [|lia].
  rewrite Hins. apply list_find_Some. split; [|split].
  - rewrite lookup_app_r by (rewrite length_take; lia).
    rewrite length_take. replace (k - k `min` length l1)%nat with 0%nat by lia.
    reflexivity.
  - exact Hid.
  - intros j y Hj Hjk. rewrite lookup_app_l in Hj by (rewrite length_take; lia).
    rewrite lookup_take_lt in Hj by exact Hjk.
    apply Hl1. apply list_elem_of_lookup. eauto.
Qed.

(** ** One operation on one queue *)

Lemma preserves_refl ns h : preserves ns h h.
Proof. intros b x _ Hx. exact Hx. Qed.

Lemma fresh_nodes_refl ns h : fresh_nodes ns ns h.
Proof. intros b Hb. auto. Qed.

Lemma step_result_same q st ns :
  is_queue (heap st) q ns -> contents_ok ns.*2 -> step_result ns st q st.
Proof.
  intros Hq Hok. exists ns. split; [exact Hq|]. split; [exact Hok|].
  split; [apply preserves_refl|apply fresh_nodes_refl].
Qed.

Lemma insert_sorted_nodes n ns b :
  b ∈ (insert_sorted n ns).*1 -> b = n.1 \/ b ∈ ns.*1.
Proof.
  induction ns as [|m r IH]; cbn [insert_sorted].
  - intros Hb. apply list_elem_of_singleton in Hb. auto.
  - destruct (process_evaluation n.2 m.2); rewrite !fmap_cons.
    + intros Hb. apply elem_of_cons in Hb as [Hb|Hb]; auto.
    + intros Hb. apply elem_of_cons in Hb as [Hb|Hb].
      * right. apply elem_of_cons. auto.
      * destruct (IH Hb); [auto|]. right. apply elem_of_cons. auto.
Qed.

Lemma remove_nodes (ns1 ns2 : list node) n b :
  b ∈ (ns1 ++ ns2).*1 -> b ∈ (ns1 ++ n :: ns2).*1.
Proof.
  rewrite !fmap_app, fmap_cons. intros Hb. apply elem_of_app in Hb as [Hb|Hb];
    apply elem_of_app; [left|right; apply elem_of_cons; right]; exact Hb.
Qed.

Lemma push_to_queue_step q p st ns :
  is_queue (heap st) q ns -> contents_ok ns.*2 -> 10 <= niceness p <= 49 ->
  exists r q' st', push_to_queue q p st = Ok ((r, q'), st') /\ step_result ns st q' st'.
Proof.
  intros Hq Hok Hnice. pose proof (proj2 (niceness_ok_spec _) Hnice) as Hnice'.
  destruct (decide (classify ns.*2 p = push_success)) as [Hcl|Hcl].
  - destruct (allocates st) eqn:Hal.
    + destruct (push_to_queue_inserted q p st ns Hq Hnice' Hcl Hal)
        as (a & q' & h' & Ha & Hrun & Hq' & Hpres & _).
      eexists _, q', _. split; [exact Hrun|].
      exists (insert_sorted (a, p) ns). cbn [heap]. split; [exact Hq'|].
      split; [|split; [exact Hpres|]].
      * rewrite insert_sorted_processes. apply contents_ok_insert; assumption.
      * intros b Hb. apply insert_sorted_nodes in Hb as [->|Hb]; auto.
    + eexists _, q, _. split; [apply (push_to_queue_refused q p st ns); assumption|].
      apply (step_result_same q (refused st) ns); assumption.
  - eexists _, q, _. split; [apply (push_to_queue_rejected q p st ns); assumption|].
    apply step_result_same; assumption.
Qed.

Lemma pop_top_step q mask out st ns :
  is_queue (heap st) q ns -> contents_ok ns.*2 ->
  out = OutNull \/ out = OutVar ->
  exists r w q' st', pop_top q mask out st = Ok ((r, w, q'), st') /\ step_result ns st q' st'.
Proof.
  intros Hq Hok Hout.
  destruct (split_first (eligible mask) ns) as [Hnone|(ns1 & [a p] & ns2 & -> & Hskip & Hhit)].
  - eexists _, _, q, st. split; [apply (pop_top_none q mask out st ns Hq Hnone)|].
    apply step_result_same; assumption.
  - destruct (pop_top_first q mask out st ns1 (a, p) ns2 Hq Hskip Hhit)
      as (q' & h' & Hpop & Hq' & Hpres & _).
    { intros o ->. destruct Hout; discriminate. }
    eexists _, _, q', _. split; [exact Hpop|].
    exists (ns1 ++ ns2). cbn [heap set_heap]. split; [exact Hq'|].
    split; [|split; [exact Hpres|]].
    + rewrite fmap_app, fmap_cons in Hok. rewrite fmap_app.
      apply (contents_ok_remove _ _ _ Hok).
    + intros b Hb. left. apply remove_nodes, Hb.
Qed.

Lemma clear_queue_step q st ns :
  is_queue (heap st) q ns ->
  exists q' st', clear_queue q st = Ok (q', st') /\ step_result ns st q' st'.
Proof.
  intros Hq. destruct (clear_queue_spec q st ns Hq) as (Hrun & Hq' & Hpres & _).
  eexists _, _. split; [exact Hrun|]. exists []. cbn [heap set_heap].
  split; [exact Hq'|]. split; [apply contents_ok_nil|]. split; [exact Hpres|].
  intros b Hb. inversion Hb.
Qed.

Lemma renice_step q cb ctx nice st ns :
  is_queue (heap st) q ns -> contents_ok ns.*2 -> 10 <= nice <= 49 ->
  exists r q' st', renice q cb ctx nice st = Ok ((r, q'), st') /\ step_result ns st q' st'.
Proof.
  intros Hq Hok Hnice. pose proof (proj2 (niceness_ok_spec _) Hnice) as Hnice'.
  destruct (split_first (same_identity cb ctx) ns)
    as [Hnone|(ns1 & [a p] & ns2 & -> & Hskip & Hhit)].
  - eexists _, q, st. split; [apply (renice_miss q cb ctx nice st ns Hq Hnice' Hnone)|].
    apply step_result_same; assumption.
  - pose proof Hok as (_ & Hu & _).
    destruct (renice_hit q cb ctx nice st ns1 a p ns2 Hq Hu Hskip Hhit Hnice')
      as (q' & h' & Hrun & Hpres & Hres).
    eexists _, q', _. split; [exact Hrun|]. cbn [heap].
    rewrite fmap_app, fmap_cons in Hok. cbn [snd] in Hok.
    destruct (grants (alloc_plan st)).
    + destruct Hres as (a' & Ha' & Hq').
      exists (insert_sorted (a', with_niceness nice p) (ns1 ++ ns2)). cbn [heap].
      split; [exact Hq'|]. split; [|split; [exact Hpres|]].
      * rewrite insert_sorted_processes, fmap_app.
        apply (contents_ok_requeue _ p); [exact Hok|reflexivity|exact Hnice].
      * intros b Hb. apply insert_sorted_nodes in Hb as [->|Hb].
        -- destruct Ha' as [->|Ha']; [left|right; exact Ha'].
           rewrite fmap_app, fmap_cons. apply elem_of_app. right. apply elem_of_cons. auto.
        -- left. apply remove_nodes, Hb.
    + exists (ns1 ++ ns2). cbn [heap]. split; [exact Hres|]. split; [|split; [exact Hpres|]].
      * rewrite fmap_app. apply (contents_ok_remove _ _ _ Hok).
      * intros b Hb. left. apply remove_nodes, Hb.
Qed.

Lemma run_top_step bh q mask run_time st ns :
  is_queue (heap st) q ns -> contents_ok ns.*2 ->
  exists r q' st', run_top bh q mask run_time st = Ok ((r, q'), st') /\
    step_result ns st q' st'.
Proof.
  intros Hq Hok.
  destruct (split_first (eligible mask) ns) as [Hnone|(ns1 & [a p] & ns2 & -> & Hskip & Hhit)].
  - eexists _, q, st. split; [apply (run_top_none bh q mask run_time st ns Hq Hnone)|].
    apply step_result_same; assumption.
  - cbn [snd] in Hhit. pose proof Hok as (_ & Hu & _).
    rewrite fmap_app, fmap_cons in Hok. cbn [snd] in Hok.
    pose proof (contents_ok_remove _ _ _ Hok) as (Hok' & _ & Hn).
    destruct (decide (wrap_uint (bh (callback p) run_time (context p)) = 0)) as [Hz|Hnz].
    + destruct (run_top_done bh q mask run_time st ns1 a p ns2 Hq Hskip Hhit Hz)
        as (q' & h' & Hrun & Hq' & Hpres & _).
      eexists _, q', _. split; [exact Hrun|]. exists (ns1 ++ ns2). cbn [heap].
      split; [exact Hq'|]. split; [rewrite fmap_app; exact Hok'|]. split; [exact Hpres|].
      intros b Hb. left. apply remove_nodes, Hb.
    + destruct (run_top_requeue bh q mask run_time st ns1 a p ns2 Hq Hu
                  (proj2 (niceness_ok_spec _) Hn) Hskip Hhit Hnz)
        as (q' & h' & Hrun & Hpres & Hres).
      eexists _, q', _. split; [exact Hrun|]. cbn [heap].
      destruct (grants (alloc_plan st)).
      * destruct Hres as (a' & Ha' & Hq'). eexists. cbn [heap].
        split; [exact Hq'|]. split; [|split; [exact Hpres|]].
        -- rewrite insert_sorted_processes, fmap_app.
           apply (contents_ok_requeue _ p); [exact Hok|reflexivity|exact Hn].
        -- intros b Hb. apply insert_sorted_nodes in Hb as [->|Hb].
           ++ destruct Ha' as [->|Ha']; [left|right; exact Ha'].
              rewrite fmap_app, fmap_cons. apply elem_of_app. right. apply elem_of_cons. auto.
           ++ left. apply remove_nodes, Hb.
      * exists (ns1 ++ ns2). cbn [heap]. split; [exact Hres|].
        split; [rewrite fmap_app; exact Hok'|]. split; [exact Hpres|].
        intros b Hb. left. apply remove_nodes, Hb.
Qed.

(** ** Sequences of operations *)

Lemma mutate_step m q st ns :
  is_queue (heap st) q ns -> contents_ok ns.*2 -> asserted m ->
  exists q' st', mutate m q st = Ok (q', st') /\ step_result ns st q' st'.
Proof.
  intros Hq Hok Hm. destruct m as [p|mask v|cb ctx nice|bh mask run_time|]; cbn [mutate].
  - destruct (push_to_queue_step q p st ns Hq Hok Hm) as (r & q' & st' & Hrun & Hres).
    exists q', st'. rewrite (bind_Ok _ _ _ _ _ Hrun). auto.
  - destruct (pop_top_step q mask (if v then OutVar else OutNull) st ns Hq Hok)
      as (r & w & q' & st' & Hrun & Hres); [destruct v; auto|].
    exists q', st'. rewrite (bind_Ok _ _ _ _ _ Hrun). auto.
  - destruct (renice_step q cb ctx nice st ns Hq Hok Hm) as (r & q' & st' & Hrun & Hres).
    exists q', st'. rewrite (bind_Ok _ _ _ _ _ Hrun). auto.
  - destruct (run_top_step bh q mask run_time st ns Hq Hok) as (r & q' & st' & Hrun & Hres).
    exists q', st'. rewrite (bind_Ok _ _ _ _ _ Hrun). auto.
  - apply (clear_queue_step q st ns Hq).
Qed.

(** Operations on one queue leave every other queue of the heap alone. *)
Lemma mutate_all_frame ms : forall q st ns other ons,
  is_queue (heap st) q ns -> contents_ok ns.*2 -> Forall asserted ms ->
  is_queue (heap st) other ons -> disjoint ons ns ->
  exists q' st',
    mutate_all ms q st = Ok (q', st') /\
    queue_invariant (heap st') q' /\
    is_queue (heap st') other ons.
Proof.
  induction ms as [|m r IH]; intros q st ns other ons Hq Hok Hms Hother Hdisj.
  - exists q, st. split; [reflexivity|]. split; [|exact Hother].
    exists ns.*2. split; [apply represents_nodes, Hq|exact Hok].
  - apply Forall_cons in Hms as [Hm Hr].
    destruct (mutate_step m q st ns Hq Hok Hm)
      as (q1 & st1 & Hrun & ns1 & Hq1 & Hok1 & Hpres & Hfresh).
    destruct (is_queue_framed _ _ _ _ _ _ Hother Hdisj Hpres Hfresh (q_heap _ _ _ Hq1))
      as [Hother1 Hdisj1].
    destruct (IH q1 st1 ns1 other ons Hq1 Hok1 Hr Hother1 Hdisj1)
      as (q' & st' & Hrun' & Hinv & Hother').
    exists q', st'. cbn [mutate_all]. rewrite (bind_Ok _ _ _ _ _ Hrun). auto.
Qed.

(** ** C9: copies *)

(** C9: a successful [copy_queue] makes [dest] a queue with the size,
    the order and the process values of the source in nodes that were
    not allocated before, and whatever is then done to the copy (push,
    pop, renice, run, clear, in any sequence) leaves the source struct
    and every node of the source as they were; when an allocation fails
    the nodes copied so far are freed, so that the heap is the one before
    the call, [copy_queue] returns false, [dest] is not written and the
    source is untouched. *)
Theorem copy_queue_independent dest source st ns :
  is_queue (heap st) source ns ->
  contents_ok ns.*2 ->
  let ok := copy_succeeds (length ns) (alloc_plan st) (base.size (heap st)) in
  exists dest' st',
    copy_queue dest source st = Ok ((ok, dest'), st') /\
    is_queue (heap st') source ns /\
    (ok = true ->
     exists cs,
       is_queue (heap st') dest' cs /\
       cs.*2 = ns.*2 /\
       size dest' = size source /\
       (forall c, c ∈ cs.*1 -> heap st !! c = None) /\
       forall ms, Forall asserted ms ->
         exists dest'' st'',
           mutate_all ms dest' st' = Ok (dest'', st'') /\
           is_queue (heap st'') source ns) /\
    (ok = false -> dest' = dest /\ heap st' = heap st).
Proof.
  intros Hsrc Hok ok.
  destruct (copy_queue_spec dest source st ns Hsrc) as (st' & _ & Hres).
  destruct Hres as [(dest' & cs & Hyes & Hrun & Hq & Hproc & Hext & Hsrc')|(Hno & Hrun & Hsame)];
    unfold ok.
  - rewrite Hyes. exists dest', st'. split; [exact Hrun|]. split; [exact Hsrc'|].
    split; [|discriminate]. intros _. exists cs. split; [exact Hq|].
    split; [exact Hproc|]. split; [|split; [apply (ext_fresh _ _ _ Hext)|]].
    + rewrite (is_queue_size _ _ _ Hq), (is_queue_size _ _ _ Hsrc).
      rewrite <- (length_fmap snd cs), Hproc, length_fmap. reflexivity.
    + intros ms Hms.
      destruct (mutate_all_frame ms dest' st' cs source ns Hq) as (d & s & Hd & _ & Hs);
        [rewrite Hproc; exact Hok|exact Hms|exact Hsrc'| |eauto].
      intros b Hb Hb'. destruct (dlseg_allocated _ _ _ _ _ (q_chain _ _ _ Hsrc) Hb).
      rewrite (ext_fresh _ _ _ Hext b Hb') in *. discriminate.
  - rewrite Hno. exists dest, st'. split; [exact Hrun|]. rewrite Hsame.
    split; [exact Hsrc|]. split; [discriminate|auto].
Qed.

(** Copying the demonstration queue into a fresh [dest]. *)
Lemma copy_queue_independent_witness :
  exists dest' st',
    copy_queue create_queue demo_queue demo_state = Ok ((true, dest'), st') /\
    is_queue (heap st') demo_queue demo_nodes /\
    exists cs, is_queue (heap st') dest' cs /\ cs.*2 = [demo_b; demo_a].
Proof.
  destruct (copy_queue_independent create_queue demo_queue demo_state demo_nodes
              demo_is_queue demo_contents_ok) as (dest' & st' & Hrun & Hsrc & Hyes & _).
  exists dest', st'. split; [exact Hrun|]. split; [exact Hsrc|].
  destruct (Hyes eq_refl) as (cs & Hq & Hproc & _). exists cs. auto.
Defined.

(** When the allocator refuses the second node, the first copy is freed
    again: the heap is the one before the call. *)
Example copy_queue_refused :
  copy_queue create_queue demo_queue (mk_state demo_heap [true; false] []) =
  Ok ((false, create_queue), mk_state demo_heap [] []).
Proof. vm_compute. reflexivity. Qed.

(** ** C8: a witness *)

Lemma climb_is_queue :
  is_queue (heap climb_state) climb_queue [(1%positive, climb_a); (2%positive, climb_b)].
Proof.
  split; try reflexivity.
  - repeat split; vm_compute; reflexivity.
  - apply (bool_decide_unpack _). vm_compute. exact I.
Qed.

Lemma climb_contents_ok : contents_ok [climb_a; climb_b].
Proof.
  split; [|split].
  - apply sorted_cons. split; [|apply sorted_cons; split; [|apply sorted_nil]].
    + intros y Hy. apply list_elem_of_singleton in Hy. subst y. vm_compute. reflexivity.
    + intros y Hy. inversion Hy.
  - apply (bool_decide_unpack _). vm_compute. exact I.
  - repeat constructor; vm_compute; discriminate.
Qed.

(** Renicing [climb_b], at position 1, from 40 to 20 leaves it at a
    position not after 1. *)
Lemma renice_lower_not_later_witness :
  exists q' st' l' j,
    renice climb_queue 2 0 20 climb_state = Ok ((true, q'), st') /\
    represents (heap st') q' l' /\
    list_find (fun x => identity x = (2, 0)) l' = Some (j, with_niceness 20 climb_b) /\
    (j <= 1)%nat.
Proof.
  apply (renice_lower_not_later climb_queue 2 0 20 climb_state [climb_a; climb_b] 1 climb_b).
  - apply (represents_nodes _ _ _ climb_is_queue).
  - exact climb_contents_ok.
  - reflexivity.
  - vm_compute. split; [discriminate|reflexivity].
  - reflexivity.
  - reflexivity.
  - reflexivity.
Defined.

(** ** C1: the representation invariant *)

(** C1: the claim has the chain sorted by score in every reachable
    state.  Two pushes onto the empty queue, of [overflow_b] (score 10)
    and then of [overflow_a] (score 4294967300), both return
    [push_success] and leave the chain [overflow_a; overflow_b], in which
    the later entry outranks the earlier one in the order of the claim:
    [process_evaluation] compares the product of [overflow_a] after it
    wrapped to 4 in [unsigned int], and 4 is less than 10. *)
Theorem invariant_broken_by_score_overflow :
  exists q1 st1 q2 st2,
    push_to_queue create_queue overflow_b (mk_state ∅ [] []) =
      Ok ((push_success, q1), st1) /\
    push_to_queue q1 overflow_a st1 = Ok ((push_success, q2), st2) /\
    represents (heap st2) q2 [overflow_a; overflow_b] /\
    size q2 = 2 /\
    score overflow_b < score overflow_a /\
    outranks overflow_b overflow_a /\
    ~ score_sorted [overflow_a; overflow_b].
Proof.
  assert (Hout : outranks overflow_b overflow_a) by (left; reflexivity).
  eexists _, _, _, _. split; [vm_compute; reflexivity|].
  split; [vm_compute; reflexivity|]. split; [|split; [reflexivity|]].
  - exists [(2%positive, overflow_a); (1%positive, overflow_b)]. split; [|reflexivity].
    split; try reflexivity.
    + repeat split; vm_compute; reflexivity.
    + apply (bool_decide_unpack _). vm_compute. exact I.
  - split; [reflexivity|]. split; [exact Hout|].
    intros Hs. apply (Hs 0%nat 1%nat overflow_a overflow_b); [lia|reflexivity..|exact Hout].
Qed.

(** X23: in a queue that satisfies the invariant the chain is sorted (no
    later entry outranks an earlier one under [process_evaluation]), and
    sorted in the order of the specification (score ascending, number
    of set bits ascending as tie-break) when the fields and the product
    [niceness * remaining_time] of every entry fit an [unsigned int];
    the [size] field is the number of nodes of the chain, and [top] and
    [bottom] are null exactly when [size] is 0.  [push_to_queue],
    [pop_top], [renice], [copy_queue], [clear_queue] and [run_top], when
    their assertions hold, return and leave a queue that satisfies the
    invariant again ([copy_queue]: the source still does, and [dest]
    does when the copy succeeds).  The invariant [queue_invariant] is:
    sorted under [process_evaluation], unique identities, every
    niceness in [10, 49]. *)
Theorem operations_preserve_invariant q st :
  queue_invariant (heap st) q ->
  (exists l, represents (heap st) q l /\ sorted l /\
     (Forall no_overflow l -> score_sorted l) /\
     size q = Z.of_nat (length l) /\
     (top q = None <-> size q = 0) /\ (bottom q = None <-> size q = 0)) /\
  (forall p, 10 <= niceness p <= 49 ->
     exists r q' st',
       push_to_queue q p st = Ok ((r, q'), st') /\ queue_invariant (heap st') q') /\
  (forall mask out, out = OutNull \/ out = OutVar ->
     exists r w q' st',
       pop_top q mask out st = Ok ((r, w, q'), st') /\ queue_invariant (heap st') q') /\
  (forall cb ctx nice, 10 <= nice <= 49 ->
     exists r q' st',
       renice q cb ctx nice st = Ok ((r, q'), st') /\ queue_invariant (heap st') q') /\
  (forall dest,
     exists ok dest' st',
       copy_queue dest q st = Ok ((ok, dest'), st') /\
       queue_invariant (heap st') q /\
       (ok = true -> queue_invariant (heap st') dest') /\
       (ok = false -> dest' = dest)) /\
  (exists q' st',
     clear_queue q st = Ok (q', st') /\ queue_invariant (heap st') q') /\
  (forall bh mask run_time,
     exists r q' st',
       run_top bh q mask run_time st = Ok ((r, q'), st') /\
       queue_invariant (heap st') q').
Proof.
  intros Hinv. split.
  { destruct (queue_invariant_struct _ _ Hinv) as (l & Hrep & Hs & Hrest).
    exists l. split; [exact Hrep|]. split; [exact Hs|].
    split; [apply sorted_score_sorted, Hs|exact Hrest]. }
  destruct Hinv as (l & (ns & Hq & <-) & Hok).
  assert (Hstep : forall q' st', step_result ns st q' st' -> queue_invariant (heap st') q').
  { intros q' st' (ns' & Hq' & Hok' & _). exists ns'.*2.
    split; [apply represents_nodes, Hq'|exact Hok']. }
  repeat split.
  - intros p Hp. destruct (push_to_queue_step q p st ns Hq Hok Hp) as (r & q' & st' & Hrun & Hres).
    exists r, q', st'. auto.
  - intros mask out Hout.
    destruct (pop_top_step q mask out st ns Hq Hok Hout) as (r & w & q' & st' & Hrun & Hres).
    exists r, w, q', st'. auto.
  - intros cb ctx nice Hn.
    destruct (renice_step q cb ctx nice st ns Hq Hok Hn) as (r & q' & st' & Hrun & Hres).
    exists r, q', st'. auto.
  - intros dest. destruct (copy_queue_spec dest q st ns Hq) as (st' & _ & Hres).
    destruct Hres as [(dest' & cs & _ & Hrun & Hq' & Hproc & _ & Hsrc)|(_ & Hrun & Hsame)].
    + exists true, dest', st'. split; [exact Hrun|]. split; [|split; [|discriminate]].
      * exists ns.*2. split; [apply represents_nodes, Hsrc|exact Hok].
      * intros _. exists cs.*2. split; [apply represents_nodes, Hq'|].
        rewrite Hproc. exact Hok.
    + exists false, dest, st'. split; [exact Hrun|]. split; [|split; [discriminate|auto]].
      rewrite Hsame. exists ns.*2. split; [apply represents_nodes, Hq|exact Hok].
  - destruct (clear_queue_step q st ns Hq) as (q' & st' & Hrun & Hres).
    exists q', st'. auto.
  - intros bh mask run_time.
    destruct (run_top_step bh q mask run_time st ns Hq Hok) as (r & q' & st' & Hrun & Hres).
    exists r, q', st'. auto.
Qed.

(** The demonstration queue satisfies the invariant, so the theorem
    applies to it. *)
Lemma operations_preserve_invariant_witness :
  (exists l, represents demo_heap demo_queue l /\ sorted l /\
     (Forall no_overflow l -> score_sorted l)) /\
  exists r q' st',
    run_top (fun _ _ _ => 3) demo_queue 1 5 demo_state = Ok ((r, q'), st') /\
    queue_invariant (heap st') q'.
Proof.
  assert (Hinv : queue_invariant (heap demo_state) demo_queue).
  { exists demo_nodes.*2. split; [apply (represents_nodes _ _ _ demo_is_queue)|].
    exact demo_contents_ok. }
  destruct (operations_preserve_invariant demo_queue demo_state Hinv)
    as ((l & Hrep & Hs & Hscore & _) & _ & _ & _ & _ & _ & Hrun).
  split; [exists l; auto|]. apply Hrun.
Defined.

(** ** Reachable states *)

Lemma disjoint_sym (ns ms : list node) : disjoint ns ms -> disjoint ms ns.
Proof. intros H b Hb Hb'. exact (H b Hb' Hb). Qed.

(** Replacing the queue [i] by the result of an operation on it. *)
Lemma program_inv_update s i q ns nss q' st' ns' :
  length nss = length (queues s) ->
  (forall j qj nsj, queues s !! j = Some qj -> nss !! j = Some nsj ->
     is_queue (heap (memory s)) qj nsj /\ contents_ok nsj.*2) ->
  (forall j k nsj nsk, j <> k -> nss !! j = Some nsj -> nss !! k = Some nsk ->
     disjoint nsj nsk) ->
  queues s !! i = Some q -> nss !! i = Some ns ->
  is_queue (heap st') q' ns' -> contents_ok ns'.*2 ->
  preserves ns (heap (memory s)) (heap st') ->
  fresh_nodes ns ns' (heap (memory s)) ->
  program_inv (mk_program st' (<[i := q']> (queues s))).
Proof.
  intros Hlen Hqs Hdisj Hqi Hni Hq' Hok' Hpres Hfresh.
  split; [apply (q_heap _ _ _ Hq')|]. exists (<[i := ns']> nss). cbn [memory queues].
  split; [rewrite !length_insert; exact Hlen|]. split.
  - intros j qj nsj Hj Hnj.
    apply list_lookup_insert_Some in Hj as [(<- & <- & _)|[Hne Hj]];
      apply list_lookup_insert_Some in Hnj as [(Heq & <- & _)|[Hne' Hnj]];
      try congruence; [auto|].
    destruct (Hqs j qj nsj Hj Hnj) as [Hqj Hokj]. split; [|exact Hokj].
    apply (is_queue_framed _ _ _ _ _ _ Hqj (Hdisj j i _ _ ltac:(congruence) Hnj Hni)
             Hpres Hfresh (q_heap _ _ _ Hq')).
  - assert (Hother : forall j nsj, j <> i -> nss !! j = Some nsj -> disjoint nsj ns').
    { intros j nsj Hne Hnj.
      assert (is_Some (queues s !! j)) as [qj Hj].
      { apply lookup_lt_is_Some. rewrite <- Hlen. apply lookup_lt_is_Some. eauto. }
      destruct (Hqs j qj nsj Hj Hnj) as [Hqj _].
      apply (is_queue_framed _ _ _ _ _ _ Hqj (Hdisj j i _ _ Hne Hnj Hni)
               Hpres Hfresh (q_heap _ _ _ Hq')). }
    intros j k nsj nsk Hjk Hnj Hnk.
    apply list_lookup_insert_Some in Hnj as [(<- & <- & _)|[Hne Hnj]];
      apply list_lookup_insert_Some in Hnk as [(Heq & <- & _)|[Hne' Hnk]];
      try congruence.
    + apply disjoint_sym, (Hother k); auto.
    + apply (Hother j); auto.
    + apply (Hdisj j k); auto.
Qed.

Lemma program_inv_start plan : program_inv (mk_program (mk_state ∅ plan []) []).
Proof.
  split; [reflexivity|]. exists []. split; [reflexivity|].
  split; intros i; intros; rewrite lookup_nil in *; discriminate.
Qed.

(** A permitted call returns and keeps the invariant of the program. *)
Lemma perform_inv s c :
  program_inv s -> permitted s c ->
  exists s', perform c s = Ok s' /\ program_inv s'.
Proof.
  intros (Hbound & nss & Hlen & Hqs & Hdisj) Hc.
  destruct c as [|i m|d src]; cbn [perform permitted] in *.
  - eexists. split; [reflexivity|]. split; [exact Hbound|].
    exists (nss ++ [[]]). cbn [memory queues]. split; [rewrite !length_app, Hlen; reflexivity|].
    split.
    + intros i q ns Hq Hns.
      apply lookup_snoc_Some in Hq as [[Hlt Hq]|[-> <-]];
        apply lookup_snoc_Some in Hns as [[Hlt' Hns]|[Heq <-]]; try lia; [eauto|].
      split; [|apply contents_ok_nil].
      split; [exact I|apply NoDup_nil_2|exact Hbound|reflexivity..].
    + intros i j ns ms Hij Hns Hms.
      apply lookup_snoc_Some in Hns as [[Hlt Hns]|[-> <-]];
        apply lookup_snoc_Some in Hms as [[Hlt' Hms]|[Heq <-]]; try lia.
      * apply (Hdisj i j); auto.
      * intros b _ Hb. inversion Hb.
      * intros b Hb. inversion Hb.
  - destruct Hc as [Hi Hm].
    destruct (lookup_lt_is_Some_2 (queues s) i Hi) as [q Hq]. rewrite Hq.
    destruct (lookup_lt_is_Some_2 nss i ltac:(lia)) as [ns Hns].
    destruct (Hqs i q ns Hq Hns) as [Hiq Hok].
    destruct (mutate_step m q (memory s) ns Hiq Hok Hm)
      as (q' & st' & Hrun & ns' & Hq' & Hok' & Hpres & Hfresh).
    rewrite Hrun. eexists. split; [reflexivity|].
    apply (program_inv_update s i q ns nss q' st' ns'); assumption.
  - destruct Hc as [Hd Hsrc].
    destruct (lookup_lt_is_Some_2 (queues s) d Hd) as [dq Hdq]. rewrite Hdq.
    destruct (lookup_lt_is_Some_2 (queues s) src Hsrc) as [sq Hsq]. rewrite Hsq.
    destruct (lookup_lt_is_Some_2 nss d ltac:(lia)) as [dns Hdns].
    destruct (lookup_lt_is_Some_2 nss src ltac:(lia)) as [sns Hsns].
    destruct (Hqs src sq sns Hsq Hsns) as [Hsrcq Hok].
    destruct (copy_queue_spec dq sq (memory s) sns Hsrcq) as (st' & _ & Hres).
    destruct Hres as [(dq' & cs & _ & Hrun & Hq' & Hproc & Hext & _)|(_ & Hrun & Hsame)];
      rewrite Hrun; (eexists; split; [reflexivity|]).
    + apply (program_inv_update s d dq dns nss dq' st' cs); try assumption.
      * rewrite Hproc. exact Hok.
      * intros b x _ Hx. apply (ext_keeps _ _ _ Hext), Hx.
      * intros b Hb. right. apply (ext_fresh _ _ _ Hext), Hb.
    + rewrite (list_insert_id _ _ _ Hdq). split; cbn [memory queues]; rewrite Hsame;
        [exact Hbound|].
      exists nss. auto.
Qed.

(** X22: in every state a program reaches from an empty memory through
    [create_queue], [push_to_queue], [pop_top], [renice], [run_top],
    [clear_queue] and [copy_queue] on queues it holds, every queue
    satisfies the invariant, and every call on existing queues whose
    assertions hold returns. *)
Theorem reachable_invariant s :
  reachable s ->
  (forall q, q ∈ queues s -> queue_invariant (heap (memory s)) q) /\
  (forall c, permitted s c -> exists s', perform c s = Ok s').
Proof.
  intros Hreach.
  assert (Hinv : program_inv s).
  { induction Hreach as [plan|s c s' _ IH Hperm Hrun]; [apply program_inv_start|].
    destruct (perform_inv s c IH Hperm) as (s'' & Hrun' & Hinv').
    congruence. }
  split.
  - destruct Hinv as (_ & nss & Hlen & Hqs & _). intros q Hq.
    apply list_elem_of_lookup in Hq as [i Hq].
    destruct (lookup_lt_is_Some_2 nss i) as [ns Hns].
    { rewrite Hlen. apply lookup_lt_is_Some. eauto. }
    destruct (Hqs i q ns Hq Hns) as [Hiq Hok].
    exists ns.*2. split; [apply represents_nodes, Hiq|exact Hok].
  - intros c Hc. destruct (perform_inv s c Hinv Hc) as (s' & Hrun & _). eauto.
Qed.

(** * Further properties of the code *)

(** ** [cpu_count] *)

Lemma set_bits_range n mask : 0 <= set_bits n mask <= Z.of_nat n.
Proof.
  induction n as [|n IH]; [cbn; lia|].
  cbn [set_bits]. destruct (Z.testbit mask (Z.of_nat n)); lia.
Qed.

Lemma set_bits_none n mask :
  set_bits n mask = 0 ->
  forall k, 0 <= k < Z.of_nat n -> Z.testbit mask k = false.
Proof.
  induction n as [|n IH]; intros Hz k Hk; [lia|].
  cbn [set_bits] in Hz. pose proof (set_bits_range n mask) as Hr.
  destruct (Z.testbit mask (Z.of_nat n)) eqn:Hb; [lia|].
  destruct (decide (k = Z.of_nat n)) as [->|Hne]; [exact Hb|].
  apply IH; lia.
Qed.

(** X1: on every [uint16_t] value [cpu_count] returns the number of bits
    that are set; the result lies between 0 and 16 and is 0 for the
    mask 0 only. *)
Theorem cpu_count_counts_set_bits mask :
  0 <= mask <= CPU_MASK_MAX ->
  cpu_count mask = popcount mask /\
  0 <= cpu_count mask <= 16 /\
  (cpu_count mask = 0 <-> mask = 0).
Proof.
  intros Hm. rewrite (cpu_count_popcount mask Hm). unfold popcount.
  split; [reflexivity|]. split; [apply (set_bits_range 16)|]. split.
  - intros Hz. apply Z.bits_inj_0. intros k.
    destruct (Z.neg_nonneg_cases k) as [Hneg|Hpos]; [apply Z.testbit_neg_r, Hneg|].
    destruct (Z.lt_ge_cases k 16) as [Hlt|Hge].
    + apply (set_bits_none 16 mask Hz). change (Z.of_nat 16) with 16. lia.
    + apply Z.testbit_false; [exact Hpos|].
      unfold CPU_MASK_MAX in Hm.
      assert (Hpow : 2 ^ 16 <= 2 ^ k) by (apply Z.pow_le_mono_r; lia).
      change (2 ^ 16) with 65536 in Hpow.
      rewrite Z.div_small by lia. reflexivity.
  - intros ->. apply set_bits_zero.
Qed.

Lemma cpu_count_counts_set_bits_witness :
  cpu_count 37 = popcount 37 /\ 0 <= cpu_count 37 <= 16 /\ (cpu_count 37 = 0 <-> 37 = 0).
Proof.
  apply (cpu_count_counts_set_bits 37). unfold CPU_MASK_MAX. lia.
Defined.

(** ** [process_evaluation] *)

(** X2: [process_evaluation] is a strict weak order: no process outranks
    itself, two processes never outrank each other, outranking is
    transitive, and so is not being outranked. *)
Theorem process_evaluation_strict_order a b c :
  process_evaluation a a = false /\
  (process_evaluation a b = true -> process_evaluation b a = false) /\
  (process_evaluation a b = true -> process_evaluation b c = true ->
   process_evaluation a c = true) /\
  (process_evaluation a b = false -> process_evaluation b c = false ->
   process_evaluation a c = false).
Proof.
  split; [|split; [|split]]; intros; order_facts; lia.
Qed.

Lemma process_evaluation_strict_order_witness :
  process_evaluation demo_b demo_b = false /\
  process_evaluation climb_a demo_b = false /\
  process_evaluation demo_b climb_b = true /\
  process_evaluation demo_a tie_a = false.
Proof.
  destruct (process_evaluation_strict_order demo_b climb_a climb_b)
    as (Hirr & Hasym & Htrans & _).
  destruct (process_evaluation_strict_order demo_a demo_b tie_a) as (_ & _ & _ & Hneg).
  split; [exact Hirr|]. split; [apply Hasym; vm_compute; reflexivity|].
  split; [apply Htrans; vm_compute; reflexivity|].
  apply Hneg; vm_compute; reflexivity.
Defined.

(** X3: when the fields of both processes are in range and neither
    product [niceness * remaining_time] reaches 2^32,
    [process_evaluation a b] is true exactly when [a] has the smaller
    product, or the same product and fewer bits set in its CPU mask. *)
Theorem process_evaluation_without_overflow a b :
  process_in_range a -> process_in_range b ->
  niceness a * remaining_time a < 2 ^ 32 ->
  niceness b * remaining_time b < 2 ^ 32 ->
  (process_evaluation a b = true <->
   niceness a * remaining_time a < niceness b * remaining_time b \/
   (niceness a * remaining_time a = niceness b * remaining_time b /\
    popcount (cpu_mask a) < popcount (cpu_mask b))).
Proof.
  intros Ha Hb Hsa Hsb.
  apply (process_evaluation_outranks a b Ha Hb Hsa Hsb).
Qed.

Lemma process_evaluation_without_overflow_witness :
  process_evaluation demo_b demo_a = true <->
  niceness demo_b * remaining_time demo_b < niceness demo_a * remaining_time demo_a \/
  (niceness demo_b * remaining_time demo_b = niceness demo_a * remaining_time demo_a /\
   popcount (cpu_mask demo_b) < popcount (cpu_mask demo_a)).
Proof.
  apply (process_evaluation_without_overflow demo_b demo_a);
    try (vm_compute; reflexivity);
    (split; [|split]; vm_compute; split; congruence).
Defined.

(** ** [processes_are_valid] *)

Lemma unique_identities_inj l x y :
  unique_identities l -> x ∈ l -> y ∈ l -> identity x = identity y -> x = y.
Proof.
  intros Hu Hx Hy Hid.
  apply list_elem_of_lookup in Hx as [i Hi]. apply list_elem_of_lookup in Hy as [j Hj].
  assert (Hij : i = j).
  { apply (NoDup_lookup (identity <$> l) i j (identity x)); [exact Hu| |].
    - rewrite list_lookup_fmap, Hi. reflexivity.
    - rewrite list_lookup_fmap, Hj, Hid. reflexivity. }
  subst j. congruence.
Qed.

Lemma same_schedule_same_process x p :
  identity x = identity p -> (same_schedule x p = true <-> x = p).
Proof.
  intros Hid. rewrite same_schedule_spec. destruct x, p. unfold identity in Hid.
  cbn in *. split; [intros (-> & -> & ->); congruence|intros [=]; auto].
Qed.

(** X4: on a queue with unique identities [processes_are_valid] changes
    nothing and answers [push_success] exactly when no queued entry has
    the identity of the process, [push_duplicate] exactly when the
    process itself is queued, [push_inconsistent] exactly when a queued
    entry has its identity and differs from it; it never answers
    [push_error]. *)
Theorem processes_are_valid_verdict q p st l :
  represents (heap st) q l -> unique_identities l ->
  exists r,
    processes_are_valid q p st = Ok (r, st) /\
    (r = push_success <-> identity p ∉ identity <$> l) /\
    (r = push_duplicate <-> p ∈ l) /\
    (r = push_inconsistent <->
     exists x, x ∈ l /\ identity x = identity p /\ x <> p) /\
    r <> push_error.
Proof.
  intros (ns & Hq & <-) Hu. exists (classify ns.*2 p).
  split; [apply processes_are_valid_spec, Hq|].
  split; [apply classify_success|].
  destruct (decide (identity p ∈ identity <$> ns.*2)) as [Hin|Hnotin].
  - apply list_elem_of_fmap_1 in Hin as (x & Hid & Hx).
    rewrite (classify_entry _ p x Hu Hx Hid). symmetry in Hid.
    pose proof (same_schedule_same_process x p Hid) as Hsame.
    destruct (same_schedule x p).
    + assert (x = p) as -> by (apply Hsame; reflexivity).
      split; [tauto|]. split; [|discriminate].
      split; [discriminate|]. intros (y & Hy & Hidy & Hne).
      contradiction Hne. apply (unique_identities_inj _ _ _ Hu Hy Hx Hidy).
    + assert (Hne : x <> p) by (intros E; apply Hsame in E; discriminate).
      split; [|split; [|discriminate]].
      * split; [discriminate|]. intros Hp. contradiction Hne.
        apply (unique_identities_inj _ _ _ Hu Hx Hp Hid).
      * split; [|reflexivity]. intros _. exists x. auto.
  - pose proof Hnotin as Hc. apply classify_success in Hc. rewrite Hc.
    split; [|split; [|discriminate]].
    + split; [discriminate|]. intros Hp. contradiction Hnotin.
      apply list_elem_of_fmap_2, Hp.
    + split; [discriminate|]. intros (x & Hx & Hid & _). contradiction Hnotin.
      rewrite <- Hid. apply list_elem_of_fmap_2, Hx.
Qed.

Lemma processes_are_valid_verdict_witness :
  processes_are_valid demo_queue demo_a demo_state = Ok (push_duplicate, demo_state) /\
  processes_are_valid demo_queue (with_niceness 11 demo_a) demo_state =
    Ok (push_inconsistent, demo_state) /\
  processes_are_valid demo_queue (mk_process 3 0 30 10 1) demo_state =
    Ok (push_success, demo_state).
Proof.
  pose proof (represents_nodes _ _ _ demo_is_queue) as Hrep.
  pose proof demo_contents_ok as (_ & Hu & _).
  split; [|split].
  - destruct (processes_are_valid_verdict demo_queue demo_a demo_state _ Hrep Hu)
      as (r & Hrun & _ & Hdup & _).
    rewrite Hrun. f_equal. f_equal. apply Hdup. right. left.
  - destruct (processes_are_valid_verdict demo_queue (with_niceness 11 demo_a)
                demo_state _ Hrep Hu) as (r & Hrun & _ & _ & Hinc & _).
    rewrite Hrun. f_equal. f_equal. apply Hinc. exists demo_a.
    split; [right; left|]. split; [reflexivity|discriminate].
  - destruct (processes_are_valid_verdict demo_queue (mk_process 3 0 30 10 1) demo_state
                _ Hrep Hu)
      as (r & Hrun & Hok & _).
    rewrite Hrun. f_equal. f_equal. apply Hok.
    apply (bool_decide_unpack _). vm_compute. exact I.
Defined.

(** ** [pop_item] *)

(** X5: [pop_item] on a node of the queue unlinks and frees exactly that
    node: the other nodes stay in their order, [size] drops by one, the
    node's cell is the only one that is no longer allocated, and the
    cells outside the queue keep their content. *)
Theorem pop_item_frees_exactly q st ns1 n ns2 :
  is_queue (heap st) q (ns1 ++ n :: ns2) ->
  exists q' st',
    pop_item q n.1 st = Ok (q', st') /\
    is_queue (heap st') q' (ns1 ++ ns2) /\
    size q' = size q - 1 /\
    (forall b, is_Some (heap st' !! b) <-> is_Some (heap st !! b) /\ b <> n.1) /\
    (forall b, b ∉ (ns1 ++ n :: ns2).*1 -> heap st' !! b = heap st !! b) /\
    alloc_plan st' = alloc_plan st /\ calls st' = calls st.
Proof.
  intros Hq.
  destruct (pop_item_spec q st ns1 n ns2 Hq) as (q' & h' & Hpop & Hq' & Hpres & Hna & Hgone).
  exists q', (set_heap h' st). cbn [heap set_heap alloc_plan calls].
  split; [exact Hpop|]. split; [exact Hq'|]. split; [|split; [|split; [|auto]]].
  - rewrite (q_size _ _ _ Hq), (q_size _ _ _ Hq'), !length_app. cbn [length]. lia.
  - intros b. split.
    + intros Hb. split.
      * destruct (heap st !! b) eqn:E; [eauto|]. rewrite (Hna b E) in Hb. exact Hb.
      * intros ->. rewrite Hgone in Hb. destruct Hb; discriminate.
    + intros [[x Hx] Hne].
      destruct (decide (b ∈ (ns1 ++ n :: ns2).*1)) as [Hin|Hnotin].
      * apply (dlseg_allocated _ _ _ _ _ (q_chain _ _ _ Hq')).
        rewrite fmap_app, fmap_cons in Hin. rewrite fmap_app.
        apply elem_of_app in Hin as [Hin|Hin]; [apply elem_of_app; auto|].
        apply elem_of_cons in Hin as [Hin|Hin]; [contradiction|].
        apply elem_of_app; auto.
      * rewrite (Hpres b x Hnotin Hx). eauto.
  - intros b Hb. destruct (heap st !! b) as [x|] eqn:E; [apply (Hpres b x Hb E)|apply Hna, E].
Qed.

Lemma pop_item_frees_exactly_witness :
  exists q' st',
    pop_item demo_queue 1%positive demo_state = Ok (q', st') /\
    is_queue (heap st') q' [(2%positive, demo_b)] /\
    size q' = 1.
Proof.
  destruct (pop_item_frees_exactly demo_queue demo_state [(2%positive, demo_b)]
              (1%positive, demo_a) [] demo_is_queue)
    as (q' & st' & Hpop & Hq' & Hsize & _).
  exists q', st'. split; [exact Hpop|]. split; [exact Hq'|exact Hsize].
Defined.

(** ** [clear_queue] *)

Lemma release_size ns : forall h,
  NoDup ns.*1 -> (forall b, b ∈ ns.*1 -> is_Some (h !! b)) ->
  (base.size (release ns h) + length ns = base.size h)%nat.
Proof.
  induction ns as [|n r IH]; intros h Hnd Hall; [cbn; lia|].
  rewrite fmap_cons in Hnd. apply NoDup_cons in Hnd as [Hn Hnd].
  rewrite release_cons, length_cons.
  destruct (Hall n.1) as [x Hx]; [rewrite fmap_cons; apply elem_of_cons; auto|].
  assert (Hs : base.size h = S (base.size (delete n.1 h))).
  { rewrite <- (insert_delete_id h n.1 x Hx) at 1.
    apply map_size_insert_None, lookup_delete_eq. }
  rewrite Hs, <- (IH (delete n.1 h) Hnd); [lia|].
  intros b Hb. rewrite lookup_delete_ne by (intros <-; contradiction).
  apply Hall. rewrite fmap_cons. apply elem_of_cons. auto.
Qed.

(** X6: [clear_queue] returns the empty queue and frees the nodes of the
    queue and nothing else: every other cell keeps its content, the
    number of allocated cells drops by the number of nodes, and no
    allocation or callback happens.  Clearing the queue it returned
    changes nothing. *)
Theorem clear_queue_frees_chain q st ns :
  is_queue (heap st) q ns ->
  exists st',
    clear_queue q st = Ok (create_queue, st') /\
    (forall b, b ∈ ns.*1 -> heap st' !! b = None) /\
    (forall b, b ∉ ns.*1 -> heap st' !! b = heap st !! b) /\
    (base.size (heap st') + length ns = base.size (heap st))%nat /\
    alloc_plan st' = alloc_plan st /\ calls st' = calls st /\
    clear_queue create_queue st' = Ok (create_queue, st').
Proof.
  intros Hq. destruct (clear_queue_spec q st ns Hq) as (Hrun & _).
  exists (set_heap (release ns (heap st)) st). cbn [heap set_heap alloc_plan calls].
  split; [exact Hrun|].
  split; [intros b Hb; apply release_lookup_in, Hb|].
  split; [intros b Hb; apply release_lookup_notin, Hb|].
  split; [|split; [reflexivity|split; [reflexivity|]]].
  - apply release_size; [apply (q_nodup _ _ _ Hq)|].
    intros b Hb. apply (dlseg_allocated _ _ _ _ _ (q_chain _ _ _ Hq) Hb).
  - unfold clear_queue, create_queue, bind, chain_fuel. cbn [top].
    destruct (base.size _); reflexivity.
Qed.

Lemma clear_queue_frees_chain_witness :
  exists st',
    clear_queue demo_queue demo_state = Ok (create_queue, st') /\
    heap st' !! 1%positive = None /\ heap st' !! 2%positive = None /\
    (base.size (heap st') + 2 = base.size demo_heap)%nat.
Proof.
  destruct (clear_queue_frees_chain demo_queue demo_state demo_nodes demo_is_queue)
    as (st' & Hrun & Hfreed & _ & Hsize & _).
  exists st'. split; [exact Hrun|].
  split; [apply Hfreed; right; left|]. split; [apply Hfreed; left|exact Hsize].
Defined.

(** ** [push_to_queue] *)

(** Where [insert_sorted] puts the new node. *)
Lemma insert_sorted_split n ns :
  exists ns1 ns2,
    ns = ns1 ++ ns2 /\ insert_sorted n ns = ns1 ++ n :: ns2 /\
    (forall k, k ∈ ns1 -> process_evaluation n.2 k.2 = false) /\
    (forall m, head ns2 = Some m -> process_evaluation n.2 m.2 = true).
Proof.
  induction ns as [|m r IH].
  - exists [], []. repeat split; [intros k Hk; inversion Hk|discriminate].
  - cbn [insert_sorted]. destruct (process_evaluation n.2 m.2) eqn:Hm.
    + exists [], (m :: r). repeat split; [intros k Hk; inversion Hk|].
      intros m' [= <-]. exact Hm.
    + destruct IH as (ns1 & ns2 & -> & -> & Hskip & Hhit).
      exists (m :: ns1), ns2. repeat split; [|exact Hhit].
      intros k Hk. apply elem_of_cons in Hk as [->|Hk]; auto.
Qed.

(** From a successful run of [push_to_queue]: the assertion held, no
    entry had the identity and the allocator granted the node. *)
Lemma push_to_queue_success_inv q p st ns q' st' :
  is_queue (heap st) q ns ->
  push_to_queue q p st = Ok ((push_success, q'), st') ->
  niceness_ok (niceness p) = true /\ classify ns.*2 p = push_success /\
  allocates st = true.
Proof.
  intros Hq Hrun.
  destruct (niceness_ok (niceness p)) eqn:Hnice.
  - split; [reflexivity|].
    destruct (decide (classify ns.*2 p = push_success)) as [Hcl|Hcl].
    + split; [exact Hcl|]. destruct (allocates st) eqn:Hal; [reflexivity|].
      rewrite (push_to_queue_refused q p st ns Hq Hnice Hcl Hal) in Hrun. discriminate.
    + rewrite (push_to_queue_rejected q p st ns Hq Hnice Hcl) in Hrun.
      injection Hrun as Hr _ _. contradiction.
  - unfold push_to_queue in Hrun. rewrite Hnice in Hrun. discriminate.
Qed.

(** X7: a push of a process with a new identity for which [malloc]
    succeeds returns [push_success] and links the process behind every
    entry it does not outrank and before every entry it outranks: it
    goes behind the entries of equal key.  The other entries keep their
    order, the queue stays sorted and [size] grows by one. *)
Theorem push_to_queue_inserts_stably q p st l :
  represents (heap st) q l -> sorted l ->
  10 <= niceness p <= 49 ->
  identity p ∉ identity <$> l ->
  allocates st = true ->
  exists q' st' l1 l2,
    push_to_queue q p st = Ok ((push_success, q'), st') /\
    l = l1 ++ l2 /\
    represents (heap st') q' (l1 ++ p :: l2) /\
    sorted (l1 ++ p :: l2) /\
    size q' = size q + 1 /\
    (forall x, x ∈ l1 -> process_evaluation p x = false) /\
    (forall x, x ∈ l2 -> process_evaluation p x = true).
Proof.
  intros (ns & Hq & <-) Hs Hnice Hid Hal.
  apply niceness_ok_spec in Hnice. apply classify_success in Hid.
  destruct (push_to_queue_inserted q p st ns Hq Hnice Hid Hal)
    as (a & q' & h' & Ha & Hrun & Hq' & _).
  destruct (insert_sorted_split (a, p) ns) as (ns1 & ns2 & -> & Hins & Hskip & Hhit).
  cbn [fst snd] in Hskip, Hhit. rewrite Hins in Hq'.
  assert (Hl2 : forall x, x ∈ ns2.*2 -> process_evaluation p x = true).
  { rewrite fmap_app in Hs. apply sorted_app in Hs as (_ & Hs2 & _).
    apply (outranks_sorted_tail p _ Hs2).
    intros y Hy. destruct ns2 as [|m r]; [discriminate|]. injection Hy as <-.
    apply Hhit. reflexivity. }
  assert (Hl1 : forall x, x ∈ ns1.*2 -> process_evaluation p x = false).
  { intros x Hx. apply list_elem_of_fmap_1 in Hx as (k & -> & Hk). auto. }
  eexists q', _, ns1.*2, ns2.*2. split; [exact Hrun|].
  split; [apply fmap_app|]. cbn [heap]. split; [|split; [|split; [|auto]]].
  - exists (ns1 ++ (a, p) :: ns2). split; [exact Hq'|].
    rewrite fmap_app, fmap_cons. reflexivity.
  - rewrite fmap_app in Hs. apply sorted_app in Hs as (Hs1 & Hs2 & Hcross).
    apply sorted_app. split; [exact Hs1|]. split.
    + apply sorted_cons. split; [|exact Hs2].
      intros y Hy. specialize (Hl2 y Hy). order_facts. lia.
    + intros x y Hx Hy. apply elem_of_cons in Hy as [->|Hy]; auto.
  - rewrite (q_size _ _ _ Hq), (q_size _ _ _ Hq'), !length_app. cbn [length]. lia.
Qed.

Lemma push_to_queue_inserts_stably_witness :
  exists q' st',
    push_to_queue demo_queue (mk_process 3 0 20 10 4) demo_state =
      Ok ((push_success, q'), st') /\
    represents (heap st') q' [demo_b; mk_process 3 0 20 10 4; demo_a] /\
    size q' = 3.
Proof.
  destruct (push_to_queue_inserts_stably demo_queue (mk_process 3 0 20 10 4) demo_state
              demo_nodes.*2)
    as (q' & st' & l1 & l2 & Hrun & Hl & Hrep & _ & Hsize & Hl1 & Hl2).
  - apply (represents_nodes _ _ _ demo_is_queue).
  - apply demo_contents_ok.
  - cbn. lia.
  - apply (bool_decide_unpack _). vm_compute. exact I.
  - vm_compute. reflexivity.
  - exists q', st'. split; [exact Hrun|]. split; [|exact Hsize].
    destruct l1 as [|x1 [|x2 l1]].
    + cbn in Hl. subst l2. specialize (Hl2 demo_b ltac:(left)).
      vm_compute in Hl2. discriminate.
    + injection Hl as <- <-. exact Hrep.
    + injection Hl as <- <- Hl. specialize (Hl1 demo_a ltac:(right; left)).
      vm_compute in Hl1. discriminate.
Defined.

(** X8: on a well-formed queue a push whose assertion holds returns.
    It answers [push_success] exactly when no entry has the identity and
    [malloc] succeeds, and [push_error] exactly when no entry has the
    identity and [malloc] fails.  On every answer other than
    [push_success] the queue struct, the heap and the callbacks are as
    before, and when an entry has the identity nothing is allocated. *)
Theorem push_to_queue_outcome q p st l :
  represents (heap st) q l -> 10 <= niceness p <= 49 ->
  exists r q' st',
    push_to_queue q p st = Ok ((r, q'), st') /\
    (r = push_success <-> (identity p ∉ identity <$> l) /\ allocates st = true) /\
    (r = push_error <-> (identity p ∉ identity <$> l) /\ allocates st = false) /\
    (r <> push_success -> q' = q /\ heap st' = heap st /\ calls st' = calls st) /\
    (identity p ∈ identity <$> l -> st' = st).
Proof.
  intros (ns & Hq & <-) Hnice. apply niceness_ok_spec in Hnice.
  destruct (decide (classify ns.*2 p = push_success)) as [Hcl|Hcl].
  - pose proof (proj1 (classify_success _ _) Hcl) as Hid.
    destruct (allocates st) eqn:Hal.
    + destruct (push_to_queue_inserted q p st ns Hq Hnice Hcl Hal)
        as (a & q' & h' & _ & Hrun & _).
      eexists push_success, q', _. split; [exact Hrun|].
      split; [tauto|]. split; [split; [discriminate|intros [_ [=]]]|].
      split; [congruence|contradiction].
    + eexists push_error, q, _.
      split; [apply (push_to_queue_refused q p st ns Hq Hnice Hcl Hal)|].
      split; [split; [discriminate|intros [_ [=]]]|]. split; [tauto|].
      split; [auto|contradiction].
  - assert (Hid : identity p ∈ identity <$> ns.*2).
    { destruct (decide (identity p ∈ identity <$> ns.*2)) as [Hin|Hnotin]; [exact Hin|].
      contradiction Hcl. apply classify_success, Hnotin. }
    eexists (classify ns.*2 p), q, st.
    split; [apply (push_to_queue_rejected q p st ns Hq Hnice Hcl)|].
    split; [split; [contradiction|intros [Hno _]; contradiction]|].
    split; [|auto]. split; [|intros [Hno _]; contradiction].
    intros Herr. exfalso. revert Herr. clear. induction ns.*2 as [|x r IH]; cbn.
    + discriminate.
    + destruct (same_identity _ _ x); [destruct (same_schedule x p); discriminate|exact IH].
Qed.

Lemma push_to_queue_outcome_witness :
  exists st',
    push_to_queue demo_queue (mk_process 3 0 20 10 4) refusing_state =
      Ok ((push_error, demo_queue), st') /\
    heap st' = demo_heap.
Proof.
  destruct (push_to_queue_outcome demo_queue (mk_process 3 0 20 10 4) refusing_state
              demo_nodes.*2)
    as (r & q' & st' & Hrun & _ & Herr & Hsame & _).
  - apply (represents_nodes _ _ _ demo_is_queue).
  - cbn. lia.
  - assert (Hr : r = push_error).
    { apply Herr. split; [|reflexivity].
      apply (bool_decide_unpack _). vm_compute. exact I. }
    subst r. destruct (Hsame ltac:(discriminate)) as (-> & Hheap & _).
    exists st'. split; [exact Hrun|exact Hheap].
Defined.



(** X10: after a successful push, pushing the same process again
    answers [push_duplicate], and pushing a process of the same identity
    that differs in niceness, remaining time or CPU mask answers
    [push_inconsistent]; both leave the queue and the state as they
    are. *)
Theorem push_twice_is_duplicate q p st l q' st' :
  represents (heap st) q l ->
  push_to_queue q p st = Ok ((push_success, q'), st') ->
  push_to_queue q' p st' = Ok ((push_duplicate, q'), st') /\
  (forall p', identity p' = identity p -> p' <> p -> 10 <= niceness p' <= 49 ->
     push_to_queue q' p' st' = Ok ((push_inconsistent, q'), st')).
Proof.
  intros (ns & Hq & <-) Hrun.
  destruct (push_to_queue_success_inv q p st ns q' st' Hq Hrun) as (Hnice & Hcl & Hal).
  destruct (push_to_queue_inserted q p st ns Hq Hnice Hcl Hal)
    as (a & q1 & h1 & _ & Hrun1 & Hq1 & _).
  rewrite Hrun in Hrun1. injection Hrun1 as -> ->.
  destruct (insert_sorted_split (a, p) ns) as (ns1 & ns2 & -> & Hins & _).
  rewrite Hins in Hq1.
  assert (Hskip : forall p', identity p' = identity p ->
            classify (ns1 ++ (a, p) :: ns2).*2 p' =
            if same_schedule p p' then push_duplicate else push_inconsistent).
  { intros p' Hid. rewrite fmap_app, fmap_cons, classify_skip.
    - cbn [classify snd].
      rewrite (proj2 (same_identity_spec p' p)) by (symmetry; exact Hid). reflexivity.
    - intros x Hx. destruct (same_identity (callback p') (context p') x) eqn:E;
        [|reflexivity].
      apply same_identity_spec in E. apply classify_success in Hcl.
      contradiction Hcl. rewrite <- Hid, <- E, fmap_app.
      apply list_elem_of_fmap_2, elem_of_app. auto. }
  split.
  - pose proof (Hskip p eq_refl) as Hc.
    rewrite (proj2 (same_schedule_same_process p p eq_refl) eq_refl) in Hc.
    rewrite <- Hc. apply (push_to_queue_rejected q1 p (mk_state h1 _ _) _ Hq1 Hnice).
    rewrite Hc. discriminate.
  - intros p' Hid Hne Hnice'. apply niceness_ok_spec in Hnice'.
    pose proof (Hskip p' Hid) as Hc.
    destruct (same_schedule p p') eqn:E.
    { symmetry in Hid. apply (same_schedule_same_process p p' Hid) in E. congruence. }
    rewrite <- Hc. apply (push_to_queue_rejected q1 p' (mk_state h1 _ _) _ Hq1 Hnice').
    rewrite Hc. discriminate.
Qed.

Lemma push_twice_is_duplicate_witness :
  push_to_queue demo_queue demo_b demo_state = Ok ((push_duplicate, demo_queue), demo_state).
Proof.
  destruct (push_twice_is_duplicate
              (mk_queue (Some 1%positive) (Some 1%positive) 1) demo_b
              (mk_state (<[1%positive := mk_item demo_a None None]> ∅) [] [])
              [demo_a] demo_queue demo_state) as [Hdup _].
  - exists [(1%positive, demo_a)]. split; [|reflexivity].
    split; try reflexivity.
    + repeat split; vm_compute; reflexivity.
    + repeat constructor. intros H. inversion H.
  - vm_compute. reflexivity.
  - exact Hdup.
Defined.

(** ** Push and pop together *)

(** The nodes of a chain determine their cells. *)
Lemma dlseg_cells h h' ns : forall prv nxt,
  dlseg h prv ns nxt -> dlseg h' prv ns nxt ->
  forall b, b ∈ ns.*1 -> h !! b = h' !! b.
Proof.
  induction ns as [|n r IH]; intros prv nxt Hseg Hseg' b Hb; [inversion Hb|].
  destruct Hseg as [Hn Hr], Hseg' as [Hn' Hr'].
  rewrite fmap_cons in Hb. apply elem_of_cons in Hb as [->|Hb]; [congruence|].
  apply (IH _ _ Hr Hr' b Hb).
Qed.

(** The nodes of a queue determine its struct. *)
Lemma is_queue_struct h h' q q' ns : is_queue h q ns -> is_queue h' q' ns -> q = q'.
Proof.
  intros [_ _ _ Ht Hb Hs] [_ _ _ Ht' Hb' Hs']. destruct q, q'. cbn in *. congruence.
Qed.

(** X11: pushing a process with a new identity onto a queue none of
    whose entries is eligible for a mask, and then popping with that
    mask, hands the process back and restores the queue struct and the
    whole heap; only one answer of the allocator is used up.  The empty
    queue is the case with no entries. *)
Theorem push_pop_round_trip q p st l mask :
  represents (heap st) q l ->
  10 <= niceness p <= 49 ->
  identity p ∉ identity <$> l ->
  allocates st = true ->
  eligible mask p = true ->
  (forall x, x ∈ l -> eligible mask x = false) ->
  exists q1 st1,
    push_to_queue q p st = Ok ((push_success, q1), st1) /\
    pop_top q1 mask OutVar st1 =
      Ok ((true, Some p, q), mk_state (heap st) (tail (alloc_plan st)) (calls st)).
Proof.
  intros (ns & Hq & <-) Hnice Hid Hal Hp Hnone.
  apply niceness_ok_spec in Hnice. apply classify_success in Hid.
  destruct (push_to_queue_inserted q p st ns Hq Hnice Hid Hal)
    as (a & q1 & h1 & Ha & Hrun & Hq1 & Hpres1 & Hna1).
  destruct (insert_sorted_split (a, p) ns) as (ns1 & ns2 & -> & Hins & _).
  rewrite Hins in Hq1.
  set (st1 := mk_state h1 (tail (alloc_plan st)) (calls st)) in *.
  destruct (pop_top_first q1 mask OutVar st1 ns1 (a, p) ns2 Hq1)
    as (q2 & h2 & Hpop & Hq2 & Hpres2 & Hna2 & Hgone); [|exact Hp|discriminate|].
  { intros m Hm. apply Hnone, list_elem_of_fmap_2, elem_of_app. auto. }
  cbn [fst snd written_to heap st1] in Hpop, Hpres2, Hna2, Hgone.
  exists q1, st1. split; [exact Hrun|]. rewrite Hpop.
  rewrite (is_queue_struct _ _ _ _ _ Hq2 Hq).
  assert (Hheap : h2 = heap st).
  { apply map_eq. intros b.
    destruct (decide (b ∈ (ns1 ++ ns2).*1)) as [Hin|Hnotin].
    - apply (dlseg_cells _ _ _ _ _ (q_chain _ _ _ Hq2) (q_chain _ _ _ Hq) b Hin).
    - destruct (decide (b = a)) as [->|Hne]; [congruence|].
      destruct (heap st !! b) as [x|] eqn:Hb.
      + apply Hpres2; [|apply (Hpres1 b x Hnotin Hb)].
        rewrite fmap_app, fmap_cons. rewrite fmap_app in Hnotin.
        intros Hin. apply Hnotin. apply elem_of_app in Hin as [Hin|Hin];
          [apply elem_of_app; auto|].
        apply elem_of_cons in Hin as [Hin|Hin]; [contradiction|].
        apply elem_of_app; auto.
      + apply Hna2, Hna1; assumption. }
  rewrite Hheap. reflexivity.
Qed.

Lemma push_pop_round_trip_witness :
  exists q1 st1,
    push_to_queue demo_queue (mk_process 3 0 20 10 4) demo_state =
      Ok ((push_success, q1), st1) /\
    pop_top q1 4 OutVar st1 = Ok ((true, Some (mk_process 3 0 20 10 4), demo_queue), demo_state).
Proof.
  apply (push_pop_round_trip demo_queue (mk_process 3 0 20 10 4) demo_state demo_nodes.*2 4).
  - apply (represents_nodes _ _ _ demo_is_queue).
  - cbn. lia.
  - apply (bool_decide_unpack _). vm_compute. exact I.
  - reflexivity.
  - reflexivity.
  - intros x Hx. apply elem_of_cons in Hx as [->|Hx]; [reflexivity|].
    apply elem_of_cons in Hx as [->|Hx]; [reflexivity|inversion Hx].
Defined.

(** ** Selection in a sorted queue *)

(** X12: in a sorted queue the process that [pop_top] hands out is a
    queued process that is eligible for the mask, and no queued process
    that is eligible for the mask outranks it. *)
Theorem pop_top_pops_best_eligible q mask st l p q' st' :
  represents (heap st) q l -> sorted l ->
  pop_top q mask OutVar st = Ok ((true, Some p, q'), st') ->
  p ∈ l /\ eligible mask p = true /\
  (forall x, x ∈ l -> eligible mask x = true -> process_evaluation x p = false).
Proof.
  intros (ns & Hq & <-) Hs Hrun.
  destruct (split_first (eligible mask) ns) as [Hnone|(ns1 & [a pa] & ns2 & -> & Hskip & Hhit)].
  - rewrite (pop_top_none q mask OutVar st ns Hq Hnone) in Hrun. discriminate.
  - destruct (pop_top_first q mask OutVar st ns1 (a, pa) ns2 Hq Hskip Hhit)
      as (q2 & h2 & Hpop & _); [discriminate|].
    rewrite Hpop in Hrun. cbn [written_to snd] in Hrun, Hhit. injection Hrun as -> _ _.
    rewrite fmap_app, fmap_cons in Hs |- *. cbn [snd] in *.
    split; [apply elem_of_app; right; left|]. split; [exact Hhit|].
    intros x Hx Hel. apply elem_of_app in Hx as [Hx|Hx].
    + apply list_elem_of_fmap_1 in Hx as (m & -> & Hm). rewrite (Hskip m Hm) in Hel.
      discriminate.
    + apply sorted_app in Hs as (_ & Hs2 & _). apply sorted_cons in Hs2 as [Hp _].
      apply elem_of_cons in Hx as [->|Hx]; [|auto].
      order_facts. lia.
Qed.

Lemma pop_top_pops_best_eligible_witness :
  demo_a ∈ [demo_b; demo_a] /\ eligible 1 demo_a = true /\
  (forall x, x ∈ [demo_b; demo_a] -> eligible 1 x = true ->
     process_evaluation x demo_a = false).
Proof.
  apply (pop_top_pops_best_eligible demo_queue 1 demo_state [demo_b; demo_a] demo_a
           (mk_queue (Some 2%positive) (Some 2%positive) 1)
           (mk_state (<[2%positive := mk_item demo_b None None]> ∅) [] [])).
  - exact (represents_nodes _ _ _ demo_is_queue).
  - exact (proj1 demo_contents_ok).
  - vm_compute. reflexivity.
Defined.

(** ** [renice] *)

Lemma same_identity_pair cb ctx x :
  same_identity cb ctx x = true <-> identity x = (cb, ctx).
Proof.
  unfold same_identity, identity. rewrite andb_true_iff, !bool_decide_eq_true.
  split; [intros [-> ->]; reflexivity|intros [= -> ->]; auto].
Qed.

(** With unique identities the entry of an identity is the first one
    that [renice] meets. *)
Lemma unique_first l1 p l2 cb ctx :
  unique_identities (l1 ++ p :: l2) -> identity p = (cb, ctx) ->
  forall x, x ∈ l1 -> same_identity cb ctx x = false.
Proof.
  unfold unique_identities. rewrite fmap_app, fmap_cons.
  intros Hu Hid x Hx. apply NoDup_app in Hu as (_ & Hd & _).
  destruct (same_identity cb ctx x) eqn:E; [|reflexivity].
  apply same_identity_pair in E. exfalso.
  apply (Hd (identity x)); [apply list_elem_of_fmap_2, Hx|].
  rewrite E, <- Hid. apply elem_of_cons. auto.
Qed.

(** X13: on a queue that satisfies the invariant [renice] with a
    niceness in 10..49 returns true exactly when an entry has the
    identity [(callback, context)]; when it returns false the queue
    struct and the whole state are as before. *)
Theorem renice_true_iff_queued q cb ctx nice st l :
  represents (heap st) q l -> contents_ok l -> 10 <= nice <= 49 ->
  exists r q' st',
    renice q cb ctx nice st = Ok ((r, q'), st') /\
    (r = true <-> (cb, ctx) ∈ identity <$> l) /\
    (r = false -> q' = q /\ st' = st).
Proof.
  intros (ns & Hq & <-) Hok Hnice. pose proof Hok as (_ & Hu & _).
  apply niceness_ok_spec in Hnice.
  destruct (split_first (same_identity cb ctx) ns)
    as [Hnone|(ns1 & [a pa] & ns2 & -> & Hskip & Hhit)].
  - exists false, q, st. split; [apply (renice_miss q cb ctx nice st ns Hq Hnice Hnone)|].
    split; [|auto]. split; [discriminate|]. intros Hin.
    apply list_elem_of_fmap_1 in Hin as (x & Hid & Hx).
    apply list_elem_of_fmap_1 in Hx as (m & -> & Hm).
    symmetry in Hid. apply same_identity_pair in Hid. rewrite (Hnone m Hm) in Hid.
    discriminate.
  - destruct (renice_hit q cb ctx nice st ns1 a pa ns2 Hq Hu Hskip Hhit Hnice)
      as (q' & h' & Hrun & _).
    eexists true, q', _. split; [exact Hrun|]. split; [|discriminate].
    split; [|reflexivity]. intros _. cbn [snd] in Hhit.
    apply same_identity_pair in Hhit. rewrite <- Hhit.
    apply list_elem_of_fmap_2. rewrite fmap_app, fmap_cons.
    apply elem_of_app. right. left.
Qed.

Lemma renice_true_iff_queued_witness :
  renice demo_queue 7 7 20 demo_state = Ok ((false, demo_queue), demo_state).
Proof.
  destruct (renice_true_iff_queued demo_queue 7 7 20 demo_state demo_nodes.*2)
    as (r & q' & st' & Hrun & Hiff & Hsame).
  - apply (represents_nodes _ _ _ demo_is_queue).
  - exact demo_contents_ok.
  - lia.
  - destruct r.
    + exfalso. assert (Hin : (7, 7) ∈ identity <$> demo_nodes.*2) by (apply Hiff; reflexivity).
      revert Hin. apply (bool_decide_unpack _). vm_compute. exact I.
    + destruct (Hsame eq_refl) as [-> ->]. exact Hrun.
Defined.

(** X14: when the allocator grants the node of the re-push, [renice] of
    a queued identity returns true and moves that entry, with the new
    niceness and nothing else changed, behind every entry it does not
    outrank and before every entry it outranks; the other entries keep
    their order, [size] is as before and the invariant holds again. *)
Theorem renice_moves_entry q cb ctx nice st l1 p l2 :
  represents (heap st) q (l1 ++ p :: l2) ->
  contents_ok (l1 ++ p :: l2) ->
  identity p = (cb, ctx) ->
  10 <= nice <= 49 ->
  grants (alloc_plan st) = true ->
  exists q' st' k1 k2,
    renice q cb ctx nice st = Ok ((true, q'), st') /\
    represents (heap st') q' (k1 ++ with_niceness nice p :: k2) /\
    k1 ++ k2 = l1 ++ l2 /\
    contents_ok (k1 ++ with_niceness nice p :: k2) /\
    size q' = size q /\
    (forall x, x ∈ k1 -> process_evaluation (with_niceness nice p) x = false) /\
    (forall x, x ∈ k2 -> process_evaluation (with_niceness nice p) x = true).
Proof.
  intros Hrep Hok Hid Hnice Hgrants. pose proof Hok as (Hs & Hu & _).
  destruct (renice_requeues q cb ctx nice st l1 p l2 Hrep Hok
              (unique_first _ _ _ _ _ Hu Hid) (proj2 (same_identity_pair _ _ _) Hid)
              Hnice Hgrants) as (q' & st' & Hrun & Hrep' & Hok').
  destruct (insert_process_split (with_niceness nice p) (l1 ++ l2))
    as (k1 & k2 & Hk & Hins & Hk1 & Hk2).
  rewrite Hins in Hrep', Hok'.
  exists q', st', k1, k2. split; [exact Hrun|]. split; [exact Hrep'|].
  split; [auto|]. split; [exact Hok'|]. split; [|split; [exact Hk1|]].
  - destruct Hrep as (ns & Hq & Hl), Hrep' as (ns' & Hq' & Hl').
    rewrite (is_queue_size _ _ _ Hq), (is_queue_size _ _ _ Hq').
    rewrite <- (length_fmap snd ns), <- (length_fmap snd ns'), Hl, Hl'.
    apply (f_equal length) in Hk. rewrite !length_app in Hk |- *.
    cbn [length]. lia.
  - apply sorted_remove in Hs. rewrite Hk in Hs.
    apply sorted_app in Hs as (_ & Hs2 & _).
    apply (outranks_sorted_tail _ _ Hs2 Hk2).
Qed.

Lemma renice_moves_entry_witness :
  exists q' st' k1 k2,
    renice climb_queue 2 0 20 climb_state = Ok ((true, q'), st') /\
    represents (heap st') q' (k1 ++ with_niceness 20 climb_b :: k2) /\
    k1 ++ k2 = [climb_a] /\ size q' = 2.
Proof.
  destruct (renice_moves_entry climb_queue 2 0 20 climb_state [climb_a] climb_b [])
    as (q' & st' & k1 & k2 & Hrun & Hrep & Hk & _ & Hsize & _).
  - exact (represents_nodes _ _ _ climb_is_queue).
  - exact climb_contents_ok.
  - reflexivity.
  - lia.
  - reflexivity.
  - exists q', st', k1, k2. auto.
Defined.

(** X15: when the allocator refuses the node of the re-push, [renice]
    of a queued identity still returns true, and the entry is gone: the
    queue holds the other entries in their order, [size] is one less
    and no entry has the identity any more. *)
Theorem renice_drops_entry_without_memory q cb ctx nice st l1 p l2 :
  represents (heap st) q (l1 ++ p :: l2) ->
  contents_ok (l1 ++ p :: l2) ->
  identity p = (cb, ctx) ->
  10 <= nice <= 49 ->
  grants (alloc_plan st) = false ->
  exists q' st',
    renice q cb ctx nice st = Ok ((true, q'), st') /\
    represents (heap st') q' (l1 ++ l2) /\
    size q' = size q - 1 /\
    ((cb, ctx) ∉ identity <$> (l1 ++ l2)) /\
    contents_ok (l1 ++ l2).
Proof.
  intros Hrep Hok Hid Hnice Hgrants. pose proof Hok as (_ & Hu & _).
  destruct (renice_refused q cb ctx nice st l1 p l2 Hrep Hok
              (unique_first _ _ _ _ _ Hu Hid) (proj2 (same_identity_pair _ _ _) Hid)
              Hnice Hgrants) as (q' & st' & Hrun & Hrep' & Hsize).
  destruct (contents_ok_remove _ _ _ Hok) as (Hok' & Hgone & _).
  exists q', st'. rewrite <- Hid. auto.
Qed.

Lemma renice_drops_entry_without_memory_witness :
  exists q' st',
    renice demo_queue 2 0 30 refusing_state = Ok ((true, q'), st') /\
    represents (heap st') q' [demo_a] /\ size q' = 1.
Proof.
  destruct (renice_drops_entry_without_memory demo_queue 2 0 30 refusing_state
              [] demo_b [demo_a]) as (q' & st' & Hrun & Hrep & Hsize & _).
  - exact (represents_nodes _ _ _ demo_is_queue).
  - exact demo_contents_ok.
  - reflexivity.
  - lia.
  - reflexivity.
  - exists q', st'. auto.
Defined.

(** ** [run_top] *)

(** X16: when the callback returns a non-zero value and the allocator
    refuses the node of the re-push, [run_top] has called the callback
    once, returns the new remaining time, and the process is gone from
    the queue: the other entries are left in their order and [size] is
    one less. *)
Theorem run_top_drops_process_without_memory bh q mask run_time st l1 p l2 :
  represents (heap st) q (l1 ++ p :: l2) ->
  contents_ok (l1 ++ p :: l2) ->
  (forall x, x ∈ l1 -> eligible mask x = false) ->
  eligible mask p = true ->
  wrap_uint (bh (callback p) run_time (context p)) <> 0 ->
  grants (alloc_plan st) = false ->
  exists q' st',
    run_top bh q mask run_time st =
      Ok ((requeued_time (remaining_time p) run_time
             (wrap_uint (bh (callback p) run_time (context p))), q'), st') /\
    calls st' = calls st ++ [mk_call (callback p) run_time (context p)] /\
    represents (heap st') q' (l1 ++ l2) /\
    size q' = size q - 1 /\
    identity p ∉ identity <$> (l1 ++ l2).
Proof.
  intros Hrep Hok Hskip Hhit Hnz Hgrants.
  destruct (represents_split _ _ _ _ _ Hrep) as (ns1 & a & ns2 & Hq & <- & <-).
  destruct (contents_ok_remove _ _ _ Hok) as (_ & Hgone & Hnice).
  pose proof Hok as (_ & Hu & _).
  replace (ns1.*2 ++ p :: ns2.*2) with ((ns1 ++ (a, p) :: ns2).*2) in Hu
    by (rewrite fmap_app; reflexivity).
  destruct (run_top_requeue bh q mask run_time st ns1 a p ns2 Hq Hu
              (proj2 (niceness_ok_spec _) Hnice) (skip_nodes _ _ Hskip) Hhit Hnz)
    as (q' & h' & Hrun & _ & Hres).
  rewrite Hgrants in Hres.
  eexists q', _. split; [exact Hrun|]. cbn [heap calls].
  split; [reflexivity|]. split; [|split; [|exact Hgone]].
  - exists (ns1 ++ ns2). split; [exact Hres|]. apply fmap_app.
  - rewrite (is_queue_size _ _ _ Hres), (is_queue_size _ _ _ Hq), !length_app.
    cbn [length]. lia.
Qed.

Lemma run_top_drops_process_without_memory_witness :
  exists q' st',
    run_top (fun _ _ _ => 3) demo_queue 1 5 refusing_state = Ok ((98, q'), st') /\
    represents (heap st') q' [demo_b] /\ size q' = 1.
Proof.
  destruct (run_top_drops_process_without_memory (fun _ _ _ => 3) demo_queue 1 5
              refusing_state [demo_b] demo_a [])
    as (q' & st' & Hrun & _ & Hrep & Hsize & _).
  - exact (represents_nodes _ _ _ demo_is_queue).
  - exact demo_contents_ok.
  - intros x Hx. apply list_elem_of_singleton in Hx. subst x. reflexivity.
  - reflexivity.
  - vm_compute. discriminate.
  - reflexivity.
  - exists q', st'. auto.
Defined.

(** ** [copy_queue] *)

(** X17: a successful [copy_queue] allocates one node per entry of the
    source and frees nothing: the nodes that [dest] headed before the
    call stay allocated and linked as they were, and none of them is a
    node of the copy.  A caller that does not clear [dest] first loses
    them. *)
Theorem copy_queue_keeps_old_dest_nodes dest source st ms ds dest' st' :
  is_queue (heap st) source ms -> is_queue (heap st) dest ds ->
  copy_queue dest source st = Ok ((true, dest'), st') ->
  is_queue (heap st') dest ds /\
  base.size (heap st') = (base.size (heap st) + length ms)%nat /\
  exists cs,
    is_queue (heap st') dest' cs /\ length cs = length ms /\ disjoint cs ds.
Proof.
  intros Hsrc Hdst Hrun.
  destruct (copy_queue_spec dest source st ms Hsrc)
    as (st1 & _ & [(d1 & cs & _ & Hrun1 & Hq1 & Hproc & Hext & _)|(_ & Hrun1 & _)]);
    rewrite Hrun in Hrun1; [|discriminate].
  injection Hrun1 as <- <-. destruct Hext as [Hfresh Hkeeps Honly].
  split; [|split].
  - destruct Hdst as [Hseg Hnd _ Htop Hbot Hsz].
    split; [|exact Hnd|apply (q_heap _ _ _ Hq1)|exact Htop|exact Hbot|exact Hsz].
    apply (dlseg_frame _ _ _ _ _ Hseg). intros b Hb.
    destruct (dlseg_allocated _ _ _ _ _ Hseg Hb) as [x Hx].
    rewrite Hx. apply Hkeeps, Hx.
  - pose proof (extends_release _ _ _ (mk_extends _ _ _ Hfresh Hkeeps Honly)) as Hrel.
    pose proof (release_size cs _ (q_nodup _ _ _ Hq1)
                  (fun b Hb => dlseg_allocated _ _ _ _ _ (q_chain _ _ _ Hq1) Hb)) as Hsz.
    rewrite Hrel in Hsz.
    apply (f_equal length) in Hproc. rewrite !length_fmap in Hproc. lia.
  - exists cs. split; [exact Hq1|]. split.
    + apply (f_equal length) in Hproc. rewrite !length_fmap in Hproc. exact Hproc.
    + intros b Hb Hb'. specialize (Hfresh b Hb).
      destruct (dlseg_allocated _ _ _ _ _ (q_chain _ _ _ Hdst) Hb'). congruence.
Qed.

Lemma copy_queue_keeps_old_dest_nodes_witness :
  exists st',
    copy_queue demo_queue demo_queue demo_state =
      Ok ((true, mk_queue (Some 3%positive) (Some 4%positive) 2), st') /\
    is_queue (heap st') demo_queue demo_nodes /\
    base.size (heap st') = 4%nat.
Proof.
  eexists. split; [vm_compute; reflexivity|].
  destruct (copy_queue_keeps_old_dest_nodes demo_queue demo_queue demo_state
              demo_nodes demo_nodes _ _ demo_is_queue demo_is_queue
              ltac:(vm_compute; reflexivity)) as (Hold & Hsize & _).
  split; [exact Hold|exact Hsize].
Defined.

(** ** The empty queue and the empty mask *)

(** X18: on the queue [create_queue] returns, in any state of the
    memory: [get_top] returns NULL, [pop_top] returns false, [run_top]
    returns 0 and calls nothing, [renice] returns false, [clear_queue]
    frees nothing, and [copy_queue] succeeds without allocating and
    makes [dest] empty. *)
Theorem empty_queue_operations st mask :
  get_top create_queue mask st = Ok (None, st) /\
  (forall out, pop_top create_queue mask out st = Ok ((false, None, create_queue), st)) /\
  (forall bh run_time,
     run_top bh create_queue mask run_time st = Ok ((0, create_queue), st)) /\
  (forall cb ctx nice, 10 <= nice <= 49 ->
     renice create_queue cb ctx nice st = Ok ((false, create_queue), st)) /\
  clear_queue create_queue st = Ok (create_queue, st) /\
  (forall dest, copy_queue dest create_queue st = Ok ((true, create_queue), st)).
Proof.
  destruct st as [h plan cs].
  split; [|split; [|split; [|split; [|split]]]].
  - unfold get_top, bind, chain_fuel. cbn. destruct (base.size h); reflexivity.
  - intros out. unfold pop_top, bind, chain_fuel. cbn. destruct (base.size h); reflexivity.
  - reflexivity.
  - intros cb ctx nice Hnice. apply niceness_ok_spec in Hnice.
    unfold renice, bind, chain_fuel. rewrite Hnice. cbn.
    destruct (base.size h); reflexivity.
  - unfold clear_queue, bind, chain_fuel. cbn. destruct (base.size h); reflexivity.
  - intros dest. unfold copy_queue, bind, chain_fuel. cbn.
    destruct (base.size h); reflexivity.
Qed.

Lemma empty_queue_operations_witness :
  renice create_queue 1 0 20 demo_state = Ok ((false, create_queue), demo_state).
Proof.
  destruct (empty_queue_operations demo_state 1) as (_ & _ & _ & Hrenice & _).
  apply Hrenice. lia.
Defined.

Lemma eligible_zero p : eligible 0 p = false.
Proof. unfold eligible. rewrite Z.land_0_r. reflexivity. Qed.

(** X19: with the mask 0 no process is eligible: on a well-formed queue
    [get_top] returns NULL, [pop_top] returns false and [run_top]
    returns 0 without calling a callback, and the queue and the state
    are as before. *)
Theorem zero_mask_selects_nothing q st l :
  represents (heap st) q l ->
  get_top q 0 st = Ok (None, st) /\
  (forall out, pop_top q 0 out st = Ok ((false, None, q), st)) /\
  (forall bh run_time, run_top bh q 0 run_time st = Ok ((0, q), st)).
Proof.
  intros (ns & Hq & _).
  assert (Hnone : forall m, m ∈ ns -> eligible 0 m.2 = false)
    by (intros m _; apply eligible_zero).
  split; [apply (get_top_none q 0 st ns Hq Hnone)|].
  split; [intros out; apply (pop_top_none q 0 out st ns Hq Hnone)|].
  intros bh run_time. apply (run_top_none bh q 0 run_time st ns Hq Hnone).
Qed.

Lemma zero_mask_selects_nothing_witness :
  run_top (fun _ _ _ => 1) demo_queue 0 5 demo_state = Ok ((0, demo_queue), demo_state).
Proof.
  destruct (zero_mask_selects_nothing demo_queue demo_state demo_nodes.*2
              (represents_nodes _ _ _ demo_is_queue)) as (_ & _ & Hrun).
  apply Hrun.
Defined.

(** ** Memory accounting *)

Lemma releases_refl ns h : releases ns ns h h.
Proof. intros b Hb. rewrite decide_False by exact Hb. reflexivity. Qed.

Lemma releases_trans ns ns1 ns2 h h1 h2 :
  releases ns ns1 h h1 -> fresh_nodes ns ns1 h -> releases ns1 ns2 h1 h2 ->
  releases ns ns2 h h2.
Proof.
  intros H1 Hf H2 b Hb. rewrite (H2 b Hb).
  destruct (decide (b ∈ ns1.*1)) as [Hin|Hnotin]; [|apply H1, Hnotin].
  destruct (Hf b Hin) as [Hold|Hnew]; [rewrite decide_True by exact Hold; reflexivity|].
  rewrite Hnew. destruct (decide (b ∈ ns.*1)); reflexivity.
Qed.

(** The heap of a state whose allocator did not answer. *)
Lemma releases_same_ids ns ns' h h' :
  ns'.*1 = ns.*1 -> (forall b, b ∉ ns.*1 -> h' !! b = h !! b) -> releases ns ns' h h'.
Proof.
  intros Hids Hsame b Hb. rewrite Hids in Hb. rewrite decide_False by exact Hb. auto.
Qed.

Lemma releases_remove ns1 n ns2 h h' :
  preserves (ns1 ++ n :: ns2) h h' ->
  (forall b, h !! b = None -> h' !! b = None) ->
  h' !! n.1 = None ->
  releases (ns1 ++ n :: ns2) (ns1 ++ ns2) h h'.
Proof.
  intros Hpres Hna Hgone b Hb.
  destruct (decide (b ∈ (ns1 ++ n :: ns2).*1)) as [Hin|Hnotin].
  - rewrite fmap_app, fmap_cons in Hin. rewrite fmap_app in Hb.
    apply elem_of_app in Hin as [Hin|Hin]; [contradiction Hb; apply elem_of_app; auto|].
    apply elem_of_cons in Hin as [->|Hin]; [exact Hgone|].
    contradiction Hb. apply elem_of_app. auto.
  - destruct (h !! b) as [x|] eqn:E; [apply (Hpres b x Hnotin E)|apply Hna, E].
Qed.

Lemma insert_sorted_ids n ns b :
  b ∈ (insert_sorted n ns).*1 <-> b = n.1 \/ b ∈ ns.*1.
Proof.
  destruct (insert_sorted_split n ns) as (ns1 & ns2 & -> & -> & _).
  rewrite !fmap_app, fmap_cons, !elem_of_app, elem_of_cons. tauto.
Qed.

Lemma releases_insert a p ns h h' :
  preserves ns h h' ->
  (forall b, b <> a -> h !! b = None -> h' !! b = None) ->
  releases ns (insert_sorted (a, p) ns) h h'.
Proof.
  intros Hpres Hna b Hb.
  assert (Hne : b <> a) by (intros ->; apply Hb, insert_sorted_ids; auto).
  assert (Hnotin : b ∉ ns.*1) by (intros Hin; apply Hb, insert_sorted_ids; auto).
  rewrite decide_False by exact Hnotin.
  destruct (h !! b) as [x|] eqn:E; [apply (Hpres b x Hnotin E)|apply Hna; assumption].
Qed.

(** The second half of [renice] and [run_top]: the node [a], whose
    process was updated in place to [p'], has been unlinked and freed,
    and [p'] is pushed again. *)
Lemma requeue_exact q q1 p' st0 h h2 ns1 a pa ns2 :
  is_queue h q (ns1 ++ (a, pa) :: ns2) ->
  contents_ok (ns1 ++ (a, pa) :: ns2).*2 ->
  identity p' = identity pa -> 10 <= niceness p' <= 49 ->
  is_queue h2 q1 (ns1 ++ ns2) ->
  preserves (ns1 ++ (a, p') :: ns2)
    (<[a := mk_item p' (hd_ptr ns2 None) (last_ptr ns1 None)]> h) h2 ->
  (forall b, <[a := mk_item p' (hd_ptr ns2 None) (last_ptr ns1 None)]> h !! b = None ->
             h2 !! b = None) ->
  h2 !! a = None ->
  exists res q2 st2 ns',
    push_to_queue q1 p' (set_heap h2 st0) = Ok ((res, q2), st2) /\
    calls st2 = calls st0 /\
    is_queue (heap st2) q2 ns' /\ contents_ok ns'.*2 /\
    fresh_nodes (ns1 ++ (a, pa) :: ns2) ns' h /\
    releases (ns1 ++ (a, pa) :: ns2) ns' h (heap st2).
Proof.
  intros Hq Hok Hid Hnice Hq2 Hpres2 Hna2 Hgone.
  pose proof (q_chain _ _ _ Hq) as Hseg. apply dlseg_app in Hseg as [_ [Hcell _]].
  cbn [fst snd] in Hcell.
  set (h1 := <[a := mk_item p' (hd_ptr ns2 None) (last_ptr ns1 None)]> h) in *.
  assert (Hrel2 : releases (ns1 ++ (a, pa) :: ns2) (ns1 ++ ns2) h h2).
  { apply (releases_trans _ (ns1 ++ (a, p') :: ns2) _ _ h1).
    - apply releases_same_ids; [rewrite !fmap_app, !fmap_cons; reflexivity|].
      intros b Hb. unfold h1. apply lookup_insert_ne. intros <-. apply Hb.
      rewrite fmap_app, fmap_cons. apply elem_of_app. right. left.
    - intros b Hb. left. rewrite fmap_app, fmap_cons in Hb |- *. exact Hb.
    - apply (releases_remove ns1 (a, p') ns2 h1 h2 Hpres2 Hna2 Hgone). }
  assert (Hfresh2 : fresh_nodes (ns1 ++ (a, pa) :: ns2) (ns1 ++ ns2) h).
  { intros b Hb. left. apply remove_nodes, Hb. }
  assert (Hsize : (base.size h2 < base.size h)%nat).
  { eapply (free_size _ _ a); [|exact Hcell|exact Hgone].
    intros b Hb. apply Hna2. unfold h1. apply lookup_insert_None. split; [exact Hb|].
    intros ->. congruence. }
  rewrite fmap_app, fmap_cons in Hok. cbn [snd] in Hok.
  destruct (contents_ok_remove _ _ _ Hok) as (Hok' & Hgone' & _).
  rewrite <- Hid, <- fmap_app in Hgone'.
  pose proof (push_after_free q1 p' st0 h2 (ns1 ++ ns2) Hq2
                ltac:(pose proof (q_heap _ _ _ Hq); lia)
                (proj2 (niceness_ok_spec _) Hnice) Hgone') as Hpush.
  destruct (grants (alloc_plan st0)).
  - destruct Hpush as (a' & q2 & h' & Ha' & Hrun & Hq' & Hpres' & Hna').
    eexists push_success, q2, _, (insert_sorted (a', p') (ns1 ++ ns2)).
    split; [exact Hrun|]. cbn [heap calls]. split; [reflexivity|].
    split; [exact Hq'|]. split; [|split].
    + rewrite insert_sorted_processes, fmap_app.
      apply (contents_ok_requeue _ pa); assumption.
    + intros b Hb. apply insert_sorted_ids in Hb as [->|Hb]; [|left; apply remove_nodes, Hb].
      cbn [fst]. assert (Hout : a' ∉ (ns1 ++ ns2).*1).
      { intros Hin. destruct (dlseg_allocated _ _ _ _ _ (q_chain _ _ _ Hq2) Hin). congruence. }
      specialize (Hrel2 a' Hout). rewrite Ha' in Hrel2.
      destruct (decide (a' ∈ (ns1 ++ (a, pa) :: ns2).*1)); auto.
    + apply (releases_trans _ (ns1 ++ ns2) _ _ h2 _ Hrel2 Hfresh2).
      apply (releases_insert a' p' _ _ _ Hpres' Hna').
  - eexists push_error, q1, _, (ns1 ++ ns2). split; [exact Hpush|].
    cbn [heap calls]. split; [reflexivity|]. split; [exact Hq2|].
    split; [rewrite fmap_app; exact Hok'|]. split; [exact Hfresh2|exact Hrel2].
Qed.

(** [renice] on a queued identity is the update in place, [pop_item] and
    [push_to_queue]. *)
Lemma renice_hit_run q cb ctx nice st ns1 a pa ns2 q1 st1 res q2 st2 :
  is_queue (heap st) q (ns1 ++ (a, pa) :: ns2) ->
  (forall m, m ∈ ns1 -> same_identity cb ctx m.2 = false) ->
  same_identity cb ctx pa = true ->
  niceness_ok nice = true ->
  pop_item q a
    (set_heap (<[a := mk_item (with_niceness nice pa) (hd_ptr ns2 None) (last_ptr ns1 None)]>
                 (heap st)) st) = Ok (q1, st1) ->
  push_to_queue q1 (with_niceness nice pa) st1 = Ok ((res, q2), st2) ->
  renice q cb ctx nice st = Ok ((true, q2), st2).
Proof.
  intros Hq Hskip Hhit Hnice Hpop Hp.
  pose proof Hq as [Hseg Hnd Hheap Htop _ _].
  pose proof (dlseg_length _ _ _ _ Hseg Hnd) as Hlen.
  pose proof Hseg as Hseg'. apply dlseg_app in Hseg' as [_ [Hcell _]].
  cbn [fst snd] in Hcell.
  unfold renice. rewrite Hnice. cbn [assert_]. rewrite bind_ret, bind_chain_fuel, Htop.
  rewrite (bind_Ok _ _ _ (Some (true, q2)) st2); [reflexivity|].
  apply (for_items_return _ st _ None ns1 (a, pa) ns2 None); [exact Hseg| | |].
  - intros [c pc] Hm.
    destruct (dlseg_lookup _ _ _ _ c pc Hseg) as (nx & pv & Hc).
    { apply elem_of_app. auto. }
    rewrite (bind_load _ _ _ _ Hc). cbn [process fst].
    pose proof (Hskip _ Hm) as E. cbn [snd] in E. rewrite E. reflexivity.
  - rewrite length_app in Hlen. cbn in Hlen. lia.
  - cbn [fst]. rewrite (bind_load _ _ _ _ Hcell). cbn [process]. rewrite Hhit.
    rewrite (bind_store _ _ _ _ _ Hcell). cbn [set_process process next prev].
    erewrite bind_load by (cbn [heap set_heap]; apply lookup_insert_eq).
    cbn [process]. rewrite (bind_Ok _ _ _ _ _ Hpop).
    rewrite (bind_Ok _ _ _ _ _ Hp). reflexivity.
Qed.

(** [run_top] after a non-zero return is the update in place, [pop_top]
    and [push_to_queue]. *)
Lemma run_top_requeue_run bh q mask run_time st ns1 a pa ns2 q1 st1 res q2 st2 :
  is_queue (heap st) q (ns1 ++ (a, pa) :: ns2) ->
  (forall m, m ∈ ns1 -> eligible mask m.2 = false) ->
  eligible mask pa = true ->
  wrap_uint (bh (callback pa) run_time (context pa)) <> 0 ->
  let v := wrap_uint (bh (callback pa) run_time (context pa)) in
  let p' := with_remaining_time (requeued_time (remaining_time pa) run_time v) pa in
  let ev := mk_call (callback pa) run_time (context pa) in
  pop_top q mask OutVar
    (set_heap (<[a := mk_item p' (hd_ptr ns2 None) (last_ptr ns1 None)]> (heap st))
       (called ev st)) = Ok ((true, Some p', q1), st1) ->
  push_to_queue q1 p' st1 = Ok ((res, q2), st2) ->
  run_top bh q mask run_time st = Ok ((remaining_time p', q2), st2).
Proof.
  intros Hq Hskip Hhit Hnz v p' ev Hpop Hp.
  pose proof Hq as [Hseg _ _ Htop _ _].
  pose proof Hseg as Hseg'. apply dlseg_app in Hseg' as [_ [Hcell _]].
  cbn [fst snd] in Hcell.
  unfold run_top. destruct (top q) eqn:Htq.
  - rewrite (bind_Ok _ _ _ _ _ (get_top_first q mask st ns1 (a, pa) ns2 Hq Hskip Hhit)).
    cbn [fst]. rewrite (bind_load _ _ _ _ Hcell). cbn [process].
    unfold bind at 1. unfold invoke. fold v. fold ev. fold (called ev st).
    rewrite (proj2 (Z.eqb_neq v 0) Hnz).
    erewrite bind_load by (cbn [heap called]; exact Hcell). cbn [process].
    assert (Hstore :
      (if run_time <? remaining_time pa
       then store a (fun it => set_process
              (with_remaining_time
                 (wrap_uint (remaining_time (process it) - run_time + v))
                 (process it)) it)
       else store a (fun it => set_process (with_remaining_time v (process it)) it))
        (called ev st) =
      Ok (tt, set_heap (<[a := mk_item p' (hd_ptr ns2 None) (last_ptr ns1 None)]> (heap st))
                (called ev st))).
    { unfold p', requeued_time.
      destruct (run_time <? remaining_time pa); unfold store; cbn [heap called];
        rewrite Hcell; reflexivity. }
    rewrite (bind_Ok _ _ _ _ _ Hstore), (bind_Ok _ _ _ _ _ Hpop).
    rewrite (bind_Ok _ _ _ _ _ Hp). reflexivity.
  - rewrite hd_ptr_app in Htop. destruct ns1; discriminate.
Qed.

Lemma exact_step_same q st st' ns :
  is_queue (heap st) q ns -> contents_ok ns.*2 -> heap st' = heap st ->
  exact_step ns st q st'.
Proof.
  intros Hq Hok Hheap. exists ns. rewrite Hheap. split; [exact Hq|].
  split; [exact Hok|]. split; [apply fresh_nodes_refl|apply releases_refl].
Qed.

Lemma push_to_queue_exact q p st ns :
  is_queue (heap st) q ns -> contents_ok ns.*2 -> 10 <= niceness p <= 49 ->
  exists r q' st',
    push_to_queue q p st = Ok ((r, q'), st') /\ exact_step ns st q' st' /\
    calls st' = calls st.
Proof.
  intros Hq Hok Hnice. pose proof (proj2 (niceness_ok_spec _) Hnice) as Hnice'.
  destruct (decide (classify ns.*2 p = push_success)) as [Hcl|Hcl].
  - destruct (allocates st) eqn:Hal.
    + destruct (push_to_queue_inserted q p st ns Hq Hnice' Hcl Hal)
        as (a & q' & h' & Ha & Hrun & Hq' & Hpres & Hna).
      eexists _, q', _. split; [exact Hrun|]. split; [|reflexivity].
      exists (insert_sorted (a, p) ns). cbn [heap]. split; [exact Hq'|].
      split; [|split].
      * rewrite insert_sorted_processes. apply contents_ok_insert; assumption.
      * intros b Hb. apply insert_sorted_ids in Hb as [->|Hb]; auto.
      * apply (releases_insert a p _ _ _ Hpres Hna).
    + eexists _, q, _. split; [apply (push_to_queue_refused q p st ns); assumption|].
      split; [|reflexivity]. apply exact_step_same; auto.
  - eexists _, q, _. split; [apply (push_to_queue_rejected q p st ns); assumption|].
    split; [|reflexivity]. apply exact_step_same; auto.
Qed.

Lemma pop_top_exact q mask out st ns :
  is_queue (heap st) q ns -> contents_ok ns.*2 ->
  out = OutNull \/ out = OutVar ->
  exists r w q' st',
    pop_top q mask out st = Ok ((r, w, q'), st') /\ exact_step ns st q' st' /\
    calls st' = calls st.
Proof.
  intros Hq Hok Hout.
  destruct (split_first (eligible mask) ns) as [Hnone|(ns1 & [a p] & ns2 & -> & Hskip & Hhit)].
  - eexists _, _, q, st. split; [apply (pop_top_none q mask out st ns Hq Hnone)|].
    split; [|reflexivity]. apply exact_step_same; auto.
  - destruct (pop_top_first q mask out st ns1 (a, p) ns2 Hq Hskip Hhit)
      as (q' & h' & Hpop & Hq' & Hpres & Hna & Hgone).
    { intros o ->. destruct Hout; discriminate. }
    eexists _, _, q', _. split; [exact Hpop|]. split; [|reflexivity].
    exists (ns1 ++ ns2). cbn [heap set_heap]. split; [exact Hq'|].
    split; [|split].
    + rewrite fmap_app, fmap_cons in Hok. rewrite fmap_app.
      apply (contents_ok_remove _ _ _ Hok).
    + intros b Hb. left. apply remove_nodes, Hb.
    + apply (releases_remove ns1 (a, p) ns2 _ _ Hpres Hna Hgone).
Qed.

Lemma clear_queue_exact q st ns :
  is_queue (heap st) q ns ->
  exists q' st',
    clear_queue q st = Ok (q', st') /\ exact_step ns st q' st' /\ calls st' = calls st.
Proof.
  intros Hq. destruct (clear_queue_spec q st ns Hq) as (Hrun & Hq' & _).
  eexists _, _. split; [exact Hrun|]. split; [|reflexivity].
  exists []. cbn [heap set_heap].
  split; [exact Hq'|]. split; [apply contents_ok_nil|]. split.
  - intros b Hb. inversion Hb.
  - intros b _. destruct (decide (b ∈ ns.*1)) as [Hin|Hnotin];
      [apply release_lookup_in, Hin|apply release_lookup_notin, Hnotin].
Qed.

Lemma renice_exact q cb ctx nice st ns :
  is_queue (heap st) q ns -> contents_ok ns.*2 -> 10 <= nice <= 49 ->
  exists r q' st',
    renice q cb ctx nice st = Ok ((r, q'), st') /\ exact_step ns st q' st' /\
    calls st' = calls st.
Proof.
  intros Hq Hok Hnice. pose proof (proj2 (niceness_ok_spec _) Hnice) as Hnice'.
  destruct (split_first (same_identity cb ctx) ns)
    as [Hnone|(ns1 & [a p] & ns2 & -> & Hskip & Hhit)].
  - eexists _, q, st. split; [apply (renice_miss q cb ctx nice st ns Hq Hnice' Hnone)|].
    split; [|reflexivity]. apply exact_step_same; auto.
  - cbn [snd] in Hhit.
    pose proof (q_chain _ _ _ Hq) as Hseg. apply dlseg_app in Hseg as [_ [Hcell _]].
    cbn [fst snd] in Hcell.
    pose proof (is_queue_set_process _ _ _ _ _ _ _ (with_niceness nice p) Hq Hcell) as Hq1.
    cbn [set_process process next prev] in Hq1.
    destruct (pop_item_spec q (set_heap _ st) ns1 (a, with_niceness nice p) ns2 Hq1)
      as (q1 & h2 & Hpop & Hq2 & Hpres2 & Hna2 & Hgone).
    cbn [heap set_heap fst] in Hpop, Hpres2, Hna2, Hgone.
    destruct (requeue_exact q q1 (with_niceness nice p) st (heap st) h2 ns1 a p ns2
                Hq Hok eq_refl Hnice Hq2 Hpres2 Hna2 Hgone)
      as (res & q2 & st2 & ns' & Hpush & Hcalls & Hstep).
    exists true, q2, st2. split; [|split; [exists ns'; exact Hstep|exact Hcalls]].
    apply (renice_hit_run q cb ctx nice st ns1 a p ns2 q1 _ res q2 st2
             Hq Hskip Hhit Hnice' Hpop Hpush).
Qed.

Lemma run_top_exact bh q mask run_time st ns :
  is_queue (heap st) q ns -> contents_ok ns.*2 ->
  exists r q' st',
    run_top bh q mask run_time st = Ok ((r, q'), st') /\ exact_step ns st q' st' /\
    calls_allowed (MRun bh mask run_time) ns.*2 (calls st) (calls st').
Proof.
  intros Hq Hok.
  destruct (split_first (eligible mask) ns) as [Hnone|(ns1 & [a p] & ns2 & -> & Hskip & Hhit)].
  - eexists _, q, st. split; [apply (run_top_none bh q mask run_time st ns Hq Hnone)|].
    split; [apply exact_step_same; auto|]. left. reflexivity.
  - cbn [snd] in Hhit.
    assert (Hin : p ∈ (ns1 ++ (a, p) :: ns2).*2).
    { rewrite fmap_app, fmap_cons. apply elem_of_app. right. left. }
    pose proof Hok as Hok0. rewrite fmap_app, fmap_cons in Hok0. cbn [snd] in Hok0.
    pose proof (contents_ok_remove _ _ _ Hok0) as (Hok' & _ & Hn).
    destruct (decide (wrap_uint (bh (callback p) run_time (context p)) = 0)) as [Hz|Hnz].
    + destruct (run_top_done bh q mask run_time st ns1 a p ns2 Hq Hskip Hhit Hz)
        as (q' & h' & Hrun & Hq' & Hpres & Hna & Hgone).
      eexists _, q', _. split; [exact Hrun|]. cbn [heap calls]. split.
      * exists (ns1 ++ ns2). cbn [heap]. split; [exact Hq'|].
        split; [rewrite fmap_app; exact Hok'|]. split.
        -- intros b Hb. left. apply remove_nodes, Hb.
        -- apply (releases_remove ns1 (a, p) ns2 _ _ Hpres Hna Hgone).
      * right. exists p. auto.
    + set (v := wrap_uint (bh (callback p) run_time (context p))) in *.
      set (p' := with_remaining_time (requeued_time (remaining_time p) run_time v) p).
      set (ev := mk_call (callback p) run_time (context p)).
      pose proof (q_chain _ _ _ Hq) as Hseg. apply dlseg_app in Hseg as [_ [Hcell _]].
      cbn [fst snd] in Hcell.
      pose proof (is_queue_set_process _ _ _ _ _ _ _ p' Hq Hcell) as Hq1.
      cbn [set_process process next prev] in Hq1.
      destruct (pop_top_first q mask OutVar (set_heap _ (called ev st)) ns1 (a, p') ns2
                  Hq1 Hskip Hhit) as (q1 & h2 & Hpop & Hq2 & Hpres2 & Hna2 & Hgone).
      { intros o [=]. }
      cbn [heap set_heap fst snd written_to] in Hpop, Hpres2, Hna2, Hgone.
      destruct (requeue_exact q q1 p' (called ev st) (heap st) h2 ns1 a p ns2
                  Hq Hok eq_refl Hn Hq2 Hpres2 Hna2 Hgone)
        as (res & q2 & st2 & ns' & Hpush & Hcalls & Hstep).
      exists (remaining_time p'), q2, st2.
      split; [|split; [exists ns'; exact Hstep|right; exists p; auto]].
      apply (run_top_requeue_run bh q mask run_time st ns1 a p ns2 q1 _ res q2 st2
               Hq Hskip Hhit Hnz Hpop Hpush).
Qed.

Lemma mutate_exact m q st ns :
  is_queue (heap st) q ns -> contents_ok ns.*2 -> asserted m ->
  exists q' st',
    mutate m q st = Ok (q', st') /\ exact_step ns st q' st' /\
    calls_allowed m ns.*2 (calls st) (calls st').
Proof.
  intros Hq Hok Hm. destruct m as [p|mask v|cb ctx nice|bh mask run_time|]; cbn [mutate].
  - destruct (push_to_queue_exact q p st ns Hq Hok Hm) as (r & q' & st' & Hrun & Hres).
    exists q', st'. rewrite (bind_Ok _ _ _ _ _ Hrun). auto.
  - destruct (pop_top_exact q mask (if v then OutVar else OutNull) st ns Hq Hok)
      as (r & w & q' & st' & Hrun & Hres); [destruct v; auto|].
    exists q', st'. rewrite (bind_Ok _ _ _ _ _ Hrun). auto.
  - destruct (renice_exact q cb ctx nice st ns Hq Hok Hm) as (r & q' & st' & Hrun & Hres).
    exists q', st'. rewrite (bind_Ok _ _ _ _ _ Hrun). auto.
  - destruct (run_top_exact bh q mask run_time st ns Hq Hok)
      as (r & q' & st' & Hrun & Hres).
    exists q', st'. rewrite (bind_Ok _ _ _ _ _ Hrun). auto.
  - apply (clear_queue_exact q st ns Hq).
Qed.

(** X20: after any sequence of [push_to_queue], [pop_top], [renice],
    [run_top] and [clear_queue] calls whose assertions hold, every cell
    that is not a node of the resulting queue is free if it was a node
    of the queue at the start, and is otherwise exactly as it was: each
    node taken out of the queue was freed, no node was allocated without
    being linked, and memory outside the queue was not touched. *)
Theorem mutations_account_for_memory ms q st ns :
  is_queue (heap st) q ns -> contents_ok ns.*2 -> Forall asserted ms ->
  exists q' st' ns',
    mutate_all ms q st = Ok (q', st') /\
    is_queue (heap st') q' ns' /\
    (forall b, b ∉ ns'.*1 ->
       heap st' !! b = if decide (b ∈ ns.*1) then None else heap st !! b).
Proof.
  intros Hq Hok Hms.
  enough (exists q' st', mutate_all ms q st = Ok (q', st') /\ exact_step ns st q' st')
    as (q' & st' & Hrun & ns' & Hq' & _ & _ & Hrel) by (exists q', st', ns'; auto).
  revert q st ns Hq Hok. induction ms as [|m r IH]; intros q st ns Hq Hok.
  - exists q, st. split; [reflexivity|]. apply exact_step_same; auto.
  - apply Forall_cons in Hms as [Hm Hr].
    destruct (mutate_exact m q st ns Hq Hok Hm)
      as (q1 & st1 & Hrun & (ns1 & Hq1 & Hok1 & Hfresh1 & Hrel1) & _).
    destruct (IH Hr q1 st1 ns1 Hq1 Hok1)
      as (q' & st' & Hrun' & ns' & Hq' & Hok' & Hfresh' & Hrel').
    exists q', st'. cbn [mutate_all]. rewrite (bind_Ok _ _ _ _ _ Hrun).
    split; [exact Hrun'|]. exists ns'. split; [exact Hq'|]. split; [exact Hok'|].
    split; [|apply (releases_trans _ _ _ _ _ _ Hrel1 Hfresh1 Hrel')].
    intros b Hb. destruct (Hfresh' b Hb) as [Hin|Hnew].
    + apply (Hfresh1 b Hin).
    + destruct (decide (b ∈ ns.*1)) as [Hold|Hnotin]; [auto|]. right.
      destruct (decide (b ∈ ns1.*1)) as [Hin1|Hnotin1].
      * destruct (Hfresh1 b Hin1); [contradiction|assumption].
      * rewrite <- Hnew, (Hrel1 b Hnotin1), decide_False by exact Hnotin. reflexivity.
Qed.

Lemma mutations_account_for_memory_witness :
  exists q' st' ns',
    mutate_all [MRenice 1 0 15; MRun (fun _ _ _ => 3) 1 5; MPop 2 true; MClear]
      demo_queue demo_state = Ok (q', st') /\
    is_queue (heap st') q' ns' /\
    (forall b, b ∉ ns'.*1 ->
       heap st' !! b = if decide (b ∈ demo_nodes.*1) then None else demo_heap !! b).
Proof.
  apply (mutations_account_for_memory _ demo_queue demo_state demo_nodes
           demo_is_queue demo_contents_ok).
  repeat constructor; cbn; lia.
Defined.

(** X21: on a queue that satisfies the invariant no function but
    [run_top] invokes a callback, and [run_top] invokes at most one: the
    callback of a queued process, with the quantum and that process's
    context. *)
Theorem callbacks_only_from_run_top q st l :
  represents (heap st) q l -> contents_ok l ->
  (forall m q' st',
     mutate m q st = Ok (q', st') -> calls_allowed m l (calls st) (calls st')) /\
  (forall dest r st', copy_queue dest q st = Ok (r, st') -> calls st' = calls st) /\
  (forall mask r st', get_top q mask st = Ok (r, st') -> calls st' = calls st).
Proof.
  intros (ns & Hq & <-) Hok. split; [|split].
  - intros m q' st' Hrun.
    assert (Hm : asserted m).
    { destruct m as [p| |cb ctx nice| |]; cbn [asserted]; try exact I.
      - apply niceness_ok_spec. destruct (niceness_ok (niceness p)) eqn:E; [reflexivity|].
        cbn [mutate] in Hrun. unfold push_to_queue, bind in Hrun. rewrite E in Hrun.
        discriminate.
      - apply niceness_ok_spec. destruct (niceness_ok nice) eqn:E; [reflexivity|].
        cbn [mutate] in Hrun. unfold renice, bind in Hrun. rewrite E in Hrun.
        discriminate. }
    destruct (mutate_exact m q st ns Hq Hok Hm) as (q1 & st1 & Hrun1 & _ & Hcalls).
    rewrite Hrun in Hrun1. injection Hrun1 as <- <-. exact Hcalls.
  - intros dest r st' Hrun.
    destruct (copy_queue_spec dest q st ns Hq)
      as (st1 & Hcalls & [(d1 & cs & _ & Hrun1 & _)|(_ & Hrun1 & _)]);
      rewrite Hrun in Hrun1; injection Hrun1 as _ <-; exact Hcalls.
  - intros mask r st' Hrun.
    destruct (split_first (eligible mask) ns)
      as [Hnone|(ns1 & n & ns2 & -> & Hskip & Hhit)].
    + rewrite (get_top_none q mask st ns Hq Hnone) in Hrun. injection Hrun as _ <-.
      reflexivity.
    + rewrite (get_top_first q mask st ns1 n ns2 Hq Hskip Hhit) in Hrun.
      injection Hrun as _ <-. reflexivity.
Qed.

Lemma callbacks_only_from_run_top_witness :
  exists q' st',
    mutate (MRenice 1 0 15) demo_queue demo_state = Ok (q', st') /\ calls st' = [].
Proof.
  destruct (callbacks_only_from_run_top demo_queue demo_state demo_nodes.*2
              (represents_nodes _ _ _ demo_is_queue) demo_contents_ok) as (Hmut & _).
  eexists _, _. split; [vm_compute; reflexivity|].
  refine (Hmut (MRenice 1 0 15) _ _ _). vm_compute. reflexivity.
Defined.

(** ** Reachable states: a witness *)

Lemma reachable_invariant_witness :
  (forall q, q ∈ [demo_queue] -> queue_invariant demo_heap q) /\
  exists s', perform (CCopy 0 0) (mk_program demo_state [demo_queue]) = Ok s'.
Proof.
  assert (H0 : reachable (mk_program (mk_state ∅ [] []) [])) by apply reach_start.
  assert (H1 : reachable (mk_program (mk_state ∅ [] []) [create_queue])).
  { apply (reach_call _ CCreate _ H0); [exact I|reflexivity]. }
  assert (H2 : reachable
            (mk_program (mk_state (<[1%positive := mk_item demo_a None None]> ∅) [] [])
               [mk_queue (Some 1%positive) (Some 1%positive) 1])).
  { apply (reach_call _ (CMutate 0 (MPush demo_a)) _ H1).
    - split; [cbn; lia|]. cbn. lia.
    - vm_compute. reflexivity. }
  assert (H3 : reachable (mk_program demo_state [demo_queue])).
  { apply (reach_call _ (CMutate 0 (MPush demo_b)) _ H2).
    - split; [cbn; lia|]. cbn. lia.
    - vm_compute. reflexivity. }
  destruct (reachable_invariant _ H3) as [Hinv Hruns].
  split; [exact Hinv|]. apply Hruns. cbn. lia.
Defined.
